(** * GraphBase: the weighted digraph of mav_coverage_graph_solvers

    A shallow embedding of
    [include/mav_coverage_graph_solvers/impl/graph_base_impl.h]
    (class template [GraphBase<NodeProperty, EdgeProperty>]) and the
    properties of its construction, query, export and search operations.

    Representation choices.
    - [size_t] is [N]; its largest value is [SIZE_MAX].
    - [int] is [Z] between [INT_MIN] and [INT_MAX]; a conversion whose result
      would lie outside is undefined behaviour in C++ and [None] here.
    - [double] is the rational it denotes.  Comparisons are exact.  A sum or
      a product is the exact one rounded to the nearest binary64 value, ties
      to even ([round64]); what rounds beyond the largest finite value
      [DBL_MAX] becomes [DBL_INF], which stands for infinity.  NaN has no
      counterpart: the code computes none from costs that passed [addEdge],
      so the only NaN it can meet is one that the heuristic hook returns.
    - [std::map<K,V>] is [gmap K V] and [std::set<size_t>] is [gset N];
      where the code iterates over one, the model walks its elements in
      ascending key order, as the C++ containers do.
    - [std::vector] is [list]; [v[i]] out of range is undefined behaviour in
      C++ and the explicit outcome [OutOfBounds] here.
    - [while] loops take fuel; [OutOfFuel] is the outcome of a run that was
      cut short, never the outcome of the code. *)

From Stdlib Require Import QArith Qround Qpower Lqa.
From stdpp Require Import gmap list sorting.

#[local] Open Scope Q_scope.

(** ** Scalars and containers *)

Definition SIZE_MAX : N := (2 ^ 64 - 1)%N.
Definition INT_MAX : Z := (2 ^ 31 - 1)%Z.
Definition INT_MIN : Z := (- 2 ^ 31)%Z.
Definition DBL_MAX : Q := inject_Z (2 ^ 1024 - 2 ^ 971).
Definition DBL_INF : Q := inject_Z (2 ^ 1024).

Abbreviation EdgeId := (N * N)%type.
Abbreviation Solution := (list N).
Abbreviation Heuristic := (gmap N Q).

(** [a < b] on doubles. *)
Definition Qltb (a b : Q) : bool := negb (Qle_bool b a).

(** [m[i]] on a [std::map<size_t,double>] used as an rvalue.  On a missing
    key [operator[]] value-initialises the entry to [0.0] and returns it; the
    maps read this way are locals of the search that are only ever read back
    through [operator[]], so the inserted entry and the absent one read the
    same. *)
Definition at0 (m : gmap N Q) (i : N) : Q := default 0 (m !! i).

(** [std::map::insert(std::make_pair(k, v))]: keeps an existing entry. *)
Definition map_emplace `{Countable K} {V} (k : K) (v : V) (m : gmap K V) : gmap K V :=
  match m !! k with
  | Some _ => m
  | None => <[k := v]> m
  end.

(** Iteration order of [std::map<size_t,double>] and [std::set<size_t>]. *)
Definition key_le (a b : N * Q) : Prop := (a.1 <= b.1)%N.

#[local] Instance key_le_dec a b : Decision (key_le a b) := N.le_dec _ _.

Definition map_order (m : gmap N Q) : list (N * Q) :=
  merge_sort key_le (map_to_list m).

Definition set_order (s : gset N) : list N :=
  merge_sort N.le (elements s).

(** [*std::min_element(first, last, comp)]: the first smallest element. *)
Definition min_element (comp : N → N → bool) (s : list N) : option N :=
  match s with
  | [] => None
  | first :: rest =>
      Some (fold_left (λ smallest it, if comp it smallest then it else smallest)
                      rest first)
  end.

(** Outcome of a run of code that indexes vectors and loops. *)
Inductive run (A : Type) : Type :=
  | Done (a : A)
  | OutOfBounds
  | OutOfFuel.

Arguments Done {A} a.
Arguments OutOfBounds {A}.
Arguments OutOfFuel {A}.

(** ** Double arithmetic *)

(** The exponent [e] with [2^e <= x < 2^(e+1)], for [x > 0]. *)
Definition floor_log2 (x : Q) : Z :=
  if Qle_bool 1 x then Z.log2 (Qfloor x) else (- Z.log2_up (Qceiling (/ x)))%Z.

(** The exponent of the binade of [x]; below [2^-1022] the values are
    subnormal and share the exponent -1022. *)
Definition binade (x : Q) : Z := Z.max (-1022) (floor_log2 x).

(** The integer nearest to [y], the even one of two that are equally near. *)
Definition round_half_even (y : Q) : Z :=
  let f := Qfloor y in
  match Qcompare (y - inject_Z f) (1 # 2) with
  | Lt => f
  | Gt => (f + 1)%Z
  | Eq => if Z.even f then f else (f + 1)%Z
  end.

(** Rounding of [x >= 0] to 53 significant bits; from [DBL_MAX] plus half
    a unit in the last place upwards the result is infinite. *)
Definition round_magnitude (x : Q) : Q :=
  if Qle_bool (inject_Z (2 ^ 1024 - 2 ^ 970)) x then DBL_INF
  else
    let ulp := 2 ^ (binade x - 52) in
    inject_Z (round_half_even (x / ulp)) * ulp.

(** Round to nearest binary64, ties to even. *)
Definition round64 (x : Q) : Q :=
  let x := Qred x in
  if Qle_bool 0 x then round_magnitude x else - round_magnitude (- x).

(** [a + b] on doubles.  An infinite operand decides the sum.  The sum of
    the two infinities is a NaN; the code adds a non-negative cost to a
    finite cost, or an estimate to a finite cost, and so never forms it. *)
Definition dadd (a b : Q) : Q :=
  if Qle_bool DBL_INF a || Qle_bool DBL_INF b then DBL_INF
  else if Qle_bool a (- DBL_INF) || Qle_bool b (- DBL_INF) then - DBL_INF
  else round64 (a + b).

(** [a * b] on doubles, for a factor [b] that is finite and not zero. *)
Definition dmul (a b : Q) : Q := round64 (a * b).

(** The rationals that are values of type double. *)
Definition is_double (x : Q) : Prop := round64 x == x.

(** Modelled from the spec: the factor of [doubleToMilliInt], which is
    declared in [mav_coverage_planning/common.h], not among the sources.  The
    spec has the cost multiplied by 1000. *)
Definition kToMilliIntFactor : Q := 1000.

(** [std::round]: to the nearest integer, halves away from zero. *)
Definition round_half_away (q : Q) : Z :=
  if Qle_bool 0 q then Qfloor (q + (1 # 2)) else (- Qfloor (- q + (1 # 2)))%Z.

(** Modelled from the spec: [doubleToMilliInt], declared in
    [mav_coverage_planning/common.h], not among the sources.  The spec gives
    it as [round(cost * 1000)]: the product is a product of doubles, and the
    rounded product is converted to [int], which is undefined when it does
    not fit. *)
Definition doubleToMilliInt (d : Q) : option Z :=
  let r := round_half_away (dmul d kToMilliIntFactor) in
  if (INT_MIN <=? r)%Z && (r <=? INT_MAX)%Z then Some r else None.

Section GraphBase.

Context {NodeProperty EdgeProperty : Type}.

(** ** The graph object *)

Record GraphBase : Type := mkGraphBase {
  graph_ : list (gmap N Q);
  node_properties_ : gmap N NodeProperty;
  edge_properties_ : gmap EdgeId EdgeProperty;
  start_idx_ : N;
  goal_idx_ : N;
  is_created_ : bool
}.

Definition set_graph (gr : list (gmap N Q)) (g : GraphBase) : GraphBase :=
  mkGraphBase gr (node_properties_ g) (edge_properties_ g)
              (start_idx_ g) (goal_idx_ g) (is_created_ g).

Definition set_node_properties (np : gmap N NodeProperty) (g : GraphBase) : GraphBase :=
  mkGraphBase (graph_ g) np (edge_properties_ g)
              (start_idx_ g) (goal_idx_ g) (is_created_ g).

Definition set_edge_properties (ep : gmap EdgeId EdgeProperty) (g : GraphBase) : GraphBase :=
  mkGraphBase (graph_ g) (node_properties_ g) ep
              (start_idx_ g) (goal_idx_ g) (is_created_ g).

Definition set_start_idx (i : N) (g : GraphBase) : GraphBase :=
  mkGraphBase (graph_ g) (node_properties_ g) (edge_properties_ g)
              i (goal_idx_ g) (is_created_ g).

Definition set_goal_idx (i : N) (g : GraphBase) : GraphBase :=
  mkGraphBase (graph_ g) (node_properties_ g) (edge_properties_ g)
              (start_idx_ g) i (is_created_ g).

(** [graph_.size()] *)
Definition graph_size (g : GraphBase) : N := N.of_nat (length (graph_ g)).

(** ** Queries *)

Definition nodeExists (g : GraphBase) (node_id : N) : bool :=
  (node_id <? graph_size g)%N.

Definition nodePropertyExists (g : GraphBase) (node_id : N) : bool :=
  bool_decide (is_Some (node_properties_ g !! node_id)).

Definition edgeExists (g : GraphBase) (edge_id : EdgeId) : bool :=
  nodeExists g edge_id.1 &&
  match graph_ g !! N.to_nat edge_id.1 with
  | Some neighbors => bool_decide (is_Some (neighbors !! edge_id.2))
  | None => false
  end.

Definition edgePropertyExists (g : GraphBase) (edge_id : EdgeId) : bool :=
  bool_decide (is_Some (edge_properties_ g !! edge_id)).

(** Returns the status and the value written to [*cost].  The two [at]
    calls cannot throw: [edgeExists] has just found both keys. *)
Definition getEdgeCost (g : GraphBase) (edge_id : EdgeId) : bool * Q :=
  if edgeExists g edge_id then
    match graph_ g !! N.to_nat edge_id.1 with
    | Some neighbors => (true, at0 neighbors edge_id.2)
    | None => (false, - (1))
    end
  else (false, - (1)).

Definition getNodeProperty (g : GraphBase) (node_id : N) : option NodeProperty :=
  if nodePropertyExists g node_id then node_properties_ g !! node_id else None.

Definition getEdgeProperty (g : GraphBase) (edge_id : EdgeId) : option EdgeProperty :=
  if edgePropertyExists g edge_id then edge_properties_ g !! edge_id else None.

(** ** Mutation *)

Definition addEdge (edge_id : EdgeId) (edge_property : EdgeProperty) (cost : Q)
    (g : GraphBase) : bool * GraphBase :=
  if Qle_bool 0 cost && nodeExists g edge_id.1 then
    let g1 := set_graph (alter (insert edge_id.2 cost) (N.to_nat edge_id.1) (graph_ g)) g in
    (true, set_edge_properties (map_emplace edge_id edge_property (edge_properties_ g1)) g1)
  else (false, g).

(** The [addEdges()] hook is a virtual member that a concrete graph
    overrides; what it does to the graph it does through [addEdge].  An
    override is therefore given by the [addEdge] calls it issues, in order,
    and the status it returns, both chosen from the graph it is run on. *)
Definition edge_call : Type := EdgeId * EdgeProperty * Q.

Definition run_call (g : GraphBase) (c : edge_call) : GraphBase :=
  (addEdge c.1.1 c.1.2 c.2 g).2.

Definition run_hook (hook : GraphBase → list edge_call * bool) (g : GraphBase)
    : bool * GraphBase :=
  ((hook g).2, fold_left run_call (hook g).1 g).

(** [GraphBase::addEdges], the default: "addEdges not implemented". *)
Definition addEdges_base (g : GraphBase) : list edge_call * bool := ([], false).

(** [GraphBase::calculateHeuristic], the default: "Heuristic not implemented". *)
Definition calculateHeuristic_base (g : GraphBase) (goal : N) : bool * Heuristic :=
  (false, ∅).

(** [GraphBase::create], the default. *)
Definition create (g : GraphBase) : bool * GraphBase := (false, g).

Section Hooks.

Variable addEdges : GraphBase → list edge_call * bool.
Variable calculateHeuristic : GraphBase → N → bool * Heuristic.

Definition addNode (node_property : NodeProperty) (g : GraphBase) : bool * GraphBase :=
  let g1 := set_graph (graph_ g ++ [∅]) g in
  let idx := (graph_size g1 - 1)%N in
  let g2 := set_node_properties (map_emplace idx node_property (node_properties_ g1)) g1 in
  let '(ok, g3) := run_hook addEdges g2 in
  if ok then (true, g3)
  else
    let g4 := set_graph (removelast (graph_ g3)) g3 in
    (false, set_node_properties (delete idx (node_properties_ g4)) g4).

Definition addStartNode (node_property : NodeProperty) (g : GraphBase) : bool * GraphBase :=
  let g1 := set_start_idx (graph_size g) g in
  addNode node_property g1.

Definition addGoalNode (node_property : NodeProperty) (g : GraphBase) : bool * GraphBase :=
  let g1 := set_goal_idx (graph_size g) g in
  addNode node_property g1.

Definition clear (g : GraphBase) : GraphBase :=
  mkGraphBase [] ∅ ∅ SIZE_MAX SIZE_MAX false.

Definition clearEdges (g : GraphBase) : GraphBase :=
  let g1 := set_edge_properties ∅ g in
  set_graph (map (λ _ : gmap N Q, ∅) (graph_ g1)) g1.

(** ** Export *)

(** [None] when [doubleToMilliInt] is undefined for the cost of some
    edge between two nodes. *)
Definition getAdjacencyMatrix (g : GraphBase) : option (list (list Z)) :=
  let n := length (graph_ g) in
  mapM (λ i,
          mapM (λ j,
                  let edge : EdgeId := (N.of_nat i, N.of_nat j) in
                  if edgeExists g edge && (getEdgeCost g edge).1
                  then doubleToMilliInt (getEdgeCost g edge).2
                  else Some INT_MAX)
               (seq 0 n))
       (seq 0 n).

(** ** Search *)

Fixpoint reconstruct_loop (fuel : nat) (came_from : gmap N N) (current : N)
    (solution : list N) : run (list N) :=
  match fuel with
  | O => OutOfFuel
  | S fuel' =>
      match came_from !! current with
      | Some previous => reconstruct_loop fuel' came_from previous (solution ++ [previous])
      | None => Done solution
      end
  end.

Definition reconstructSolution (fuel : nat) (came_from : gmap N N) (current : N)
    : run Solution :=
  match reconstruct_loop fuel came_from current [current] with
  | Done solution => Done (reverse solution)
  | OutOfBounds => OutOfBounds
  | OutOfFuel => OutOfFuel
  end.

(** [cost[i] = max] for every [i < graph_.size()]. *)
Definition fill_max (n : nat) : gmap N Q :=
  fold_left (λ m i, <[N.of_nat i := DBL_MAX]> m) (seq 0 n) ∅.

(** The body of [for (n : graph_[current])] in [solveDijkstra]. *)
Fixpoint dijkstra_neighbors (closed_set : gset N) (current : N) (ns : list (N * Q))
    (open_set : gset N) (came_from : gmap N N) (cost : gmap N Q)
    : gset N * gmap N N * gmap N Q :=
  match ns with
  | [] => (open_set, came_from, cost)
  | n :: ns' =>
      if decide (n.1 ∈ closed_set)
      then dijkstra_neighbors closed_set current ns' open_set came_from cost
      else
        let open_set := open_set ∪ {[n.1]} in
        let tentative_cost := dadd (at0 cost current) n.2 in
        if Qle_bool (at0 cost n.1) tentative_cost
        then dijkstra_neighbors closed_set current ns' open_set came_from cost
        else dijkstra_neighbors closed_set current ns' open_set
               (<[n.1 := current]> came_from) (<[n.1 := tentative_cost]> cost)
  end.

(** The [while (!open_set.empty())] loop of [solveDijkstra]; [Done None] is
    the fall-through to [return false]. *)
Fixpoint dijkstra_while (fuel rfuel : nat) (graph : list (gmap N Q)) (goal : N)
    (open_set closed_set : gset N) (came_from : gmap N N) (cost : gmap N Q)
    : run (option Solution) :=
  match fuel with
  | O => OutOfFuel
  | S fuel' =>
      match min_element (λ i j, Qltb (at0 cost i) (at0 cost j)) (set_order open_set) with
      | None => Done None
      | Some current =>
          if (current =? goal)%N then
            match reconstructSolution rfuel came_from current with
            | Done solution => Done (Some solution)
            | OutOfBounds => OutOfBounds
            | OutOfFuel => OutOfFuel
            end
          else
            let open_set := open_set ∖ {[current]} in
            let closed_set := closed_set ∪ {[current]} in
            match graph !! N.to_nat current with
            | None => OutOfBounds
            | Some neighbors =>
                let '(open_set, came_from, cost) :=
                  dijkstra_neighbors closed_set current (map_order neighbors)
                                     open_set came_from cost in
                dijkstra_while fuel' rfuel graph goal open_set closed_set came_from cost
            end
      end
  end.

(** [solveDijkstra(start, goal, solution)]: the status and [*solution]. *)
Definition solveDijkstra (fuel : nat) (g : GraphBase) (start goal : N)
    (solution : Solution) : run (bool * Solution) :=
  let solution : Solution := [] in
  if negb (nodeExists g start) || negb (nodeExists g goal) then Done (false, solution)
  else
    let cost := <[start := 0]> (fill_max (length (graph_ g))) in
    match dijkstra_while fuel fuel (graph_ g) goal {[start]} ∅ ∅ cost with
    | Done (Some path) => Done (true, path)
    | Done None => Done (false, solution)
    | OutOfBounds => OutOfBounds
    | OutOfFuel => OutOfFuel
    end.

Definition solveDijkstra0 (fuel : nat) (g : GraphBase) (solution : Solution)
    : run (bool * Solution) :=
  solveDijkstra fuel g (start_idx_ g) (goal_idx_ g) solution.

(** The body of [for (n : graph_[current])] in [solveAStar]; [None] is the
    [return false] on a neighbour without heuristic. *)
Fixpoint astar_neighbors (heuristic : Heuristic) (closed_set : gset N) (current : N)
    (ns : list (N * Q)) (open_set : gset N) (came_from : gmap N N)
    (cost cost_with_heuristic : gmap N Q)
    : option (gset N * gmap N N * gmap N Q * gmap N Q) :=
  match ns with
  | [] => Some (open_set, came_from, cost, cost_with_heuristic)
  | n :: ns' =>
      if decide (n.1 ∈ closed_set)
      then astar_neighbors heuristic closed_set current ns' open_set came_from
             cost cost_with_heuristic
      else
        let open_set := open_set ∪ {[n.1]} in
        let tentative_cost := dadd (at0 cost current) n.2 in
        if Qle_bool (at0 cost n.1) tentative_cost
        then astar_neighbors heuristic closed_set current ns' open_set came_from
               cost cost_with_heuristic
        else
          let came_from := <[n.1 := current]> came_from in
          let cost := <[n.1 := tentative_cost]> cost in
          match heuristic !! n.1 with
          | None => None
          | Some h =>
              astar_neighbors heuristic closed_set current ns' open_set came_from
                cost (<[n.1 := dadd (at0 cost n.1) h]> cost_with_heuristic)
          end
  end.

Fixpoint astar_while (fuel rfuel : nat) (graph : list (gmap N Q)) (heuristic : Heuristic)
    (goal : N) (open_set closed_set : gset N) (came_from : gmap N N)
    (cost cost_with_heuristic : gmap N Q) : run (option Solution) :=
  match fuel with
  | O => OutOfFuel
  | S fuel' =>
      match min_element (λ i j, Qltb (at0 cost_with_heuristic i) (at0 cost_with_heuristic j))
                        (set_order open_set) with
      | None => Done None
      | Some current =>
          if (current =? goal)%N then
            match reconstructSolution rfuel came_from current with
            | Done solution => Done (Some solution)
            | OutOfBounds => OutOfBounds
            | OutOfFuel => OutOfFuel
            end
          else
            let open_set := open_set ∖ {[current]} in
            let closed_set := closed_set ∪ {[current]} in
            match graph !! N.to_nat current with
            | None => OutOfBounds
            | Some neighbors =>
                match astar_neighbors heuristic closed_set current (map_order neighbors)
                                      open_set came_from cost cost_with_heuristic with
                | None => Done None
                | Some (open_set, came_from, cost, cost_with_heuristic) =>
                    astar_while fuel' rfuel graph heuristic goal open_set closed_set
                                came_from cost cost_with_heuristic
                end
            end
      end
  end.

(** [solveAStar(start, goal, solution)]: the status and [*solution]. *)
Definition solveAStar (fuel : nat) (g : GraphBase) (start goal : N)
    (solution : Solution) : run (bool * Solution) :=
  if negb (nodeExists g start) || negb (nodeExists g goal) then Done (false, solution)
  else
    let '(ok, heuristic) := calculateHeuristic g goal in
    if negb ok then Done (false, solution)
    else
      let cost := <[start := 0]> (fill_max (length (graph_ g))) in
      let cost_with_heuristic := fill_max (length (graph_ g)) in
      match heuristic !! start with
      | None => Done (false, solution)
      | Some h_start =>
          let cost_with_heuristic := <[start := h_start]> cost_with_heuristic in
          match astar_while fuel fuel (graph_ g) heuristic goal {[start]} ∅ ∅
                            cost cost_with_heuristic with
          | Done (Some path) => Done (true, path)
          | Done None => Done (false, solution)
          | OutOfBounds => OutOfBounds
          | OutOfFuel => OutOfFuel
          end
      end.

Definition solveAStar0 (fuel : nat) (g : GraphBase) (solution : Solution)
    : run (bool * Solution) :=
  solveAStar fuel g (start_idx_ g) (goal_idx_ g) solution.

(** The mutating operations of the public and protected interface. *)
Inductive operation : Type :=
  | OpAddNode (p : NodeProperty)
  | OpAddStartNode (p : NodeProperty)
  | OpAddGoalNode (p : NodeProperty)
  | OpAddEdge (e : EdgeId) (p : EdgeProperty) (c : Q)
  | OpClear
  | OpClearEdges
  | OpCreate.

Definition perform (op : operation) (g : GraphBase) : GraphBase :=
  match op with
  | OpAddNode p => (addNode p g).2
  | OpAddStartNode p => (addStartNode p g).2
  | OpAddGoalNode p => (addGoalNode p g).2
  | OpAddEdge e p c => (addEdge e p c g).2
  | OpClear => clear g
  | OpClearEdges => clearEdges g
  | OpCreate => (create g).2
  end.

End Hooks.

(** ** Vocabulary of the properties *)

(** Every stored adjacency cost is non-negative. *)
Definition costs_nonneg (g : GraphBase) : Prop :=
  ∀ i neighbors j c, graph_ g !! i = Some neighbors → neighbors !! j = Some c → 0 <= c.

(** Every adjacency entry points to an existing node. *)
Definition targets_exist (g : GraphBase) : Prop :=
  ∀ i neighbors j c, graph_ g !! i = Some neighbors → neighbors !! j = Some c →
    nodeExists g j = true.

(** The two conditions as a test. *)
Definition well_formed (g : GraphBase) : bool :=
  forallb (λ neighbors : gmap N Q,
             forallb (λ n : N * Q, nodeExists g n.1 && Qle_bool 0 n.2)
                     (map_to_list neighbors))
          (graph_ g).

(** The adjacency entry [u → v] with cost [w]. *)
Definition edge (g : GraphBase) (u v : N) (w : Q) : Prop :=
  ∃ neighbors, graph_ g !! N.to_nat u = Some neighbors ∧ neighbors !! v = Some w.

(** [path g s v c]: a directed path from [s] to [v] along adjacency entries,
    of cumulative cost [c]. *)
Inductive path (g : GraphBase) (s : N) : N → Q → Prop :=
  | path_here : path g s s 0
  | path_step v x c w : path g s v c → edge g v x w → path g s x (c + w).

(** The cumulative edge cost of a node sequence, read off the graph with
    [getEdgeCost]; [None] when the sequence is empty or leaves the adjacency
    entries. *)
Fixpoint solution_cost (g : GraphBase) (solution : Solution) : option Q :=
  match solution with
  | [] => None
  | u :: rest =>
      match rest with
      | [] => Some 0
      | v :: _ =>
          if (getEdgeCost g (u, v)).1
          then (λ c, (getEdgeCost g (u, v)).2 + c) <$> solution_cost g rest
          else None
      end
  end.

(** Estimates: defined on every node, never above the cost of a path to the
    goal (admissible), and never above an edge cost plus the estimate at its
    target (consistent). *)
Definition total_on (g : GraphBase) (heuristic : Heuristic) : Prop :=
  ∀ v, nodeExists g v = true → is_Some (heuristic !! v).

Definition admissible (g : GraphBase) (goal : N) (heuristic : Heuristic) : Prop :=
  ∀ v hv c, heuristic !! v = Some hv → path g v goal c → hv <= c.

Definition consistent (g : GraphBase) (heuristic : Heuristic) : Prop :=
  ∀ u v w hu hv, edge g u v w → heuristic !! u = Some hu → heuristic !! v = Some hv →
    hu <= w + hv.

(** The two conditions on the entries of [heuristic] that can be tested. *)
Definition consistent_on (g : GraphBase) (heuristic : Heuristic) : bool :=
  forallb (λ i : nat,
             match graph_ g !! i, heuristic !! N.of_nat i with
             | Some neighbors, Some hu =>
                 forallb (λ n : N * Q,
                            match heuristic !! n.1 with
                            | Some hv => Qle_bool hu (n.2 + hv)
                            | None => true
                            end)
                         (map_to_list neighbors)
             | _, _ => false
             end)
          (seq 0 (length (graph_ g))).

(** No sum that a search forms is rounded.  The searches add an edge cost,
    or an estimate, to the cost of a sequence of at most as many nodes as the
    graph has that leads from [start] along adjacency entries: [exact_sums]
    says that adding an edge cost to such a cost is exact in double
    arithmetic and stays below [DBL_MAX], [exact_estimates] that adding the
    estimate of the node reached is exact. *)
Definition exact_sums (g : GraphBase) (start : N) : Prop :=
  ∀ p c u v w, (length p ≤ length (graph_ g))%nat →
    head p = Some start → last p = Some u → solution_cost g p = Some c →
    edge g u v w →
    dadd c w == c + w ∧ c + w < DBL_MAX.

Definition exact_estimates (g : GraphBase) (heuristic : Heuristic) (start : N) : Prop :=
  ∀ p c u hu, (length p ≤ length (graph_ g))%nat →
    head p = Some start → last p = Some u → solution_cost g p = Some c →
    heuristic !! u = Some hu →
    dadd c hu == c + hu.

(** The two conditions as a test: walks the sequences of at most [S fuel]
    nodes that start at [u], [c] being the cost of the way to [u]. *)
Fixpoint sums_exact_from (fuel : nat) (g : GraphBase) (heuristic : Heuristic)
    (u : N) (c : Q) : bool :=
  match heuristic !! u with
  | Some hu => Qeq_bool (dadd c hu) (c + hu)
  | None => true
  end &&
  match graph_ g !! N.to_nat u with
  | None => true
  | Some neighbors =>
      forallb (λ n : N * Q,
                 Qeq_bool (dadd c n.2) (c + n.2) && Qltb (c + n.2) DBL_MAX &&
                 match fuel with
                 | O => true
                 | S fuel' => sums_exact_from fuel' g heuristic n.1 (c + n.2)
                 end)
              (map_to_list neighbors)
  end.

(** [p] rounds to an [int]: it lies within half a unit of the range. *)
Definition fits_int (p : Q) : Prop :=
  inject_Z INT_MIN - (1 # 2) < p ∧ p < inject_Z INT_MAX + (1 # 2).

(** [z] is the integer nearest to [p], the one away from zero of two that
    are equally near: what [std::round] returns. *)
Definition nearest_away (p : Q) (z : Z) : Prop :=
  (0 <= p ∧ inject_Z z - (1 # 2) <= p ∧ p < inject_Z z + (1 # 2)) ∨
  (p < 0 ∧ inject_Z z - (1 # 2) < p ∧ p <= inject_Z z + (1 # 2)).

(** ** Vocabulary of the search loops *)

(** The predecessor chain from [v], in the order [reconstructSolution]
    pushes it. *)
Inductive trail (came_from : gmap N N) : N → list N → Prop :=
  | trail_end v : came_from !! v = None → trail came_from v [v]
  | trail_step v u l :
      came_from !! v = Some u → trail came_from u l → trail came_from v (v :: l).

(** A node that has been given a cost: the start, or a node with a
    predecessor. *)
Definition labelled (start : N) (came_from : gmap N N) (v : N) : Prop :=
  v = start ∨ is_Some (came_from !! v).

(** The state of the [while] loop of either search, seen between two
    neighbours of [current], with [pending] the neighbours still to visit;
    between two iterations of the [while] loop [pending] is empty.  This
    part holds whatever the costs and the estimates are. *)
Record reach_inv (g : GraphBase) (start goal : N)
    (current : N) (pending : list (N * Q))
    (open_set closed_set : gset N) (came_from : gmap N N) : Prop := {
  reach_nodes : ∀ v, v ∈ open_set ∪ closed_set → nodeExists g v = true;
  reach_disjoint : ∀ v, v ∈ open_set → v ∉ closed_set;
  reach_start : start ∈ open_set ∪ closed_set;
  reach_goal : goal ∉ closed_set;
  reach_path : ∀ v, v ∈ open_set ∪ closed_set → ∃ c, path g start v c;
  reach_closure : ∀ u v w, u ∈ closed_set → edge g u v w →
                  (u = current ∧ (v, w) ∈ pending) ∨ v ∈ open_set ∪ closed_set;
  reach_trail : ∀ v, ∃ l, trail came_from v l ∧
                  (∀ x, x ∈ tail l → x ∈ closed_set) ∧
                  (length l ≤ S (size closed_set))%nat ∧
                  (v ∈ closed_set → (length l ≤ size closed_set)%nat)
}.

(** The state of the [while] loop of [solveAStar] when no sum is rounded,
    with the costs and the keys. *)
Record search_inv (g : GraphBase) (heuristic : Heuristic) (start goal : N)
    (current : N) (pending : list (N * Q))
    (open_set closed_set : gset N) (came_from : gmap N N)
    (cost cost_with_heuristic : gmap N Q) : Prop := {
  inv_nodes : ∀ v, v ∈ open_set ∪ closed_set → nodeExists g v = true;
  inv_disjoint : ∀ v, v ∈ open_set → v ∉ closed_set;
  inv_start : start ∈ open_set ∪ closed_set ∧ came_from !! start = None ∧
              at0 cost start == 0;
  inv_goal : goal ∉ closed_set;
  inv_reach : ∀ v, v ∈ open_set ∪ closed_set → ∃ c, path g start v c;
  inv_seen : ∀ v, v ∈ open_set ∪ closed_set → labelled start came_from v;
  inv_finite : ∀ v, labelled start came_from v → at0 cost v < DBL_MAX;
  inv_nonneg : ∀ v, 0 <= at0 cost v;
  inv_bound : ∀ v, nodeExists g v = true → at0 cost v <= DBL_MAX;
  inv_unlabelled : ∀ v, nodeExists g v = true → ¬ labelled start came_from v →
                   at0 cost v == DBL_MAX ∧ at0 cost_with_heuristic v == DBL_MAX;
  inv_labelled : ∀ v, labelled start came_from v →
                 v ∈ open_set ∪ closed_set ∧
                 (∃ hv, heuristic !! v = Some hv ∧
                        at0 cost_with_heuristic v == at0 cost v + hv) ∧
                 (∃ c, path g start v c ∧ c == at0 cost v);
  inv_relaxed : ∀ u v w, u ∈ closed_set → edge g u v w →
                (u = current ∧ (v, w) ∈ pending) ∨ v ∈ closed_set ∨
                (v ∈ open_set ∧ at0 cost v <= at0 cost u + w);
  inv_optimal : ∀ u c hu, u ∈ closed_set → heuristic !! u = Some hu →
                path g start u c → c < DBL_MAX → c + hu < DBL_MAX →
                at0 cost u <= c;
  inv_trail : ∀ v, ∃ l, trail came_from v l ∧
                (∀ x, x ∈ tail l → x ∈ closed_set) ∧
                (length l ≤ S (size closed_set))%nat ∧
                (v ∈ closed_set → (length l ≤ size closed_set)%nat) ∧
                (labelled start came_from v →
                   last l = Some start ∧
                   ∃ c, solution_cost g (reverse l) = Some c ∧ c == at0 cost v)
}.

(** What a finished run of the [while] loop says about the graph when no
    sum is rounded.  A returned solution is a cheapest path from [start] to
    [goal]. *)
Definition cheapest (g : GraphBase) (start goal : N) (solution : Solution) : Prop :=
  head solution = Some start ∧ last solution = Some goal ∧
  ∃ c, solution_cost g solution = Some c ∧
       (∃ c0, path g start goal c0 ∧ c0 == c) ∧
       ∀ c', path g start goal c' → c <= c'.

Definition search_post (g : GraphBase) (heuristic : Heuristic) (start goal : N)
    (result : option Solution) : Prop :=
  match result with
  | Some solution =>
      (∃ c, path g start goal c) ∧
      ∀ hg, heuristic !! goal = Some hg → hg <= 0 → cheapest g start goal solution
  | None => ∀ c, ¬ path g start goal c
  end.

(** The estimate that is zero on the first [n] nodes. *)
Definition zero_heuristic (n : nat) : Heuristic :=
  fold_left (λ m i, <[N.of_nat i := 0]> m) (seq 0 n) ∅.

(** ** Vocabulary of the bookkeeping *)

(** The node properties are stored for the existing nodes and for no other
    index. *)
Definition nodes_paired (g : GraphBase) : Prop :=
  ∀ i, nodePropertyExists g i = nodeExists g i.

(** Every adjacency entry has an edge property. *)
Definition edges_have_property (g : GraphBase) : Prop :=
  ∀ e : EdgeId, edgeExists g e = true → edgePropertyExists g e = true.

(** The cost stored for an edge identifier, if any. *)
Definition stored_cost (g : GraphBase) (e : EdgeId) : option Q :=
  graph_ g !! N.to_nat e.1 ≫= (λ neighbors : gmap N Q, neighbors !! e.2).

(** Every recorded predecessor is the source of an adjacency entry to its
    successor. *)
Definition predecessors_are_edges (g : GraphBase) (came_from : gmap N N) : Prop :=
  ∀ v u, came_from !! v = Some u → ∃ w, edge g u v w.

(** Each element of [solution] but the first has its left neighbour as
    recorded predecessor. *)
Fixpoint chained (came_from : gmap N N) (solution : Solution) : Prop :=
  match solution with
  | [] => True
  | u :: rest =>
      match rest with
      | [] => True
      | v :: _ => came_from !! v = Some u ∧ chained came_from rest
      end
  end.

End GraphBase.

(** ** Concrete graphs

    Node and edge properties are numbers here; the graphs are built with the
    operations above. *)

Module Scenario.

Definition empty_graph : @GraphBase N N := mkGraphBase [] ∅ ∅ SIZE_MAX SIZE_MAX false.

(** A hook that wires nothing and succeeds. *)
Definition no_edges (g : @GraphBase N N) : list (@edge_call N) * bool := ([], true).

(** [k] isolated nodes. *)
Fixpoint isolated (k : nat) : @GraphBase N N :=
  match k with
  | O => empty_graph
  | S k' => (addNode no_edges 0%N (isolated k')).2
  end.

(** Adds the listed edges, with their cost as property, to [g]. *)
Definition with_edges (es : list (N * N * Q)) (g : @GraphBase N N) : @GraphBase N N :=
  fold_left (λ g e, (addEdge (e.1.1, e.1.2) 0%N e.2 g).2) es g.

(** A hook that declares the edge from node 0 to the node being added, at
    cost 1, and then reports failure. *)
Definition edge_then_fail (g : @GraphBase N N) : list (@edge_call N) * bool :=
  ([((0%N, (graph_size g - 1)%N), 7%N, 1)], false).

(** The spec's four-node scenario: 0→1 (1), 1→2 (1), 0→2 (3), 2→3 (1). *)
Definition diamond : @GraphBase N N :=
  with_edges [(0%N, 1%N, 1); (1%N, 2%N, 1); (0%N, 2%N, 3); (2%N, 3%N, 1)] (isolated 4).

(** Two nodes joined by one edge whose cost is the largest double. *)
Definition huge_edge : @GraphBase N N :=
  with_edges [(0%N, 1%N, DBL_MAX)] (isolated 2).

(** Two nodes, and an edge from node 0 to an index that is no node. *)
Definition dangling : @GraphBase N N :=
  with_edges [(0%N, 1%N, 1); (0%N, 5%N, 1)] (isolated 2).

(** 0→1 (1), 1→2 (1), 0→2 (3), 2→3 (10), with an estimate that is exact at
    node 1 and zero elsewhere. *)
Definition detour : @GraphBase N N :=
  with_edges [(0%N, 1%N, 1); (1%N, 2%N, 1); (0%N, 2%N, 3); (2%N, 3%N, 10)] (isolated 4).

Definition detour_estimate (g : @GraphBase N N) (goal : N) : bool * Heuristic :=
  (true, <[0%N := 0]> (<[1%N := 11]> (<[2%N := 0]> (<[3%N := 0]> ∅)))).

(** The exact remaining cost to node 3 in [diamond]. *)
Definition diamond_estimate (g : @GraphBase N N) (goal : N) : bool * Heuristic :=
  (true, <[0%N := 3]> (<[1%N := 2]> (<[2%N := 1]> (<[3%N := 0]> ∅)))).

(** The estimate that is zero on every node. *)
Definition zero_estimate (g : @GraphBase N N) (goal : N) : bool * Heuristic :=
  (true, zero_heuristic (length (graph_ g))).


(** An estimate for the two nodes of [dangling], with goal node 1. *)
Definition dangling_estimate (g : @GraphBase N N) (goal : N) : bool * Heuristic :=
  (true, <[0%N := 0]> (<[1%N := - (1)]> ∅)).

(** 0→1 (2^53 + 2), 0→2 (2^53), 2→3 (1), 3→4 (1), 4→1 (1).  Every cost is a
    double; in double arithmetic 2^53 + 1 is 2^53, so the costs along
    0, 2, 3, 4, 1 add up to 2^53, and their exact sum is 2^53 + 3. *)
Definition plateau : @GraphBase N N :=
  with_edges [(0%N, 1%N, inject_Z (2 ^ 53 + 2)); (0%N, 2%N, inject_Z (2 ^ 53));
              (2%N, 3%N, 1); (3%N, 4%N, 1); (4%N, 1%N, 1)] (isolated 5).

(** The exact remaining cost to node 1 in [plateau]. *)
Definition plateau_estimate (g : @GraphBase N N) (goal : N) : bool * Heuristic :=
  (true, <[0%N := inject_Z (2 ^ 53 + 2)]>
           (<[1%N := 0]> (<[2%N := 3]> (<[3%N := 2]> (<[4%N := 1]> ∅))))).

(** One node with an edge to itself of cost 4194304, which is 4194304000
    milli-units. *)
Definition far_edge : @GraphBase N N :=
  with_edges [(0%N, 0%N, 4194304)] (isolated 1).

End Scenario.

(** * Properties *)

(** Splits an adjacency entry of a concrete graph into the entries of the
    row of its source. *)
Ltac edge_cases He :=
  let r := fresh "r" in
  let Hr := fresh "Hr" in
  let Hx := fresh "Hx" in
  destruct He as (r & Hr & Hx);
  vm_compute in Hr;
  first
    [ discriminate Hr
    | injection Hr as <-;
      apply elem_of_map_to_list, list_elem_of_In in Hx;
      vm_compute in Hx;
      repeat (destruct Hx as [Hx|Hx]; [injection Hx as <- <-|]);
      try contradiction ].

Ltac concrete_edge :=
  eexists; split; vm_compute; reflexivity.

(** ** Double arithmetic *)

(** Powers of two. *)
Lemma pow2_pos k : 0 < 2 ^ k.
Proof. apply Qpower_0_lt. reflexivity. Qed.

Lemma pow2_add a b : 2 ^ (a + b) == 2 ^ a * 2 ^ b.
Proof. apply Qpower_plus. discriminate. Qed.

Lemma pow2_le a b : (a <= b)%Z → 2 ^ a <= 2 ^ b.
Proof. intros H. apply Qpower_le_compat_l; [exact H|]. discriminate. Qed.

Lemma pow2_lt_inv a b : 2 ^ a < 2 ^ b → (a < b)%Z.
Proof. intros H. apply Qpower_lt_compat_l_inv with 2; [exact H|reflexivity]. Qed.

Lemma pow2_Z n : (0 <= n)%Z → inject_Z (2 ^ n) == 2 ^ n.
Proof. intros H. apply (Zpower_Qpower 2 n H). Qed.

Lemma floor_log2_spec x : 0 < x → 2 ^ floor_log2 x <= x ∧ x < 2 ^ (floor_log2 x + 1).
Proof.
  intros Hx. unfold floor_log2. destruct (Qle_bool 1 x) eqn:E.
  - apply Qle_bool_iff in E.
    assert (1 <= Qfloor x)%Z as Hf.
    { change 1%Z with (Qfloor 1). apply Qfloor_resp_le. exact E. }
    destruct (Z.log2_spec (Qfloor x)) as [Hlo Hhi]; [lia|].
    pose proof (Z.log2_nonneg (Qfloor x)) as He.
    rewrite <- !pow2_Z by lia.
    pose proof (Qfloor_le x). pose proof (Qlt_floor x).
    split.
    + apply Qle_trans with (inject_Z (Qfloor x)); [|assumption].
      rewrite <- Zle_Qle. exact Hlo.
    + apply Qlt_le_trans with (inject_Z (Qfloor x + 1)); [assumption|].
      rewrite <- Zle_Qle. lia.
  - assert (x < 1) as Hx1.
    { apply Qnot_le_lt. intros H%Qle_bool_iff. congruence. }
    assert (x * / x == 1) as Hinv by (apply Qmult_inv_r; lra).
    assert (0 < / x) as Hy by (apply Qinv_lt_0_compat; exact Hx).
    assert (1 < / x) as Hy1 by nra.
    pose proof (Qle_ceiling (/ x)) as Hc. pose proof (Qceiling_lt (/ x)) as Hc'.
    assert (1 < Qceiling (/ x))%Z as Hm.
    { rewrite Zlt_Qlt. change (inject_Z 1) with 1. lra. }
    destruct (Z.log2_up_spec (Qceiling (/ x)) Hm) as [Hlo Hhi].
    pose proof (Z.log2_up_pos _ Hm) as HL.
    set (L := Z.log2_up (Qceiling (/ x))) in *.
    assert (inject_Z (Qceiling (/ x)) <= 2 ^ L) as Hhi'.
    { rewrite <- pow2_Z by lia. rewrite <- Zle_Qle. exact Hhi. }
    assert (2 ^ (L - 1) <= inject_Z (Qceiling (/ x) - 1)) as Hlo'.
    { rewrite <- pow2_Z by lia. rewrite <- Zle_Qle. unfold Z.pred in Hlo.
      replace (L + -1)%Z with (L - 1)%Z in Hlo by lia. lia. }
    assert (2 ^ (- L) * 2 ^ L == 1) as H1.
    { rewrite <- pow2_add. replace (- L + L)%Z with 0%Z by lia. reflexivity. }
    assert (2 ^ (- L + 1) * 2 ^ (L - 1) == 1) as H2.
    { rewrite <- pow2_add. replace (- L + 1 + (L - 1))%Z with 0%Z by lia. reflexivity. }
    pose proof (pow2_pos L). pose proof (pow2_pos (- L)).
    pose proof (pow2_pos (L - 1)). pose proof (pow2_pos (- L + 1)).
    split; nra.
Qed.

Lemma floor_log2_unique x e : 0 < x → 2 ^ e <= x → x < 2 ^ (e + 1) → floor_log2 x = e.
Proof.
  intros Hx Hlo Hhi. destruct (floor_log2_spec x Hx) as [Hlo' Hhi'].
  assert (floor_log2 x < e + 1)%Z by (apply pow2_lt_inv; lra).
  assert (e < floor_log2 x + 1)%Z by (apply pow2_lt_inv; lra).
  lia.
Qed.

Lemma floor_log2_comp x y : x == y → floor_log2 x = floor_log2 y.
Proof.
  intros H. unfold floor_log2.
  assert (Qle_bool 1 x = Qle_bool 1 y) as -> by (rewrite H; reflexivity).
  rewrite (Qfloor_comp x y H).
  rewrite (Qceiling_comp (/ x) (/ y)) by (rewrite H; reflexivity).
  reflexivity.
Qed.

Lemma round_half_even_comp x y : x == y → round_half_even x = round_half_even y.
Proof.
  intros H. unfold round_half_even. rewrite (Qfloor_comp x y H).
  assert (Qcompare (x - inject_Z (Qfloor y)) (1 # 2) = Qcompare (y - inject_Z (Qfloor y)) (1 # 2))
    as -> by (rewrite H; reflexivity).
  reflexivity.
Qed.

Lemma round_half_even_Z z : round_half_even (inject_Z z) = z.
Proof.
  unfold round_half_even. rewrite Qfloor_Z.
  assert (Qcompare (inject_Z z - inject_Z z) (1 # 2) = Lt) as ->; [|reflexivity].
  apply Qlt_alt. setoid_replace (inject_Z z - inject_Z z) with 0 using relation Qeq by ring. reflexivity.
Qed.

Lemma round_half_even_floor y : (Qfloor y <= round_half_even y <= Qfloor y + 1)%Z.
Proof.
  unfold round_half_even.
  destruct (Qcompare _ _); [destruct (Z.even _)|..]; lia.
Qed.

Lemma round_half_even_ge y a : inject_Z a <= y → (a <= round_half_even y)%Z.
Proof.
  intros H. pose proof (round_half_even_floor y).
  assert (a <= Qfloor y)%Z; [|lia].
  rewrite <- (Qfloor_Z a). apply Qfloor_resp_le. exact H.
Qed.

Lemma round_half_even_le y b : y <= inject_Z b → (round_half_even y <= b)%Z.
Proof.
  intros H. pose proof (round_half_even_floor y).
  assert (Qfloor y <= b)%Z as Hf.
  { rewrite <- (Qfloor_Z b). apply Qfloor_resp_le. exact H. }
  destruct (Z.eq_dec (Qfloor y) b) as [Heq|]; [|lia].
  assert (y == inject_Z b) as Hy.
  { pose proof (Qfloor_le y). rewrite Heq in *. lra. }
  rewrite (round_half_even_comp _ _ Hy), round_half_even_Z. lia.
Qed.


Lemma binade_comp x y : x == y → binade x = binade y.
Proof. intros H. unfold binade. rewrite (floor_log2_comp x y H). reflexivity. Qed.

Lemma round_magnitude_comp x y : x == y → round_magnitude x == round_magnitude y.
Proof.
  intros H. unfold round_magnitude.
  assert (Qle_bool (inject_Z (2 ^ 1024 - 2 ^ 970)) x = Qle_bool (inject_Z (2 ^ 1024 - 2 ^ 970)) y)
    as -> by (rewrite H; reflexivity).
  destruct (Qle_bool _ y); [reflexivity|].
  rewrite (binade_comp x y H).
  rewrite (round_half_even_comp (x / 2 ^ (binade y - 52)) (y / 2 ^ (binade y - 52)))
    by (rewrite H; reflexivity).
  reflexivity.
Qed.

Lemma round_magnitude_0 x : x == 0 → round_magnitude x == 0.
Proof. intros H. rewrite (round_magnitude_comp x 0 H). vm_compute. reflexivity. Qed.

Lemma pow2_div x k : x / 2 ^ k == x * 2 ^ (- k).
Proof. unfold Qdiv. rewrite Qpower_opp. reflexivity. Qed.

Lemma pow2_cancel a b : 2 ^ a * 2 ^ (- b) == 2 ^ (a - b).
Proof. rewrite <- pow2_add. reflexivity. Qed.

(** A value on the grid of a binade is a double: the rounding returns it. *)
Lemma round_magnitude_grid z e :
  (-1022 <= e <= 1023)%Z → (0 < z < 2 ^ 53)%Z → (e = -1022 ∨ 2 ^ 52 <= z)%Z ->
  round_magnitude (inject_Z z * 2 ^ (e - 52)) == inject_Z z * 2 ^ (e - 52).
Proof.
  intros He Hz Hnormal. set (r := inject_Z z * 2 ^ (e - 52)).
  pose proof (pow2_pos (e - 52)) as Hk.
  assert (0 < inject_Z z) as Hz0.
  { change 0 with (inject_Z 0). rewrite <- Zlt_Qlt. lia. }
  assert (inject_Z z <= inject_Z (2 ^ 53 - 1)) as Hz1 by (rewrite <- Zle_Qle; lia).
  assert (0 < r) as Hr0 by (unfold r; nra).
  assert (r < 2 ^ (e + 1)) as Hhi.
  { replace (e + 1)%Z with (53 + (e - 52))%Z by lia. rewrite pow2_add.
    unfold r. change (2 ^ 53) with (inject_Z (2 ^ 53 - 1) + 1). nra. }
  assert (binade r = e) as Hb.
  { unfold binade. destruct (floor_log2_spec r Hr0) as [Hlo' Hhi'].
    assert (floor_log2 r < e + 1)%Z by (apply pow2_lt_inv; lra).
    destruct Hnormal as [->|Hn]; [lia|].
    rewrite (floor_log2_unique r e Hr0); [lia| |exact Hhi].
    replace e with (52 + (e - 52))%Z at 1 by lia. rewrite pow2_add.
    assert (inject_Z (2 ^ 52) <= inject_Z z) as Hn' by (rewrite <- Zle_Qle; exact Hn).
    unfold r. change (2 ^ 52) with (inject_Z (2 ^ 52)). nra. }
  assert (r < inject_Z (2 ^ 1024 - 2 ^ 970)) as Hov.
  { apply Qle_lt_trans with (inject_Z (2 ^ 53 - 1) * 2 ^ 971); [|reflexivity].
    pose proof (pow2_le (e - 52) 971 ltac:(lia)). unfold r.
    assert (0 <= inject_Z (2 ^ 53 - 1)) by (vm_compute; discriminate).
    nra. }
  unfold round_magnitude.
  assert (Qle_bool (inject_Z (2 ^ 1024 - 2 ^ 970)) r = false) as ->.
  { destruct (Qle_bool _ r) eqn:E; [|reflexivity]. apply Qle_bool_iff in E. lra. }
  rewrite Hb.
  rewrite (round_half_even_comp (r / 2 ^ (e - 52)) (inject_Z z)), round_half_even_Z;
    [reflexivity|].
  unfold r. field. lra.
Qed.

Lemma round_magnitude_fixed z e :
  (-1022 <= e <= 1023)%Z → (0 <= z <= 2 ^ 53)%Z → (e = -1022 ∨ 2 ^ 52 <= z)%Z ->
  round_magnitude (inject_Z z * 2 ^ (e - 52)) == inject_Z z * 2 ^ (e - 52).
Proof.
  intros He Hz Hnormal.
  destruct (Z.eq_dec z 0%Z) as [->|Hz0].
  { rewrite round_magnitude_0; ring. }
  destruct (Z.eq_dec z (2 ^ 53)%Z) as [->|Hz1].
  2:{ apply round_magnitude_grid; [exact He|lia|exact Hnormal]. }
  assert (inject_Z (2 ^ 53) * 2 ^ (e - 52) == inject_Z (2 ^ 52) * 2 ^ (e + 1 - 52)) as Hup.
  { replace (e + 1 - 52)%Z with (1 + (e - 52))%Z by lia. rewrite pow2_add.
    change (2 ^ 1) with 2. change (inject_Z (2 ^ 53)) with (2 * inject_Z (2 ^ 52)). ring. }
  destruct (Z.eq_dec e 1023%Z) as [->|He1].
  - vm_compute. reflexivity.
  - rewrite (round_magnitude_comp _ _ Hup), Hup.
    apply round_magnitude_grid; [lia|split; [reflexivity|reflexivity]|right; reflexivity].
Qed.

Lemma round_magnitude_shape x :
  0 <= x ->
  round_magnitude x = DBL_INF ∨
  exists z e, (-1022 <= e <= 1023)%Z ∧ (0 <= z <= 2 ^ 53)%Z ∧ (e = -1022 ∨ 2 ^ 52 <= z)%Z ∧
    round_magnitude x == inject_Z z * 2 ^ (e - 52).
Proof.
  intros Hx.
  destruct (Qeq_dec x 0) as [H0|H0].
  { right. exists 0%Z, (-1022)%Z. split; [lia|]. split; [lia|]. split; [left; reflexivity|].
    rewrite (round_magnitude_0 x H0). reflexivity. }
  unfold round_magnitude.
  destruct (Qle_bool _ x) eqn:Hov; [left; reflexivity|right].
  assert (x < inject_Z (2 ^ 1024 - 2 ^ 970)) as Hov'.
  { apply Qnot_le_lt. intros H%Qle_bool_iff. congruence. }
  exists (round_half_even (x / 2 ^ (binade x - 52))), (binade x).
  set (e := binade x). pose proof (pow2_pos (- (e - 52))) as Hk.
  assert (0 < x) as Hpos by lra.
  destruct (floor_log2_spec x Hpos) as [Hlo Hhi].
  assert (floor_log2 x <= e)%Z as Hfe by apply Z.le_max_r.
  assert (-1022 <= e)%Z as Hemin by apply Z.le_max_l.
  assert (floor_log2 x < 1024)%Z as Hfmax.
  { apply pow2_lt_inv. apply Qle_lt_trans with x; [exact Hlo|].
    apply Qlt_trans with (inject_Z (2 ^ 1024 - 2 ^ 970)); [exact Hov'|reflexivity]. }
  assert (e <= 1023)%Z as Hemax by (unfold e, binade; lia).
  assert (x < 2 ^ (e + 1)) as Hhi'.
  { apply Qlt_le_trans with (2 ^ (floor_log2 x + 1)); [exact Hhi|]. apply pow2_le. lia. }
  split; [lia|]. split; [|split; [|reflexivity]].
  - split.
    + apply round_half_even_ge. rewrite pow2_div. change (inject_Z 0) with 0. nra.
    + apply round_half_even_le. rewrite pow2_div.
      pose proof (pow2_cancel (e + 1) (e - 52)) as Hc.
      replace (e + 1 - (e - 52))%Z with 53%Z in Hc by lia.
      change (inject_Z (2 ^ 53)) with (2 ^ 53). nra.
  - destruct (Z.eq_dec e (-1022)%Z) as [|Hne]; [left; assumption|right].
    assert (e = floor_log2 x) as Hef by (unfold e, binade in *; lia).
    apply round_half_even_ge. rewrite pow2_div.
    pose proof (pow2_cancel e (e - 52)) as Hc.
    replace (e - (e - 52))%Z with 52%Z in Hc by lia.
    rewrite <- Hef in Hlo. change (inject_Z (2 ^ 52)) with (2 ^ 52). nra.
Qed.

Lemma round_magnitude_nonneg x : 0 <= x → 0 <= round_magnitude x.
Proof.
  intros Hx. destruct (round_magnitude_shape x Hx) as [->|(z & e & _ & Hz & _ & ->)].
  - vm_compute. discriminate.
  - pose proof (pow2_pos (e - 52)).
    assert (0 <= inject_Z z) by (change 0 with (inject_Z 0); rewrite <- Zle_Qle; lia).
    nra.
Qed.

Lemma round_magnitude_idem x :
  0 <= x → round_magnitude (round_magnitude x) == round_magnitude x.
Proof.
  intros Hx. destruct (round_magnitude_shape x Hx) as [->|(z & e & He & Hz & Hn & Heq)].
  - vm_compute. reflexivity.
  - rewrite (round_magnitude_comp _ _ Heq), Heq. apply round_magnitude_fixed; assumption.
Qed.

Lemma round64_comp x y : x == y → round64 x = round64 y.
Proof. intros H. unfold round64. rewrite (Qred_complete x y H). reflexivity. Qed.

Lemma round64_fixed m : 0 <= m → round_magnitude m == m → round64 m == m ∧ round64 (- m) == - m.
Proof.
  intros Hm Hfix. unfold round64. cbv zeta. split.
  - assert (Qle_bool 0 (Qred m) = true) as ->.
    { apply Qle_bool_iff. rewrite Qred_correct. exact Hm. }
    rewrite (round_magnitude_comp _ _ (Qred_correct _)). exact Hfix.
  - destruct (Qle_bool 0 (Qred (- m))) eqn:E.
    + apply Qle_bool_iff in E. rewrite Qred_correct in E.
      rewrite round_magnitude_0 by (rewrite Qred_correct; lra). lra.
    + rewrite (round_magnitude_comp (- Qred (- m)) m) by (rewrite Qred_correct; ring).
      rewrite Hfix. reflexivity.
Qed.

Lemma round64_idem x : round64 (round64 x) == round64 x.
Proof.
  unfold round64 at 2 3. cbv zeta. destruct (Qle_bool 0 (Qred x)) eqn:E.
  - apply Qle_bool_iff in E.
    exact (proj1 (round64_fixed (round_magnitude (Qred x))
                    (round_magnitude_nonneg _ E) (round_magnitude_idem _ E))).
  - assert (0 <= - Qred x) as Hx.
    { assert (Qred x < 0); [|lra]. apply Qnot_le_lt. intros H%Qle_bool_iff. congruence. }
    exact (proj2 (round64_fixed (round_magnitude (- Qred x))
                    (round_magnitude_nonneg _ Hx) (round_magnitude_idem _ Hx))).
Qed.

Lemma round_magnitude_bounded x : 0 <= x → round_magnitude x <= DBL_INF.
Proof.
  intros Hx. destruct (round_magnitude_shape x Hx) as [->|(z & e & He & Hz & _ & ->)].
  - apply Qle_refl.
  - apply Qle_trans with (inject_Z (2 ^ 53) * 2 ^ 971); [|vm_compute; discriminate].
    pose proof (pow2_pos (e - 52)). pose proof (pow2_le (e - 52) 971 ltac:(lia)).
    assert (0 <= inject_Z z) by (change 0 with (inject_Z 0); rewrite <- Zle_Qle; lia).
    assert (inject_Z z <= inject_Z (2 ^ 53)) by (rewrite <- Zle_Qle; lia).
    nra.
Qed.

Lemma round64_bounded x : - DBL_INF <= round64 x ∧ round64 x <= DBL_INF.
Proof.
  assert (0 < DBL_INF) as Hinf by reflexivity.
  unfold round64. cbv zeta. destruct (Qle_bool 0 (Qred x)) eqn:E.
  - apply Qle_bool_iff in E.
    pose proof (round_magnitude_nonneg _ E). pose proof (round_magnitude_bounded _ E).
    split; lra.
  - assert (0 <= - Qred x) as Hx.
    { assert (Qred x < 0); [|lra]. apply Qnot_le_lt. intros H%Qle_bool_iff. congruence. }
    pose proof (round_magnitude_nonneg _ Hx). pose proof (round_magnitude_bounded _ Hx).
    split; lra.
Qed.

Lemma dadd_comp a a' b b' : a == a' → b == b' → dadd a b = dadd a' b'.
Proof.
  intros Ha Hb. unfold dadd.
  assert (Qle_bool DBL_INF a = Qle_bool DBL_INF a') as -> by (rewrite Ha; reflexivity).
  assert (Qle_bool DBL_INF b = Qle_bool DBL_INF b') as -> by (rewrite Hb; reflexivity).
  assert (Qle_bool a (- DBL_INF) = Qle_bool a' (- DBL_INF)) as -> by (rewrite Ha; reflexivity).
  assert (Qle_bool b (- DBL_INF) = Qle_bool b' (- DBL_INF)) as -> by (rewrite Hb; reflexivity).
  rewrite (round64_comp (a + b) (a' + b')) by (rewrite Ha, Hb; reflexivity).
  reflexivity.
Qed.

Lemma dadd_comm a b : dadd a b = dadd b a.
Proof.
  unfold dadd. rewrite (orb_comm (Qle_bool DBL_INF a)), (orb_comm (Qle_bool a (- DBL_INF))).
  rewrite (round64_comp (a + b) (b + a)) by ring. reflexivity.
Qed.

(** A sum of doubles is a double, and adding 0.0 to a double returns it. *)
Lemma dadd_double a b : is_double (dadd a b).
Proof.
  unfold is_double, dadd.
  destruct (_ || _); [vm_compute; reflexivity|].
  destruct (_ || _); [vm_compute; reflexivity|].
  apply round64_idem.
Qed.

Lemma dadd_0_r x b : is_double x → b == 0 → dadd x b == x.
Proof.
  unfold is_double. intros Hx Hb. destruct (round64_bounded x) as [Hlo Hhi].
  assert (0 < DBL_INF) as Hinf by reflexivity.
  unfold dadd.
  assert (Qle_bool DBL_INF b = false) as ->.
  { destruct (Qle_bool DBL_INF b) eqn:E; [|done]. apply Qle_bool_iff in E. lra. }
  assert (Qle_bool b (- DBL_INF) = false) as ->.
  { destruct (Qle_bool b (- DBL_INF)) eqn:E; [|done]. apply Qle_bool_iff in E. lra. }
  rewrite !orb_false_r.
  destruct (Qle_bool DBL_INF x) eqn:E1; [apply Qle_bool_iff in E1; lra|].
  destruct (Qle_bool x (- DBL_INF)) eqn:E2; [apply Qle_bool_iff in E2; lra|].
  rewrite (round64_comp (x + b) x) by lra. exact Hx.
Qed.

Lemma dmul_comp a a' b b' : a == a' → b == b' → dmul a b = dmul a' b'.
Proof. intros Ha Hb. apply round64_comp. rewrite Ha, Hb. reflexivity. Qed.

(** Known values of binary64 arithmetic: ties go to the even neighbour, the
    decimal 0.1 is the double 3602879701896397 / 2^55, 0.1 + 0.2 is the
    double above 0.3, half a unit in the last place above [DBL_MAX]
    overflows, and half the least subnormal underflows to zero. *)
Lemma round64_examples :
  round64 (inject_Z (2 ^ 53 + 1)) == inject_Z (2 ^ 53) ∧
  round64 (inject_Z (2 ^ 53 + 3)) == inject_Z (2 ^ 53 + 4) ∧
  round64 (1 + (3 # 2 ^ 54)) == 1 + (1 # 2 ^ 52) ∧
  round64 (1 # 10) == 3602879701896397 # 2 ^ 55 ∧
  dadd (round64 (1 # 10)) (round64 (2 # 10)) == 5404319552844596 # 2 ^ 54 ∧
  dmul (round64 (1 # 10)) 1000 == 100 ∧
  round64 DBL_MAX == DBL_MAX ∧
  round64 (DBL_MAX + inject_Z (2 ^ 970) - 1) == DBL_MAX ∧
  round64 (DBL_MAX + inject_Z (2 ^ 970)) == DBL_INF ∧
  dadd DBL_MAX DBL_MAX == DBL_INF ∧
  round64 (1 # 2 ^ 1075) == 0 ∧
  round64 (3 # 2 ^ 1075) == 2 # 2 ^ 1074 ∧
  round64 (- (1 # 3)) == - (6004799503160661 # 2 ^ 54).
Proof. repeat split; vm_compute; reflexivity. Qed.

Section Properties.

Context {NodeProperty EdgeProperty : Type}.

Implicit Types g : @GraphBase NodeProperty EdgeProperty.

(** ** Existence predicates *)

Lemma nodeExists_lt g i : nodeExists g i = true ↔ (N.to_nat i < length (graph_ g))%nat.
Proof. unfold nodeExists, graph_size. rewrite N.ltb_lt. lia. Qed.

Lemma nodeExists_lookup g i : nodeExists g i = true ↔ is_Some (graph_ g !! N.to_nat i).
Proof. rewrite nodeExists_lt. symmetry. apply lookup_lt_is_Some. Qed.

Lemma edgeExists_lookup g (e : EdgeId) :
  edgeExists g e = true ↔
  ∃ neighbors c, graph_ g !! N.to_nat e.1 = Some neighbors ∧ neighbors !! e.2 = Some c.
Proof.
  unfold edgeExists. split.
  - intros [Hn He]%andb_prop. destruct (graph_ g !! N.to_nat e.1) as [r|]; [|done].
    apply bool_decide_eq_true in He as [c Hc]. eauto.
  - intros (r & c & Hr & Hc). apply andb_true_intro. split.
    + apply nodeExists_lookup. eauto.
    + rewrite Hr. apply bool_decide_eq_true. eauto.
Qed.

Lemma getEdgeCost_lookup g (e : EdgeId) neighbors c :
  graph_ g !! N.to_nat e.1 = Some neighbors → neighbors !! e.2 = Some c →
  getEdgeCost g e = (true, c).
Proof.
  intros Hr Hc. unfold getEdgeCost.
  assert (edgeExists g e = true) as -> by (apply edgeExists_lookup; eauto).
  rewrite Hr. unfold at0. by rewrite Hc.
Qed.

Lemma getEdgeCost_absent g (e : EdgeId) : edgeExists g e = false → getEdgeCost g e = (false, - (1)).
Proof. intros He. unfold getEdgeCost. by rewrite He. Qed.

(** ** addEdge *)

Lemma addEdge_status (e : EdgeId) (p : EdgeProperty) c g :
  (addEdge e p c g).1 = true ↔ 0 <= c ∧ nodeExists g e.1 = true.
Proof.
  unfold addEdge. destruct (Qle_bool 0 c) eqn:Hc; simpl.
  - apply Qle_bool_iff in Hc. destruct (nodeExists g e.1); simpl; intuition congruence.
  - split; [done|]. intros [H%Qle_bool_iff _]. congruence.
Qed.

Lemma addEdge_failure (e : EdgeId) (p : EdgeProperty) c g :
  (addEdge e p c g).1 = false → (addEdge e p c g).2 = g.
Proof. unfold addEdge. by destruct (Qle_bool 0 c && nodeExists g e.1). Qed.

Lemma addEdge_negative (e : EdgeId) (p : EdgeProperty) c g :
  c < 0 → addEdge e p c g = (false, g).
Proof.
  intros Hc. unfold addEdge. destruct (Qle_bool 0 c) eqn:H; [|done].
  apply Qle_bool_iff in H. lra.
Qed.

Lemma addEdge_graph (e : EdgeId) (p : EdgeProperty) c g :
  (addEdge e p c g).1 = true →
  graph_ (addEdge e p c g).2 = alter (insert e.2 c) (N.to_nat e.1) (graph_ g).
Proof. unfold addEdge. by destruct (Qle_bool 0 c && nodeExists g e.1). Qed.

Lemma addEdge_length (e : EdgeId) (p : EdgeProperty) c g :
  length (graph_ (addEdge e p c g).2) = length (graph_ g).
Proof.
  unfold addEdge. destruct (Qle_bool 0 c && nodeExists g e.1); [|done].
  simpl. apply length_alter.
Qed.

Lemma addEdge_records_cost (e : EdgeId) (p : EdgeProperty) c g :
  (addEdge e p c g).1 = true → getEdgeCost (addEdge e p c g).2 e = (true, c).
Proof.
  intros Hok. pose proof Hok as [_ Hn]%addEdge_status.
  apply nodeExists_lookup in Hn as [r Hr].
  apply getEdgeCost_lookup with (neighbors := <[e.2 := c]> r).
  - rewrite addEdge_graph by done. rewrite list_lookup_alter_eq, Hr. done.
  - apply lookup_insert_eq.
Qed.

Lemma addEdge_property (e : EdgeId) (p : EdgeProperty) c g :
  (addEdge e p c g).1 = true →
  edge_properties_ (addEdge e p c g).2 !! e = Some (default p (edge_properties_ g !! e)).
Proof.
  unfold addEdge. destruct (Qle_bool 0 c && nodeExists g e.1); [|done].
  intros _. simpl. unfold map_emplace.
  destruct (edge_properties_ g !! e) as [q|] eqn:Hq; simpl; [done|].
  apply lookup_insert_eq.
Qed.

(** ** Non-negative costs *)

Lemma addEdge_costs_nonneg (e : EdgeId) (p : EdgeProperty) c g :
  costs_nonneg g → costs_nonneg (addEdge e p c g).2.
Proof.
  intros Hg. destruct (addEdge e p c g).1 eqn:Hok.
  - pose proof Hok as [Hc _]%addEdge_status.
    intros i r j c' Hr Hj. rewrite addEdge_graph in Hr by done.
    rewrite list_lookup_alter in Hr. case_decide as Hi.
    + subst i. destruct (graph_ g !! N.to_nat e.1) as [r0|] eqn:Hr0; simpl in Hr; [|done].
      injection Hr as <-.
      rewrite lookup_insert in Hj. case_decide; simplify_eq; eauto.
    + eauto.
  - by rewrite addEdge_failure.
Qed.

Lemma run_calls_costs_nonneg (cs : list (@edge_call EdgeProperty)) g :
  costs_nonneg g → costs_nonneg (fold_left run_call cs g).
Proof.
  revert g. induction cs as [|c cs IH]; intros g Hg; [done|].
  simpl. apply IH. by apply addEdge_costs_nonneg.
Qed.

Lemma run_calls_length (cs : list (@edge_call EdgeProperty)) g :
  length (graph_ (fold_left run_call cs g)) = length (graph_ g).
Proof.
  revert g. induction cs as [|c cs IH]; intros g; [done|].
  simpl. rewrite IH. apply addEdge_length.
Qed.

Lemma run_calls_node_properties (cs : list (@edge_call EdgeProperty)) g :
  node_properties_ (fold_left run_call cs g) = node_properties_ g.
Proof.
  revert g. induction cs as [|c cs IH]; intros g; [done|].
  simpl. rewrite IH. unfold run_call, addEdge.
  by destruct (Qle_bool 0 c.2 && nodeExists g c.1.1.1).
Qed.

Lemma run_calls_markers (cs : list (@edge_call EdgeProperty)) g :
  start_idx_ (fold_left run_call cs g) = start_idx_ g ∧
  goal_idx_ (fold_left run_call cs g) = goal_idx_ g.
Proof.
  revert g. induction cs as [|c cs IH]; intros g; [done|].
  simpl. destruct (IH (run_call g c)) as [-> ->]. unfold run_call, addEdge.
  by destruct (Qle_bool 0 c.2 && nodeExists g c.1.1.1).
Qed.

Lemma lookup_removelast {A} (l : list A) i x : removelast l !! i = Some x → l !! i = Some x.
Proof.
  rewrite removelast_firstn_len. intros H.
  apply lookup_take_Some in H. tauto.
Qed.

Section Hooks.

Variable addEdges : @GraphBase NodeProperty EdgeProperty → list (@edge_call EdgeProperty) * bool.
Variable calculateHeuristic : @GraphBase NodeProperty EdgeProperty → N → bool * Heuristic.

Lemma addNode_costs_nonneg (p : NodeProperty) g :
  costs_nonneg g → costs_nonneg (addNode addEdges p g).2.
Proof.
  intros Hg. unfold addNode, run_hook.
  set (g2 := set_node_properties _ _).
  assert (costs_nonneg g2) as H2.
  { intros i r j c Hr Hj. simpl in Hr.
    apply lookup_app_Some in Hr as [Hr|[_ Hr]]; [by eauto|].
    apply list_lookup_singleton_Some in Hr as [_ <-]. by rewrite lookup_empty in Hj. }
  pose proof (run_calls_costs_nonneg (addEdges g2).1 g2 H2) as H3.
  destruct (addEdges g2).2; simpl; [done|].
  intros i r j c Hr Hj. simpl in Hr. apply lookup_removelast in Hr. eauto.
Qed.

(** C8.  Every operation keeps every stored adjacency cost non-negative,
    and [addEdge] with a negative cost returns false and leaves the graph as
    it was. *)
Theorem costs_nonneg_invariant (op : @operation NodeProperty EdgeProperty) g :
  costs_nonneg g →
  costs_nonneg (perform addEdges op g) ∧
  ∀ (e : EdgeId) (p : EdgeProperty) c, c < 0 → addEdge e p c g = (false, g).
Proof.
  intros Hg. split; [|intros; by apply addEdge_negative].
  destruct op; simpl.
  - by apply addNode_costs_nonneg.
  - unfold addStartNode. by apply addNode_costs_nonneg.
  - unfold addGoalNode. by apply addNode_costs_nonneg.
  - by apply addEdge_costs_nonneg.
  - intros i r j c Hr. simpl in Hr. by rewrite lookup_nil in Hr.
  - intros i r j c Hr Hj. simpl in Hr.
    rewrite list_lookup_fmap in Hr.
    destruct (graph_ g !! i); simplify_eq/=; try by rewrite lookup_empty in Hj.
  - done.
Qed.

(** ** clearEdges *)

(** C7.  [clearEdges] keeps [nodeExists], [nodePropertyExists] and both
    markers, and leaves no edge. *)
Theorem clearEdges_frame g :
  (∀ i, nodeExists (clearEdges g) i = nodeExists g i) ∧
  (∀ i, nodePropertyExists (clearEdges g) i = nodePropertyExists g i) ∧
  start_idx_ (clearEdges g) = start_idx_ g ∧
  goal_idx_ (clearEdges g) = goal_idx_ g ∧
  (∀ e : EdgeId, edgeExists (clearEdges g) e = false).
Proof.
  repeat split; try done.
  - intros i. unfold nodeExists, graph_size, clearEdges. simpl.
    by rewrite length_map.
  - intros e. unfold edgeExists, clearEdges. simpl.
    rewrite list_lookup_fmap.
    destruct (graph_ g !! N.to_nat e.1); simpl.
    + rewrite lookup_empty. rewrite bool_decide_eq_false_2; [apply andb_false_r|].
      by intros [? ?].
    + apply andb_false_r.
Qed.

(** ** Export *)

Lemma getEdgeCost_status g (e : EdgeId) : (getEdgeCost g e).1 = edgeExists g e.
Proof.
  destruct (edgeExists g e) eqn:He.
  - pose proof He as (r & c & Hr & Hc)%edgeExists_lookup.
    by rewrite (getEdgeCost_lookup g e r c).
  - by rewrite getEdgeCost_absent.
Qed.

Lemma round_half_away_nearest p : nearest_away p (round_half_away p).
Proof.
  unfold nearest_away, round_half_away. destruct (Qle_bool 0 p) eqn:E.
  - apply Qle_bool_iff in E. left.
    pose proof (Qfloor_le (p + (1 # 2))) as Hlo. pose proof (Qlt_floor (p + (1 # 2))) as Hhi.
    rewrite inject_Z_plus in Hhi. change (inject_Z 1) with 1 in Hhi.
    split; [exact E|]. split; lra.
  - right. assert (p < 0) as Hp.
    { apply Qnot_le_lt. intros H%Qle_bool_iff. congruence. }
    pose proof (Qfloor_le (- p + (1 # 2))) as Hlo.
    pose proof (Qlt_floor (- p + (1 # 2))) as Hhi.
    rewrite inject_Z_plus in Hhi. change (inject_Z 1) with 1 in Hhi.
    rewrite inject_Z_opp. split; [exact Hp|]. split; lra.
Qed.

Lemma doubleToMilliInt_Some d z :
  doubleToMilliInt d = Some z →
  (INT_MIN ≤ z ≤ INT_MAX)%Z ∧ nearest_away (dmul d kToMilliIntFactor) z.
Proof.
  unfold doubleToMilliInt.
  destruct (_ && _) eqn:E; [|done]. intros [= <-].
  apply andb_prop in E as [Hlo%Z.leb_le Hhi%Z.leb_le].
  split; [done|]. apply round_half_away_nearest.
Qed.

Lemma doubleToMilliInt_fits d :
  fits_int (dmul d kToMilliIntFactor) → is_Some (doubleToMilliInt d).
Proof.
  intros [Hlo Hhi]. unfold doubleToMilliInt.
  set (p := dmul d kToMilliIntFactor) in *.
  destruct (round_half_away_nearest p) as [(_ & H1 & H2)|(_ & H1 & H2)].
  - assert (inject_Z INT_MIN < inject_Z (round_half_away p) + 1) as Ha by lra.
    assert (inject_Z (round_half_away p) < inject_Z INT_MAX + 1) as Hb by lra.
    change 1 with (inject_Z 1) in Ha, Hb. rewrite <- inject_Z_plus, <- Zlt_Qlt in Ha, Hb.
    assert ((INT_MIN <=? round_half_away p)%Z && (round_half_away p <=? INT_MAX)%Z = true) as ->;
      [|eauto].
    apply andb_true_intro. split; apply Z.leb_le; lia.
  - assert (inject_Z INT_MIN < inject_Z (round_half_away p) + 1) as Ha by lra.
    assert (inject_Z (round_half_away p) < inject_Z INT_MAX + 1) as Hb by lra.
    change 1 with (inject_Z 1) in Ha, Hb. rewrite <- inject_Z_plus, <- Zlt_Qlt in Ha, Hb.
    assert ((INT_MIN <=? round_half_away p)%Z && (round_half_away p <=? INT_MAX)%Z = true) as ->;
      [|eauto].
    apply andb_true_intro. split; apply Z.leb_le; lia.
Qed.

(** C6, as amended.  When the cost of every edge between two nodes, times
    1000, lies within half a unit of the range of [int], the exported matrix
    is N by N; cell (i, j) is an [int], the integer nearest to the edge cost
    times 1000 (halves away from zero) when the edge exists and [INT_MAX]
    when it does not. *)
Theorem getAdjacencyMatrix_cells g (i j : nat) :
  (∀ e : EdgeId, edgeExists g e = true → nodeExists g e.2 = true →
     fits_int (dmul (getEdgeCost g e).2 kToMilliIntFactor)) →
  (i < length (graph_ g))%nat → (j < length (graph_ g))%nat →
  ∃ m line cell,
    getAdjacencyMatrix g = Some m ∧ length m = length (graph_ g) ∧
    m !! i = Some line ∧ length line = length (graph_ g) ∧
    line !! j = Some cell ∧ (INT_MIN ≤ cell ≤ INT_MAX)%Z ∧
    let edge : EdgeId := (N.of_nat i, N.of_nat j) in
    (edgeExists g edge = true →
       nearest_away (dmul (getEdgeCost g edge).2 kToMilliIntFactor) cell) ∧
    (edgeExists g edge = false → cell = INT_MAX).
Proof.
  intros Hfits Hi Hj. unfold getAdjacencyMatrix.
  set (n := length (graph_ g)) in *.
  set (cell := λ i j : nat,
         let edge : EdgeId := (N.of_nat i, N.of_nat j) in
         if edgeExists g edge && (getEdgeCost g edge).1
         then doubleToMilliInt (getEdgeCost g edge).2
         else Some INT_MAX).
  assert (∀ i' j', (j' < n)%nat → is_Some (cell i' j')) as Hcell.
  { intros i' j' Hj'. unfold cell. simpl. rewrite getEdgeCost_status, andb_diag.
    destruct (edgeExists g (N.of_nat i', N.of_nat j')) eqn:He; [|eauto].
    apply doubleToMilliInt_fits, Hfits; [done|].
    apply nodeExists_lt. simpl. fold n. lia. }
  assert (∀ i', is_Some (mapM (cell i') (seq 0 n))) as Hline.
  { intros i'. apply mapM_is_Some, Forall_forall. intros j' Hj'%elem_of_seq.
    apply Hcell. lia. }
  destruct (mapM_is_Some_2 (λ i', mapM (cell i') (seq 0 n)) (seq 0 n)) as [m Hm].
  { apply Forall_forall. intros i' _. apply Hline. }
  pose proof (length_mapM _ _ _ Hm) as Hlen. rewrite length_seq in Hlen.
  apply mapM_Some_1 in Hm as Hrows.
  destruct (Forall2_lookup_l _ _ _ i i Hrows) as (line & Hmi & Hrow).
  { by apply lookup_seq_lt. }
  pose proof (length_mapM _ _ _ Hrow) as Hlenl. rewrite length_seq in Hlenl.
  apply mapM_Some_1 in Hrow.
  destruct (Forall2_lookup_l _ _ _ j j Hrow) as (c & Hlj & Hc).
  { by apply lookup_seq_lt. }
  exists m, line, c. split; [exact Hm|]. split; [done|]. split; [done|]. split; [done|].
  split; [done|]. unfold cell in Hc. simpl in Hc. simpl.
  rewrite getEdgeCost_status, andb_diag in Hc.
  destruct (edgeExists g (N.of_nat i, N.of_nat j)) eqn:He.
  - apply doubleToMilliInt_Some in Hc as [Hrange Hnear]. split; [done|]. split; done.
  - injection Hc as <-. split; [done|]. split; done.
Qed.

(** ** Search on unset markers, and the solution on failure *)

Lemma nodeExists_SIZE_MAX g : (graph_size g <= SIZE_MAX)%N → nodeExists g SIZE_MAX = false.
Proof. intros H. unfold nodeExists. apply N.ltb_ge. done. Qed.

(** C9.  With both markers at the unset sentinel the zero-argument searches
    return false before any loop is entered (no fuel is needed) and before
    any adjacency row is indexed.  A [std::vector]'s size is a [size_t], so
    the bound on [graph_size] holds of every graph object. *)
Theorem unset_markers_fail g (fuel : nat) (solution : Solution) :
  (graph_size g <= SIZE_MAX)%N →
  start_idx_ g = SIZE_MAX → goal_idx_ g = SIZE_MAX →
  solveDijkstra0 fuel g solution = Done (false, []) ∧
  solveAStar0 calculateHeuristic fuel g solution = Done (false, solution).
Proof.
  intros Hsz Hs Hg. unfold solveDijkstra0, solveAStar0, solveDijkstra, solveAStar.
  rewrite Hs, Hg, (nodeExists_SIZE_MAX g Hsz). done.
Qed.

(** C10.  [solveDijkstra] hands back an empty solution whenever it returns
    false; [solveAStar] hands back the solution it was given whenever it
    returns false. *)
Theorem failure_solution g (fuel : nat) (start goal : N) (solution solution' : Solution) :
  (solveDijkstra fuel g start goal solution = Done (false, solution') → solution' = []) ∧
  (solveAStar calculateHeuristic fuel g start goal solution = Done (false, solution') →
   solution' = solution).
Proof.
  split.
  - unfold solveDijkstra.
    destruct (negb (nodeExists g start) || negb (nodeExists g goal)); [congruence|].
    destruct (dijkstra_while _ _ _ _ _ _ _ _) as [[path|]| |]; congruence.
  - unfold solveAStar.
    destruct (negb (nodeExists g start) || negb (nodeExists g goal)); [congruence|].
    destruct (calculateHeuristic g goal) as [ok heuristic].
    destruct ok; simpl; [|congruence].
    destruct (heuristic !! start); [|congruence].
    destruct (astar_while _ _ _ _ _ _ _ _ _ _) as [[path|]| |]; congruence.
Qed.

(** What the rollback of [addNode] does restore: the node count, both
    markers, and the node properties when the index of the new node was
    free. *)
Lemma addNode_failure_nodes (p : NodeProperty) g :
  (addNode addEdges p g).1 = false →
  length (graph_ (addNode addEdges p g).2) = length (graph_ g) ∧
  start_idx_ (addNode addEdges p g).2 = start_idx_ g ∧
  goal_idx_ (addNode addEdges p g).2 = goal_idx_ g ∧
  (node_properties_ g !! graph_size g = None →
   node_properties_ (addNode addEdges p g).2 = node_properties_ g).
Proof.
  unfold addNode, run_hook. set (g2 := set_node_properties _ _).
  assert ((graph_size (set_graph (graph_ g ++ [∅]) g) - 1)%N = graph_size g) as Hidx.
  { unfold graph_size. simpl. rewrite length_app. simpl. lia. }
  destruct (addEdges g2).2 eqn:Hok; simpl; [done|]. intros _.
  pose proof (run_calls_length (addEdges g2).1 g2) as Hlen.
  pose proof (run_calls_node_properties (addEdges g2).1 g2) as Hnp.
  pose proof (run_calls_markers (addEdges g2).1 g2) as [Hs Hg].
  repeat split.
  - rewrite removelast_firstn_len, length_take, Hlen. subst g2. simpl.
    rewrite length_app. simpl. lia.
  - by rewrite Hs.
  - by rewrite Hg.
  - intros Hfresh. rewrite Hnp. subst g2. simpl. rewrite Hidx. unfold map_emplace.
    rewrite Hfresh. by apply delete_insert_id.
Qed.

(** After a failed [addStartNode] the start marker is the node count, which
    is no node; likewise for [addGoalNode]. *)
Lemma addStartNode_failure_marker (p : NodeProperty) g :
  (addStartNode addEdges p g).1 = false →
  start_idx_ (addStartNode addEdges p g).2 = graph_size g ∧
  nodeExists (addStartNode addEdges p g).2 (graph_size g) = false.
Proof.
  unfold addStartNode. intros Hfail.
  destruct (addNode_failure_nodes p (set_start_idx (graph_size g) g) Hfail)
    as (Hlen & Hs & _ & _).
  split; [by rewrite Hs|].
  unfold nodeExists, graph_size at 2. rewrite Hlen. simpl. apply N.ltb_irrefl.
Qed.

Lemma addGoalNode_failure_marker (p : NodeProperty) g :
  (addGoalNode addEdges p g).1 = false →
  goal_idx_ (addGoalNode addEdges p g).2 = graph_size g ∧
  nodeExists (addGoalNode addEdges p g).2 (graph_size g) = false.
Proof.
  unfold addGoalNode. intros Hfail.
  destruct (addNode_failure_nodes p (set_goal_idx (graph_size g) g) Hfail)
    as (Hlen & _ & Hg & _).
  split; [by rewrite Hg|].
  unfold nodeExists, graph_size at 2. rewrite Hlen. simpl. apply N.ltb_irrefl.
Qed.

End Hooks.

(** ** Containers of the search *)

Lemma at0_insert_eq (m : gmap N Q) k x : at0 (<[k := x]> m) k = x.
Proof. unfold at0. by rewrite lookup_insert_eq. Qed.

Lemma at0_insert_ne (m : gmap N Q) k j x : k ≠ j → at0 (<[k := x]> m) j = at0 m j.
Proof. intros. unfold at0. by rewrite lookup_insert_ne. Qed.

Lemma fill_max_S n : fill_max (S n) = <[N.of_nat n := DBL_MAX]> (fill_max n).
Proof. unfold fill_max. by rewrite seq_S, fold_left_app. Qed.

Lemma fill_max_lookup n v :
  fill_max n !! v = if decide (N.to_nat v < n)%nat then Some DBL_MAX else None.
Proof.
  induction n as [|n IH].
  - case_decide; [lia|]. done.
  - rewrite fill_max_S, lookup_insert, IH.
    repeat case_decide; try done; lia.
Qed.

Lemma zero_heuristic_S n : zero_heuristic (S n) = <[N.of_nat n := 0]> (zero_heuristic n).
Proof. unfold zero_heuristic. by rewrite seq_S, fold_left_app. Qed.

Lemma zero_heuristic_lookup n v :
  zero_heuristic n !! v = if decide (N.to_nat v < n)%nat then Some 0 else None.
Proof.
  induction n as [|n IH].
  - case_decide; [lia|]. done.
  - rewrite zero_heuristic_S, lookup_insert, IH.
    repeat case_decide; try done; lia.
Qed.

Lemma DBL_MAX_pos : 0 < DBL_MAX.
Proof. reflexivity. Qed.

Lemma Qltb_lt a b : Qltb a b = true ↔ a < b.
Proof.
  unfold Qltb. rewrite negb_true_iff. split.
  - intros H. apply Qnot_le_lt. intros Hle%Qle_bool_iff. congruence.
  - intros H. destruct (Qle_bool b a) eqn:E; [|done].
    apply Qle_bool_iff in E. lra.
Qed.

Lemma Qle_bool_false a b : Qle_bool a b = false ↔ b < a.
Proof.
  split.
  - intros H. apply Qnot_le_lt. intros Hle%Qle_bool_iff. congruence.
  - intros H. destruct (Qle_bool a b) eqn:E; [|done].
    apply Qle_bool_iff in E. lra.
Qed.

Lemma elem_of_set_order (s : gset N) x : x ∈ set_order s ↔ x ∈ s.
Proof. unfold set_order. by rewrite merge_sort_Permutation, elem_of_elements. Qed.

Lemma elem_of_map_order (m : gmap N Q) v w : (v, w) ∈ map_order m ↔ m !! v = Some w.
Proof. unfold map_order. by rewrite merge_sort_Permutation, elem_of_map_to_list. Qed.

Lemma set_order_nil (s : gset N) : set_order s = [] → s = ∅.
Proof.
  intros H. apply set_eq. intros x. rewrite <- elem_of_set_order, H.
  split; [by intros ?%elem_of_nil | by intros ?%not_elem_of_empty].
Qed.

(** [min_element] returns a member that no member is below. *)
Lemma min_element_fold (key : N → Q) (rest : list N) (first : N) :
  let m := fold_left (λ smallest it, if Qltb (key it) (key smallest) then it else smallest)
                     rest first in
  m ∈ first :: rest ∧ ∀ y, y ∈ first :: rest → key m <= key y.
Proof.
  revert first. induction rest as [|x rest IH]; intros first; simpl.
  - split; [left|]. intros y ->%list_elem_of_singleton. lra.
  - destruct (IH (if Qltb (key x) (key first) then x else first)) as [Hin Hmin].
    split.
    + apply elem_of_cons in Hin as [->|Hin].
      * destruct (Qltb (key x) (key first)); [right; left | left].
      * do 2 right. done.
    + intros y Hy.
      destruct (Qltb (key x) (key first)) eqn:E.
      * apply Qltb_lt in E.
        apply elem_of_cons in Hy as [->|Hy]; [|by apply Hmin].
        specialize (Hmin x (list_elem_of_here _ _)). lra.
      * assert (key first <= key x) as E'.
        { destruct (Qlt_le_dec (key x) (key first)) as [Hlt|]; [|done].
          apply Qltb_lt in Hlt. congruence. }
        apply elem_of_cons in Hy as [->|Hy]; [by apply Hmin; left|].
        apply elem_of_cons in Hy as [->|Hy]; [|by apply Hmin; right].
        specialize (Hmin first (list_elem_of_here _ _)). lra.
Qed.

Lemma min_element_spec (key : N → Q) (s : list N) (m : N) :
  min_element (λ i j, Qltb (key i) (key j)) s = Some m →
  m ∈ s ∧ ∀ y, y ∈ s → key m <= key y.
Proof.
  destruct s as [|first rest]; [done|]. simpl. intros [= <-].
  apply min_element_fold.
Qed.

Lemma min_element_None (comp : N → N → bool) (s : list N) :
  min_element comp s = None → s = [].
Proof. by destruct s. Qed.

Lemma min_element_ext (comp1 comp2 : N → N → bool) (s : list N) :
  (∀ i j, comp1 i j = comp2 i j) → min_element comp1 s = min_element comp2 s.
Proof.
  intros Hext. destruct s as [|first rest]; [done|]. simpl. f_equal.
  revert first. induction rest as [|x rest IH]; intros first; [done|].
  simpl. rewrite Hext. apply IH.
Qed.

(** ** Predecessor chains *)

Lemma trail_head (cf : gmap N N) v l : trail cf v l → head l = Some v.
Proof. by destruct 1. Qed.

Lemma trail_insert (cf : gmap N N) v l x u :
  trail cf v l → x ∉ l → trail (<[x := u]> cf) v l.
Proof.
  induction 1 as [v Hv|v p l Hv Hl IH]; intros Hx.
  - apply trail_end. rewrite lookup_insert_ne; [done|]. set_solver.
  - apply trail_step with p.
    + rewrite lookup_insert_ne; [done|]. set_solver.
    + apply IH. set_solver.
Qed.

Lemma reconstruct_loop_trail (cf : gmap N N) v l :
  trail cf v l → ∀ fuel acc, (length l ≤ fuel)%nat →
  reconstruct_loop fuel cf v (acc ++ [v]) = Done (acc ++ l).
Proof.
  induction 1 as [v Hv|v p l Hv Hl IH]; intros fuel acc Hfuel.
  - destruct fuel as [|fuel]; [simpl in Hfuel; lia|]. simpl. by rewrite Hv.
  - destruct fuel as [|fuel]; [simpl in Hfuel; lia|]. simpl. rewrite Hv.
    rewrite IH by (simpl in Hfuel; lia). by rewrite <- app_assoc.
Qed.

Lemma reconstructSolution_trail (cf : gmap N N) v l fuel :
  trail cf v l → (length l ≤ fuel)%nat →
  reconstructSolution fuel cf v = Done (reverse l).
Proof.
  intros Hl Hfuel. unfold reconstructSolution.
  pose proof (reconstruct_loop_trail cf v l Hl fuel [] Hfuel) as H.
  simpl in H. by rewrite H.
Qed.

(** ** Edges, paths and solutions *)

Lemma edge_source g u v w : edge g u v w → nodeExists g u = true.
Proof. intros (r & Hr & _). apply nodeExists_lookup. eauto. Qed.

Lemma edge_target g u v w : targets_exist g → edge g u v w → nodeExists g v = true.
Proof. intros Hg (r & Hr & Hv). eauto. Qed.

Lemma edge_nonneg g u v w : costs_nonneg g → edge g u v w → 0 <= w.
Proof. intros Hg (r & Hr & Hv). eauto. Qed.

Lemma row_edges g current (neighbors : gmap N Q) :
  graph_ g !! N.to_nat current = Some neighbors →
  ∀ n, n ∈ map_order neighbors → edge g current n.1 n.2.
Proof. intros Hrow [v w] Hn%elem_of_map_order. by exists neighbors. Qed.

Lemma edge_getEdgeCost g u v w : edge g u v w → getEdgeCost g (u, v) = (true, w).
Proof. intros (r & Hr & Hv). by apply getEdgeCost_lookup with r. Qed.

Lemma well_formed_spec g : well_formed g = true → targets_exist g ∧ costs_nonneg g.
Proof.
  unfold well_formed. rewrite forallb_forall. intros H.
  assert (∀ i r j c, graph_ g !! i = Some r → r !! j = Some c →
            nodeExists g j = true ∧ 0 <= c) as H'.
  { intros i r j c Hr Hc.
    specialize (H r). rewrite forallb_forall in H.
    assert (In r (graph_ g)) as Hin by (apply list_elem_of_In; by eapply list_elem_of_lookup_2).
    specialize (H Hin (j, c)).
    assert (In (j, c) (map_to_list r)) as Hin'
      by (apply list_elem_of_In; by apply elem_of_map_to_list).
    apply H in Hin'. apply andb_prop in Hin' as [? ?%Qle_bool_iff]. done. }
  split; intros i r j c Hr Hc; by destruct (H' i r j c Hr Hc).
Qed.

Lemma path_nonneg g s v c : costs_nonneg g → path g s v c → 0 <= c.
Proof.
  intros Hg. induction 1 as [|v x c w _ IH He]; [lra|].
  pose proof (edge_nonneg _ _ _ _ Hg He). lra.
Qed.

Lemma solution_cost_cons g u v rest :
  solution_cost g (u :: v :: rest) =
  if (getEdgeCost g (u, v)).1
  then (λ c, (getEdgeCost g (u, v)).2 + c) <$> solution_cost g (v :: rest)
  else None.
Proof. reflexivity. Qed.

Lemma solution_cost_snoc g p u v w c :
  solution_cost g p = Some c → last p = Some u → edge g u v w →
  ∃ c', solution_cost g (p ++ [v]) = Some c' ∧ c' == c + w.
Proof.
  intros Hc Hu He. revert c Hc Hu.
  induction p as [|a p IH]; intros c Hc Hu; [done|].
  destruct p as [|b p].
  - injection Hc as <-. injection Hu as ->.
    change (solution_cost g ([u] ++ [v])) with (solution_cost g (u :: v :: [])).
    rewrite solution_cost_cons, (edge_getEdgeCost _ _ _ _ He). simpl.
    eexists. split; [done|]. lra.
  - rewrite solution_cost_cons in Hc.
    destruct (getEdgeCost g (a, b)).1 eqn:Hab; [|done].
    destruct (solution_cost g (b :: p)) as [c1|] eqn:Hc1; [|done].
    injection Hc as <-.
    destruct (IH c1 eq_refl Hu) as (c1' & Hc1' & Heq).
    change (solution_cost g ((a :: b :: p) ++ [v]))
      with (solution_cost g (a :: b :: (p ++ [v]))).
    rewrite solution_cost_cons, Hab.
    change (b :: p ++ [v]) with ((b :: p) ++ [v]). rewrite Hc1'. simpl.
    eexists. split; [done|]. lra.
Qed.

Lemma getEdgeCost_edge g (u v : N) :
  (getEdgeCost g (u, v)).1 = true → edge g u v (getEdgeCost g (u, v)).2.
Proof.
  rewrite getEdgeCost_status. intros (r & c & Hr & Hc)%edgeExists_lookup.
  rewrite (getEdgeCost_lookup g (u, v) r c Hr Hc). by exists r.
Qed.

Lemma solution_cost_snoc_inv g p v c :
  solution_cost g (p ++ [v]) = Some c → p ≠ [] →
  ∃ c' u w, solution_cost g p = Some c' ∧ last p = Some u ∧ edge g u v w ∧ c == c' + w.
Proof.
  revert c. induction p as [|a p IH]; intros c Hc Hne; [done|].
  destruct p as [|b p].
  - change (solution_cost g ([a] ++ [v])) with (solution_cost g (a :: v :: [])) in Hc.
    rewrite solution_cost_cons in Hc.
    destruct (getEdgeCost g (a, v)).1 eqn:Hav; [|done]. injection Hc as <-.
    exists 0, a, (getEdgeCost g (a, v)).2. split; [done|]. split; [done|].
    split; [by apply getEdgeCost_edge|]. lra.
  - change (solution_cost g ((a :: b :: p) ++ [v]))
      with (solution_cost g (a :: b :: (p ++ [v]))) in Hc.
    rewrite solution_cost_cons in Hc.
    destruct (getEdgeCost g (a, b)).1 eqn:Hab; [|done].
    change (b :: p ++ [v]) with ((b :: p) ++ [v]) in Hc.
    destruct (solution_cost g ((b :: p) ++ [v])) as [c1|] eqn:Hc1; [|done].
    injection Hc as <-.
    destruct (IH c1 eq_refl) as (c1' & u & w & Hc1' & Hu & He & Heq); [done|].
    exists ((getEdgeCost g (a, b)).2 + c1'), u, w.
    rewrite solution_cost_cons, Hab, Hc1'. split; [done|].
    split; [by rewrite last_cons_cons|]. split; [done|]. lra.
Qed.

Lemma size_nodes (X : gset N) (n : nat) :
  (∀ v, v ∈ X → (N.to_nat v < n)%nat) → (size X ≤ n)%nat.
Proof.
  intros HX.
  assert (X ⊆ list_to_set (N.of_nat <$> seq 0 n)) as Hsub.
  { intros v Hv. apply elem_of_list_to_set, list_elem_of_fmap.
    exists (N.to_nat v). split; [lia|]. apply elem_of_seq. specialize (HX v Hv). lia. }
  apply subseteq_size in Hsub. etrans; [exact Hsub|].
  rewrite size_list_to_set.
  - by rewrite length_fmap, length_seq.
  - apply NoDup_fmap_2; [|apply NoDup_seq]. intros x y. lia.
Qed.

(** ** Reachability: what the searches decide whatever the costs are *)

Section Reach.

Variable g : @GraphBase NodeProperty EdgeProperty.
Variables start goal : N.

Hypothesis Htargets : targets_exist g.
Hypothesis Hstart : nodeExists g start = true.

#[local] Abbreviation rinv := (reach_inv g start goal).

Lemma reach_init current : rinv current [] {[start]} ∅ ∅.
Proof.
  split.
  - intros v Hv. assert (v = start) as -> by set_solver. done.
  - set_solver.
  - set_solver.
  - set_solver.
  - intros v Hv. assert (v = start) as -> by set_solver. exists 0. constructor.
  - set_solver.
  - intros v. exists [v]. split; [by apply trail_end, lookup_empty|].
    split; [by intros x ?%elem_of_nil|]. split; [simpl; lia|]. set_solver.
Qed.

(** Moving [current] from the open to the closed set. *)
Lemma reach_pop c0 open closed cf current neighbors :
  rinv c0 [] open closed cf →
  current ∈ open → current ≠ goal →
  graph_ g !! N.to_nat current = Some neighbors →
  rinv current (map_order neighbors) (open ∖ {[current]}) (closed ∪ {[current]}) cf.
Proof.
  intros [Hnodes Hdisj Hst Hgl Hreach Hclo Htrail] Hcur Hng Hrow.
  assert (∀ v, v ∈ open ∖ {[current]} ∪ (closed ∪ {[current]}) ↔ v ∈ open ∪ closed) as Hsame.
  { intros v. destruct (decide (v = current)) as [->|]; set_solver. }
  assert (size (closed ∪ {[current]}) = S (size closed)) as Hsize.
  { rewrite size_union by (specialize (Hdisj current Hcur); set_solver).
    rewrite size_singleton. lia. }
  split.
  - intros v Hv%Hsame. auto.
  - intros v Hv. specialize (Hdisj v). set_solver.
  - by rewrite Hsame.
  - set_solver.
  - intros v Hv%Hsame. auto.
  - intros u v w Hu He. rewrite Hsame. apply elem_of_union in Hu as [Hu|Hu].
    + destruct (Hclo u v w Hu He) as [[_ Hnil]|Hv]; [|by right].
      by apply elem_of_nil in Hnil.
    + apply elem_of_singleton in Hu as ->. left. split; [done|].
      destruct He as (r & Hr & Hv). apply elem_of_map_order. congruence.
  - intros v. destruct (Htrail v) as (l & Hl & Htl & Hlen & Hlenc).
    exists l. split; [done|]. split; [set_solver|]. split; [lia|]. intros _. lia.
Qed.

(** One neighbour of [current]: already closed, or put into the open set
    with or without a new predecessor. *)
Lemma reach_skip current n ns open closed cf :
  rinv current (n :: ns) open closed cf → n.1 ∈ closed → rinv current ns open closed cf.
Proof.
  intros [Hnodes Hdisj Hst Hgl Hreach Hclo Htrail] Hn.
  split; try done.
  intros u v w Hu He. destruct (Hclo u v w Hu He) as [[-> Hin]|H]; [|by right].
  apply elem_of_cons in Hin as [<-|Hin]; [right; set_solver|left; done].
Qed.

Lemma reach_seen current n ns open closed cf :
  rinv current (n :: ns) open closed cf →
  current ∈ closed → edge g current n.1 n.2 → n.1 ∉ closed →
  rinv current ns (open ∪ {[n.1]}) closed cf.
Proof.
  intros [Hnodes Hdisj Hst Hgl Hreach Hclo Htrail] Hcur He Hn.
  split; try done.
  - intros v Hv. destruct (decide (v = n.1)) as [->|]; [by eapply edge_target|].
    apply Hnodes. set_solver.
  - intros v Hv. destruct (decide (v = n.1)) as [->|]; [done|].
    apply Hdisj. set_solver.
  - set_solver.
  - intros v Hv. destruct (decide (v = n.1)) as [->|]; [|apply Hreach; set_solver].
    destruct (Hreach current) as [c Hc]; [set_solver|].
    exists (c + n.2). by econstructor.
  - intros u v w Hu He'. destruct (Hclo u v w Hu He') as [[-> Hin]|H]; [|right; set_solver].
    apply elem_of_cons in Hin as [<-|Hin]; [right; set_solver|left; done].
Qed.

Lemma reach_update current n ns open closed cf :
  rinv current (n :: ns) open closed cf →
  current ∈ closed → edge g current n.1 n.2 → n.1 ∉ closed →
  rinv current ns (open ∪ {[n.1]}) closed (<[n.1 := current]> cf).
Proof.
  intros Hinv Hcur He Hn.
  destruct (reach_seen _ _ _ _ _ _ Hinv Hcur He Hn)
    as [Hnodes Hdisj Hst Hgl Hreach Hclo Htrail].
  split; try done.
  assert (∀ x, x ∈ closed → x ≠ n.1) as Hclosed by (intros x Hx ->; done).
  destruct (Htrail current) as (lc & Hlc & Htlc & _ & Hlenc).
  specialize (Hlenc Hcur).
  pose proof (trail_head _ _ _ Hlc) as Hhead.
  destruct lc as [|c0 tl]; [done|]. injection Hhead as ->. simpl in Htlc.
  assert (n.1 ∉ current :: tl) as Hnotin.
  { intros [Heq|Hin]%elem_of_cons; [by apply (Hclosed current)|].
    exact (Hclosed n.1 (Htlc n.1 Hin) eq_refl). }
  intros x. destruct (decide (x = n.1)) as [->|Hxv].
  - exists (n.1 :: current :: tl). split.
    { apply trail_step with current; [apply lookup_insert_eq|]. by apply trail_insert. }
    split.
    { simpl. intros x [->|Hx]%elem_of_cons; auto. }
    split; [simpl in *; lia|]. done.
  - destruct (Htrail x) as (l & Hl & Htl & Hlen & Hlenx).
    exists l. split; [|done].
    apply trail_insert; [done|].
    pose proof (trail_head _ _ _ Hl) as Hh.
    destruct l as [|x0 l']; [done|]. injection Hh as ->. simpl in Htl.
    intros [Heq|Hin]%elem_of_cons; [done|]. exact (Hclosed n.1 (Htl n.1 Hin) eq_refl).
Qed.

Lemma dijkstra_neighbors_reach current closed ns :
  current ∈ closed →
  ∀ open cf cost,
  (∀ n, n ∈ ns → edge g current n.1 n.2) →
  rinv current ns open closed cf →
  rinv current [] (dijkstra_neighbors closed current ns open cf cost).1.1 closed
       (dijkstra_neighbors closed current ns open cf cost).1.2.
Proof.
  intros Hcur. induction ns as [|n ns IH]; intros open cf cost Hedges Hinv; [done|].
  assert (edge g current n.1 n.2) as He by (apply Hedges; left).
  assert (∀ n', n' ∈ ns → edge g current n'.1 n'.2) as Hedges'
    by (intros n' Hn'; apply Hedges; by right).
  simpl. case_decide as Hn.
  { apply IH; [done|]. by eapply reach_skip. }
  destruct (Qle_bool _ _).
  - apply IH; [done|]. by apply reach_seen.
  - apply IH; [done|]. by apply reach_update.
Qed.

Lemma astar_neighbors_reach (heuristic : Heuristic) current closed ns :
  total_on g heuristic → current ∈ closed →
  ∀ open cf cost cwh,
  (∀ n, n ∈ ns → edge g current n.1 n.2) →
  rinv current ns open closed cf →
  ∃ open' cf' cost' cwh',
    astar_neighbors heuristic closed current ns open cf cost cwh
      = Some (open', cf', cost', cwh') ∧
    rinv current [] open' closed cf'.
Proof.
  intros Htotal Hcur. induction ns as [|n ns IH]; intros open cf cost cwh Hedges Hinv.
  { simpl. eauto 10. }
  assert (edge g current n.1 n.2) as He by (apply Hedges; left).
  assert (∀ n', n' ∈ ns → edge g current n'.1 n'.2) as Hedges'
    by (intros n' Hn'; apply Hedges; by right).
  simpl. case_decide as Hn.
  { apply IH; [done|]. by eapply reach_skip. }
  destruct (Qle_bool _ _).
  - apply IH; [done|]. by apply reach_seen.
  - destruct (Htotal n.1 (edge_target _ _ _ _ Htargets He)) as [hn Hhn].
    rewrite Hhn. apply IH; [done|]. by apply reach_update.
Qed.

(** When the open set is empty the closed set holds every node that can be
    reached from [start]. *)
Lemma reach_exhausted current closed cf x c :
  rinv current [] ∅ closed cf → path g start x c → x ∈ closed.
Proof.
  intros [Hnodes Hdisj Hst Hgl Hreach Hclo Htrail].
  induction 1 as [|v x c w Hp IH He]; [set_solver|].
  destruct (Hclo v x w IH He) as [[_ Hnil]|H]; [|set_solver].
  by apply elem_of_nil in Hnil.
Qed.

Lemma reach_size current pending open closed cf v :
  rinv current pending open closed cf →
  v ∈ open → (S (size closed) ≤ length (graph_ g))%nat.
Proof.
  intros [Hnodes Hdisj Hst Hgl Hreach Hclo Htrail] Hv.
  assert (size (closed ∪ {[v]}) = S (size closed)) as <-.
  { rewrite size_union by (specialize (Hdisj v Hv); set_solver).
    rewrite size_singleton. lia. }
  apply size_nodes. intros x Hx. apply nodeExists_lt, Hnodes. set_solver.
Qed.

(** Either [while] loop finishes within one iteration per node and one
    more, and returns a sequence exactly when [goal] can be reached from
    [start]. *)
Lemma dijkstra_while_reach (fuel rfuel : nat) :
  (length (graph_ g) < rfuel)%nat →
  ∀ c0 open closed cf cost,
  rinv c0 [] open closed cf →
  (length (graph_ g) - size closed < fuel)%nat →
  ∃ result,
    dijkstra_while fuel rfuel (graph_ g) goal open closed cf cost = Done result ∧
    (is_Some result ↔ ∃ c, path g start goal c).
Proof.
  intros Hrfuel. induction fuel as [|fuel IH]; intros c0 open closed cf cost Hinv Hfuel.
  { lia. }
  simpl.
  destruct (min_element _ (set_order open)) as [current|] eqn:Hmin.
  2:{ apply min_element_None, set_order_nil in Hmin as ->.
      exists None. split; [done|]. split; [by intros [? ?]|]. intros [c Hc].
      apply (reach_exhausted _ _ _ _ _ Hinv) in Hc.
      by destruct (reach_goal _ _ _ _ _ _ _ _ Hinv). }
  apply (min_element_spec (at0 cost)) in Hmin as [Hcur _].
  apply elem_of_set_order in Hcur.
  pose proof (reach_size _ _ _ _ _ _ Hinv Hcur) as Hsize.
  destruct (N.eqb_spec current goal) as [->|Hng].
  - destruct (reach_trail _ _ _ _ _ _ _ _ Hinv goal) as (l & Hl & Htl & Hlen & _).
    rewrite (reconstructSolution_trail cf goal l rfuel Hl) by lia.
    exists (Some (reverse l)). split; [done|]. split; [|by eauto].
    intros _. apply (reach_path _ _ _ _ _ _ _ _ Hinv). set_solver.
  - destruct (nodeExists_lookup g current) as [[neighbors Hrow] _].
    { apply (reach_nodes _ _ _ _ _ _ _ _ Hinv). set_solver. }
    rewrite Hrow.
    pose proof (reach_pop _ _ _ _ _ _ Hinv Hcur Hng Hrow) as Hinv'.
    pose proof (dijkstra_neighbors_reach current (closed ∪ {[current]}) (map_order neighbors)
                  ltac:(set_solver) (open ∖ {[current]}) cf cost
                  (row_edges g current neighbors Hrow) Hinv') as Hinv''.
    destruct (dijkstra_neighbors _ _ _ _ _ _) as [[open' cf'] cost'].
    apply IH with current; [done|].
    assert (size (closed ∪ {[current]}) = S (size closed)) as ->; [|lia].
    rewrite size_union, size_singleton; [lia|].
    pose proof (reach_disjoint _ _ _ _ _ _ _ _ Hinv current Hcur). set_solver.
Qed.

Lemma astar_while_reach (heuristic : Heuristic) (fuel rfuel : nat) :
  total_on g heuristic →
  (length (graph_ g) < rfuel)%nat →
  ∀ c0 open closed cf cost cwh,
  rinv c0 [] open closed cf →
  (length (graph_ g) - size closed < fuel)%nat →
  ∃ result,
    astar_while fuel rfuel (graph_ g) heuristic goal open closed cf cost cwh = Done result ∧
    (is_Some result ↔ ∃ c, path g start goal c).
Proof.
  intros Htotal Hrfuel.
  induction fuel as [|fuel IH]; intros c0 open closed cf cost cwh Hinv Hfuel.
  { lia. }
  simpl.
  destruct (min_element _ (set_order open)) as [current|] eqn:Hmin.
  2:{ apply min_element_None, set_order_nil in Hmin as ->.
      exists None. split; [done|]. split; [by intros [? ?]|]. intros [c Hc].
      apply (reach_exhausted _ _ _ _ _ Hinv) in Hc.
      by destruct (reach_goal _ _ _ _ _ _ _ _ Hinv). }
  apply (min_element_spec (at0 cwh)) in Hmin as [Hcur _].
  apply elem_of_set_order in Hcur.
  pose proof (reach_size _ _ _ _ _ _ Hinv Hcur) as Hsize.
  destruct (N.eqb_spec current goal) as [->|Hng].
  - destruct (reach_trail _ _ _ _ _ _ _ _ Hinv goal) as (l & Hl & Htl & Hlen & _).
    rewrite (reconstructSolution_trail cf goal l rfuel Hl) by lia.
    exists (Some (reverse l)). split; [done|]. split; [|by eauto].
    intros _. apply (reach_path _ _ _ _ _ _ _ _ Hinv). set_solver.
  - destruct (nodeExists_lookup g current) as [[neighbors Hrow] _].
    { apply (reach_nodes _ _ _ _ _ _ _ _ Hinv). set_solver. }
    rewrite Hrow.
    pose proof (reach_pop _ _ _ _ _ _ Hinv Hcur Hng Hrow) as Hinv'.
    destruct (astar_neighbors_reach heuristic current (closed ∪ {[current]})
                (map_order neighbors) Htotal ltac:(set_solver)
                (open ∖ {[current]}) cf cost cwh
                (row_edges g current neighbors Hrow) Hinv')
      as (open' & cf' & cost' & cwh' & Hrun & Hinv'').
    rewrite Hrun. apply IH with current; [done|].
    assert (size (closed ∪ {[current]}) = S (size closed)) as ->; [|lia].
    rewrite size_union, size_singleton; [lia|].
    pose proof (reach_disjoint _ _ _ _ _ _ _ _ Hinv current Hcur). set_solver.
Qed.

End Reach.

(** [solveDijkstra] and [solveAStar] return true exactly when the goal can
    be reached. *)
Lemma solveDijkstra_reach g (start goal : N) (fuel : nat) (solution : Solution) :
  targets_exist g →
  nodeExists g start = true → nodeExists g goal = true →
  (length (graph_ g) < fuel)%nat →
  ∃ result,
    solveDijkstra fuel g start goal solution =
      Done (match result with Some p => (true, p) | None => (false, []) end) ∧
    (is_Some result ↔ ∃ c, path g start goal c).
Proof.
  intros Htargets Hstart Hgoal Hfuel.
  unfold solveDijkstra. rewrite Hstart, Hgoal. simpl.
  destruct (dijkstra_while_reach g start goal Htargets Hstart fuel fuel Hfuel start
              {[start]} ∅ ∅ (<[start := 0]> (fill_max (length (graph_ g))))
              (reach_init g start goal Htargets Hstart start))
    as (result & Hrun & Hiff).
  { rewrite size_empty. lia. }
  exists result. rewrite Hrun. split; [|done]. by destruct result.
Qed.

Lemma solveAStar_reach
    (calculateHeuristic : @GraphBase NodeProperty EdgeProperty → N → bool * Heuristic)
    g (heuristic : Heuristic) (start goal : N) (fuel : nat) (solution : Solution) :
  targets_exist g →
  nodeExists g start = true → nodeExists g goal = true →
  calculateHeuristic g goal = (true, heuristic) → total_on g heuristic →
  (length (graph_ g) < fuel)%nat →
  ∃ result,
    solveAStar calculateHeuristic fuel g start goal solution =
      Done (match result with Some p => (true, p) | None => (false, solution) end) ∧
    (is_Some result ↔ ∃ c, path g start goal c).
Proof.
  intros Htargets Hstart Hgoal Hcalc Htotal Hfuel.
  unfold solveAStar. rewrite Hstart, Hgoal, Hcalc. simpl.
  destruct (Htotal start Hstart) as [hs Hhs]. rewrite Hhs.
  destruct (astar_while_reach g start goal Htargets Hstart heuristic fuel fuel Htotal Hfuel start
              {[start]} ∅ ∅ (<[start := 0]> (fill_max (length (graph_ g))))
              (<[start := hs]> (fill_max (length (graph_ g))))
              (reach_init g start goal Htargets Hstart start))
    as (result & Hrun & Hiff).
  { rewrite size_empty. lia. }
  exists result. rewrite Hrun. split; [|done]. by destruct result.
Qed.

(** ** The loop of solveAStar when no sum is rounded *)

Section Search.

Variable g : @GraphBase NodeProperty EdgeProperty.
Variable heuristic : Heuristic.
Variables start goal : N.

Hypothesis Htargets : targets_exist g.
Hypothesis Hnonneg : costs_nonneg g.
Hypothesis Htotal : total_on g heuristic.
Hypothesis Hconsistent : consistent g heuristic.
Hypothesis Hstart : nodeExists g start = true.
Hypothesis Hgoal : nodeExists g goal = true.
Hypothesis Hexact : exact_sums g start.
Hypothesis Hestimates : exact_estimates g heuristic start.

#[local] Abbreviation inv := (search_inv g heuristic start goal).

Lemma labelled_dec (cf : gmap N N) v : labelled start cf v ∨ ¬ labelled start cf v.
Proof.
  unfold labelled. destruct (decide (v = start)) as [->|]; [by left; left|].
  destruct (cf !! v) eqn:E; [left; right; eauto|].
  right. intros [?|[? ?]]; congruence.
Qed.

Lemma inv_init hs current :
  heuristic !! start = Some hs →
  inv current [] {[start]} ∅ ∅
      (<[start := 0]> (fill_max (length (graph_ g))))
      (<[start := hs]> (fill_max (length (graph_ g)))).
Proof.
  intros Hhs.
  assert (∀ v cf, ¬ labelled start cf v → v ≠ start) as Hne.
  { intros v cf Hv ->. apply Hv. by left. }
  assert (∀ v x, nodeExists g v = true → v ≠ start →
            at0 (<[start := x]> (fill_max (length (graph_ g)))) v = DBL_MAX) as Hmax.
  { intros v x Hv Hvs. rewrite at0_insert_ne by done. unfold at0.
    rewrite fill_max_lookup. apply nodeExists_lt in Hv. by case_decide. }
  assert (∀ v, labelled start ∅ v → v = start) as Hlab.
  { intros v [->|[? H]]; [done|]. by rewrite lookup_empty in H. }
  split.
  - intros v Hv. assert (v = start) as -> by set_solver. done.
  - set_solver.
  - split; [set_solver|]. split; [apply lookup_empty|]. by rewrite at0_insert_eq.
  - set_solver.
  - intros v Hv. assert (v = start) as -> by set_solver. exists 0. constructor.
  - intros v Hv. assert (v = start) as -> by set_solver. by left.
  - intros v ->%Hlab. rewrite at0_insert_eq. exact DBL_MAX_pos.
  - intros v. destruct (decide (v = start)) as [->|Hv].
    + rewrite at0_insert_eq. lra.
    + rewrite at0_insert_ne by done. unfold at0. rewrite fill_max_lookup.
      case_decide; simpl; [|lra]. pose proof DBL_MAX_pos. lra.
  - intros v Hv. destruct (decide (v = start)) as [->|Hvs].
    + rewrite at0_insert_eq. pose proof DBL_MAX_pos. lra.
    + rewrite Hmax by done. lra.
  - intros v Hv Hl. apply Hne in Hl. rewrite !Hmax by done. split; lra.
  - intros v ->%Hlab. split; [set_solver|]. split.
    + exists hs. split; [done|]. rewrite !at0_insert_eq. lra.
    + exists 0. split; [constructor|]. by rewrite at0_insert_eq.
  - set_solver.
  - set_solver.
  - intros v. exists [v]. split; [by apply trail_end, lookup_empty|].
    split; [by intros x ?%elem_of_nil|]. split; [simpl; lia|].
    split; [set_solver|]. intros ->%Hlab. split; [done|].
    exists 0. split; [done|]. by rewrite at0_insert_eq.
Qed.

(** A path to [x], cheap enough to be seen, either ends in a closed node
    whose cost is no worse, or passes through an open labelled node whose
    key is no worse. *)
Lemma frontier current open closed cf cost cwh x c :
  inv current [] open closed cf cost cwh →
  path g start x c → ∀ hx, heuristic !! x = Some hx → c < DBL_MAX → c + hx < DBL_MAX →
  (x ∈ closed ∧ at0 cost x <= c) ∨
  (∃ y hy, y ∈ open ∧ labelled start cf y ∧ heuristic !! y = Some hy ∧
           at0 cost y + hy <= c + hx).
Proof.
  intros Hinv. induction 1 as [|v x c w Hp IH He]; intros hx Hhx Hc Hch.
  - destruct (inv_start _ _ _ _ _ _ _ _ _ _ _ Hinv) as (Hin & _ & H0).
    apply elem_of_union in Hin as [Hin|Hin].
    + right. exists start, hx. split; [done|]. split; [by left|]. split; [done|]. lra.
    + left. split; [done|]. lra.
  - pose proof (edge_nonneg _ _ _ _ Hnonneg He) as Hw.
    destruct (Htotal v (edge_source _ _ _ _ He)) as [hv Hhv].
    pose proof (Hconsistent v x w hv hx He Hhv Hhx) as Hcons.
    destruct (IH hv Hhv) as [[Hv Hcv]|(y & hy & Hy & Hly & Hhy & Hle)]; [lra|lra| |].
    + destruct (inv_relaxed _ _ _ _ _ _ _ _ _ _ _ Hinv v x w Hv He)
        as [[_ Hnil]|[Hx|[Hx Hcx]]].
      * by apply elem_of_nil in Hnil.
      * left. split; [done|].
        apply (inv_optimal _ _ _ _ _ _ _ _ _ _ _ Hinv x (c + w) hx Hx Hhx);
          [by econstructor|lra|lra].
      * right. exists x, hx. split; [done|].
        assert (labelled start cf x) as Hlx.
        { destruct (labelled_dec cf x) as [|Hn]; [done|].
          pose proof (inv_nodes _ _ _ _ _ _ _ _ _ _ _ Hinv x) as Hnode.
          destruct (inv_unlabelled _ _ _ _ _ _ _ _ _ _ _ Hinv x) as [Hmax _];
            [set_solver|done|lra]. }
        split; [done|]. split; [done|]. lra.
    + right. exists y, hy. repeat split; try done. lra.
Qed.

(** The node that [min_element] picks has its final cost. *)
Lemma pop_optimal c0 open closed cf cost cwh current c hc :
  inv c0 [] open closed cf cost cwh →
  min_element (λ i j, Qltb (at0 cwh i) (at0 cwh j)) (set_order open) = Some current →
  heuristic !! current = Some hc →
  path g start current c → c < DBL_MAX → c + hc < DBL_MAX →
  labelled start cf current ∧ at0 cost current <= c.
Proof.
  intros Hinv Hmin Hhc Hp Hc Hch.
  apply (min_element_spec (at0 cwh)) in Hmin as [Hcur Hmin].
  apply elem_of_set_order in Hcur.
  destruct (frontier _ _ _ _ _ _ _ _ Hinv Hp hc Hhc Hc Hch)
    as [[Hx _]|(y & hy & Hy & Hly & Hhy & Hle)].
  { by destruct (inv_disjoint _ _ _ _ _ _ _ _ _ _ _ Hinv current Hcur). }
  specialize (Hmin y). rewrite elem_of_set_order in Hmin. specialize (Hmin Hy).
  destruct (inv_labelled _ _ _ _ _ _ _ _ _ _ _ Hinv y Hly) as (_ & (hy' & Hhy' & Hky) & _).
  assert (hy' = hy) as -> by congruence.
  assert (labelled start cf current) as Hl.
  { destruct (labelled_dec cf current) as [|Hn]; [done|].
    destruct (inv_unlabelled _ _ _ _ _ _ _ _ _ _ _ Hinv current) as [_ Hmax];
      [apply (inv_nodes _ _ _ _ _ _ _ _ _ _ _ Hinv); set_solver|done|lra]. }
  split; [done|].
  destruct (inv_labelled _ _ _ _ _ _ _ _ _ _ _ Hinv current Hl) as (_ & (hc' & Hhc' & Hkc) & _).
  assert (hc' = hc) as -> by congruence. lra.
Qed.

(** Moving [current] from the open to the closed set. *)
Lemma inv_pop c0 open closed cf cost cwh current neighbors :
  inv c0 [] open closed cf cost cwh →
  min_element (λ i j, Qltb (at0 cwh i) (at0 cwh j)) (set_order open) = Some current →
  current ≠ goal →
  graph_ g !! N.to_nat current = Some neighbors →
  inv current (map_order neighbors) (open ∖ {[current]}) (closed ∪ {[current]}) cf cost cwh.
Proof.
  intros Hinv Hmin Hng Hrow.
  pose proof (λ c hc, pop_optimal _ _ _ _ _ _ _ c hc Hinv Hmin) as Hpop.
  destruct Hinv as [Hnodes Hdisj Hst Hgl Hreach Hseen Hfin Hnn Hbound Hunl Hlab Hrel Hopt Htrail].
  apply (min_element_spec (at0 cwh)) in Hmin as [Hcur _].
  apply elem_of_set_order in Hcur.
  assert (∀ v, v ∈ open ∖ {[current]} ∪ (closed ∪ {[current]}) ↔ v ∈ open ∪ closed) as Hsame.
  { intros v. destruct (decide (v = current)) as [->|]; set_solver. }
  assert (size (closed ∪ {[current]}) = S (size closed)) as Hsize.
  { rewrite size_union by (specialize (Hdisj current Hcur); set_solver).
    rewrite size_singleton. lia. }
  split.
  - intros v Hv%Hsame. auto.
  - intros v Hv. specialize (Hdisj v). set_solver.
  - destruct Hst as (? & ? & ?). by rewrite Hsame.
  - set_solver.
  - intros v Hv%Hsame. auto.
  - intros v Hv%Hsame. auto.
  - done.
  - done.
  - done.
  - done.
  - intros v Hv. rewrite Hsame. auto.
  - intros u v w Hu He. apply elem_of_union in Hu as [Hu|Hu].
    + destruct (Hrel u v w Hu He) as [[_ Hnil]|[Hv|[Hv Hc]]].
      * by apply elem_of_nil in Hnil.
      * right; left. set_solver.
      * destruct (decide (v = current)) as [->|]; [right; left; set_solver|].
        right; right. split; [set_solver|done].
    + apply elem_of_singleton in Hu as ->. left. split; [done|].
      destruct He as (r & Hr & Hv). apply elem_of_map_order. congruence.
  - intros u c hu Hu Hhu Hp Hc Hch. apply elem_of_union in Hu as [Hu|Hu]; [by eauto|].
    apply elem_of_singleton in Hu as ->. by destruct (Hpop c hu).
  - intros v. destruct (Htrail v) as (l & Hl & Htl & Hlen & Hlenc & Hcost).
    exists l. split; [done|]. split; [set_solver|]. split; [lia|].
    split; [intros _; lia|done].
Qed.

(** The sums that the [for] loop forms for a neighbour of [current] are
    exact. *)
Lemma relax_exact current pending open closed cf cost cwh v w :
  inv current pending open closed cf cost cwh →
  current ∈ closed → edge g current v w → v ∉ closed →
  dadd (at0 cost current) w == at0 cost current + w ∧
  at0 cost current + w < DBL_MAX ∧
  ∀ hv, heuristic !! v = Some hv →
        dadd (dadd (at0 cost current) w) hv == at0 cost current + w + hv.
Proof.
  intros Hinv Hcur He Hv.
  assert (labelled start cf current) as Hl.
  { apply (inv_seen _ _ _ _ _ _ _ _ _ _ _ Hinv). set_solver. }
  destruct (inv_trail _ _ _ _ _ _ _ _ _ _ _ Hinv current) as (l & Hl' & Htl & _ & Hlen & Hcost).
  specialize (Hlen Hcur). destruct (Hcost Hl) as (Hlast & cc & Hcc & Hcceq).
  assert (S (size closed) ≤ length (graph_ g))%nat as Hsize.
  { assert (size (closed ∪ {[v]}) = S (size closed)) as <-.
    { rewrite size_union by set_solver. rewrite size_singleton. lia. }
    apply size_nodes. intros x Hx. apply nodeExists_lt.
    apply elem_of_union in Hx as [Hx | ->%elem_of_singleton]; [|by eapply edge_target].
    apply (inv_nodes _ _ _ _ _ _ _ _ _ _ _ Hinv). set_solver. }
  assert (head (reverse l) = Some start) as Hhead by (by rewrite head_reverse).
  assert (last (reverse l) = Some current) as Hend
    by (by rewrite last_reverse, (trail_head _ _ _ Hl')).
  destruct (Hexact (reverse l) cc current v w) as [Hsum Hlt];
    [rewrite length_reverse; lia|done..|].
  assert (dadd (at0 cost current) w = dadd cc w) as Hsame
    by (apply dadd_comp; [by symmetry|reflexivity]).
  rewrite Hsame. split; [lra|]. split; [lra|]. intros hv Hhv.
  destruct (solution_cost_snoc g (reverse l) current v w cc Hcc Hend He)
    as (c' & Hc' & Hc'eq).
  assert (dadd (dadd cc w) hv = dadd c' hv) as ->
    by (apply dadd_comp; [lra|reflexivity]).
  rewrite (Hestimates (reverse l ++ [v]) c' v hv); [lra| | |by rewrite last_snoc|done..].
  - rewrite length_app, length_reverse. simpl. lia.
  - destruct (reverse l); [done|]. done.
Qed.

(** One neighbour of [current]. *)
Lemma inv_skip current n ns open closed cf cost cwh :
  inv current (n :: ns) open closed cf cost cwh →
  n.1 ∈ closed →
  inv current ns open closed cf cost cwh.
Proof.
  intros [Hnodes Hdisj Hst Hgl Hreach Hseen Hfin Hnn Hbound Hunl Hlab Hrel Hopt Htrail] Hn.
  split; try done.
  intros u v w Hu He. destruct (Hrel u v w Hu He) as [[-> Hin]|H]; [|by right].
  apply elem_of_cons in Hin as [<-|Hin]; [right; by left|left; done].
Qed.

Lemma inv_keep current n ns open closed cf cost cwh :
  inv current (n :: ns) open closed cf cost cwh →
  current ∈ closed → edge g current n.1 n.2 →
  n.1 ∉ closed →
  at0 cost n.1 <= dadd (at0 cost current) n.2 →
  inv current ns (open ∪ {[n.1]}) closed cf cost cwh.
Proof.
  intros Hinv Hcur He Hn Hle.
  destruct (relax_exact _ _ _ _ _ _ _ _ _ Hinv Hcur He Hn) as (Hsum & Hlt & _).
  destruct Hinv as [Hnodes Hdisj Hst Hgl Hreach Hseen Hfin Hnn Hbound Hunl Hlab Hrel Hopt Htrail].
  split; try done.
  - intros v Hv. destruct (decide (v = n.1)) as [->|]; [by eapply edge_target|].
    apply Hnodes. set_solver.
  - intros v Hv. destruct (decide (v = n.1)) as [->|]; [done|].
    apply Hdisj. set_solver.
  - destruct Hst as (? & ? & ?). split; [set_solver|done].
  - intros v Hv. destruct (decide (v = n.1)) as [->|]; [|apply Hreach; set_solver].
    destruct (Hreach current) as [c Hc]; [set_solver|].
    exists (c + n.2). by econstructor.
  - intros v Hv. destruct (decide (v = n.1)) as [->|]; [|apply Hseen; set_solver].
    destruct (labelled_dec cf n.1) as [|Hnl]; [done|].
    destruct (Hunl n.1) as [Hmax _]; [by eapply edge_target|done|]. lra.
  - intros v Hv. destruct (Hlab v Hv) as (? & ? & ?). split; [set_solver|done].
  - intros u v w Hu He'. destruct (Hrel u v w Hu He') as [[-> Hin]|[H|[H1 H2]]].
    + apply elem_of_cons in Hin as [<-|Hin]; [|left; done].
      right; right. split; [set_solver|]. simpl in *. lra.
    + right; by left.
    + right; right. split; [set_solver|done].
Qed.

Lemma inv_update current n ns open closed cf cost cwh hn :
  inv current (n :: ns) open closed cf cost cwh →
  current ∈ closed → edge g current n.1 n.2 →
  n.1 ∉ closed →
  dadd (at0 cost current) n.2 < at0 cost n.1 →
  heuristic !! n.1 = Some hn →
  inv current ns (open ∪ {[n.1]}) closed
      (<[n.1 := current]> cf)
      (<[n.1 := dadd (at0 cost current) n.2]> cost)
      (<[n.1 := dadd (at0 (<[n.1 := dadd (at0 cost current) n.2]> cost) n.1) hn]> cwh).
Proof.
  intros Hinv Hcur He Hn Hlt Hhn.
  destruct (relax_exact _ _ _ _ _ _ _ _ _ Hinv Hcur He Hn) as (Hsum & Hmax & Hkey).
  specialize (Hkey hn Hhn).
  destruct Hinv as [Hnodes Hdisj Hst Hgl Hreach Hseen Hfin Hnn Hbound Hunl Hlab Hrel Hopt Htrail].
  destruct n as [v w]. simpl in *.
  rewrite at0_insert_eq.
  set (t := dadd (at0 cost current) w) in *.
  pose proof (edge_nonneg _ _ _ _ Hnonneg He) as Hw.
  pose proof (edge_target _ _ _ _ Htargets He) as Hv.
  destruct Hst as (Hsin & Hscf & Hsc).
  assert (v ≠ current) as Hvc by (intros ->; done).
  assert (v ≠ start) as Hvs.
  { intros ->. pose proof (Hnn current). lra. }
  assert (∀ x, x ∈ closed → x ≠ v) as Hclosed by (intros x Hx ->; done).
  assert (labelled start cf current) as Hlcur by (apply Hseen; set_solver).
  assert (∀ x, x ≠ v → labelled start (<[v := current]> cf) x ↔ labelled start cf x) as Hlne.
  { intros x Hx. unfold labelled. by rewrite lookup_insert_ne. }
  assert (labelled start (<[v := current]> cf) v) as Hlv.
  { right. rewrite lookup_insert_eq. eauto. }
  split.
  - intros x Hx. destruct (decide (x = v)) as [->|]; [done|].
    apply Hnodes. set_solver.
  - intros x Hx. destruct (decide (x = v)) as [->|]; [done|].
    apply Hdisj. set_solver.
  - split; [set_solver|]. split; [by rewrite lookup_insert_ne|].
    by rewrite at0_insert_ne.
  - done.
  - intros x Hx. destruct (decide (x = v)) as [->|]; [|apply Hreach; set_solver].
    destruct (Hreach current) as [c Hc]; [set_solver|].
    exists (c + w). by econstructor.
  - intros x Hx. destruct (decide (x = v)) as [->|Hxv]; [done|].
    apply Hlne; [done|]. apply Hseen. set_solver.
  - intros x Hx. destruct (decide (x = v)) as [->|Hxv].
    + rewrite at0_insert_eq. lra.
    + rewrite at0_insert_ne by done. apply Hfin. by apply Hlne.
  - intros x. destruct (decide (x = v)) as [->|].
    + rewrite at0_insert_eq. pose proof (Hnn current). lra.
    + by rewrite at0_insert_ne.
  - intros x Hx. destruct (decide (x = v)) as [->|].
    + rewrite at0_insert_eq. pose proof (Hbound v Hv). lra.
    + rewrite at0_insert_ne by done. auto.
  - intros x Hx Hl. destruct (decide (x = v)) as [->|Hxv]; [done|].
    rewrite !at0_insert_ne by done. apply Hunl; [done|]. by rewrite <- Hlne.
  - intros x Hl. destruct (decide (x = v)) as [->|Hxv].
    + split; [set_solver|]. split.
      * exists hn. split; [done|]. rewrite !at0_insert_eq. lra.
      * destruct (Hlab current Hlcur) as (_ & _ & c & Hc & Hceq).
        exists (c + w). split; [by econstructor|]. rewrite at0_insert_eq. lra.
    + apply Hlne in Hl; [|done].
      destruct (Hlab x Hl) as (Hin & Hkey' & Hpath).
      rewrite !at0_insert_ne by done. split; [set_solver|done].
  - intros u x w' Hu He'.
    rewrite (at0_insert_ne _ v u) by (symmetry; auto).
    destruct (Hrel u x w' Hu He') as [[-> Hin]|[H|[H1 H2]]].
    + apply elem_of_cons in Hin as [Heq|Hin]; [|left; done].
      injection Heq as -> ->. right; right. split; [set_solver|].
      rewrite at0_insert_eq. lra.
    + right; by left.
    + right; right. split; [set_solver|].
      destruct (decide (x = v)) as [->|].
      * rewrite at0_insert_eq. lra.
      * by rewrite at0_insert_ne.
  - intros u c hu Hu Hhu Hp Hc Hch.
    rewrite at0_insert_ne by (symmetry; auto). eauto.
  - destruct (Htrail current) as (lc & Hlc & Htlc & _ & Hlenc & Hcostc).
    specialize (Hlenc Hcur). destruct (Hcostc Hlcur) as (Hlast & cc & Hcc & Hcceq).
    pose proof (trail_head _ _ _ Hlc) as Hhead.
    destruct lc as [|c0 tl]; [done|]. injection Hhead as ->. simpl in Htlc.
    assert (v ∉ current :: tl) as Hnotin.
    { intros [->|Hin]%elem_of_cons; [done|]. exact (Hclosed v (Htlc v Hin) eq_refl). }
    intros x. destruct (decide (x = v)) as [->|Hxv].
    + exists (v :: current :: tl). split.
      { apply trail_step with current; [apply lookup_insert_eq|].
        by apply trail_insert. }
      split.
      { simpl. intros x [->|Hx]%elem_of_cons; auto. }
      split; [simpl in *; lia|]. split; [done|]. intros _. split.
      { rewrite <- Hlast. done. }
      rewrite reverse_cons.
      destruct (solution_cost_snoc g (reverse (current :: tl)) current v w cc Hcc)
        as (c' & Hc' & Hc'eq); [|done|].
      { rewrite last_reverse. done. }
      exists c'. split; [done|]. rewrite at0_insert_eq. lra.
    + destruct (Htrail x) as (l & Hl & Htl & Hlen & Hlenx & Hcost).
      exists l. split.
      { apply trail_insert; [done|].
        pose proof (trail_head _ _ _ Hl) as Hh.
        destruct l as [|x0 l']; [done|]. injection Hh as ->. simpl in Htl.
        intros [->|Hin]%elem_of_cons; [done|]. exact (Hclosed v (Htl v Hin) eq_refl). }
      split; [done|]. split; [done|]. split; [done|].
      rewrite Hlne by done. by rewrite at0_insert_ne.
Qed.

(** The [for] loop over the neighbours of [current] never misses an
    estimate and re-establishes the invariant of the [while] loop. *)
Lemma astar_neighbors_inv current closed ns :
  current ∈ closed →
  ∀ open cf cost cwh,
  (∀ n, n ∈ ns → edge g current n.1 n.2) →
  inv current ns open closed cf cost cwh →
  ∃ open' cf' cost' cwh',
    astar_neighbors heuristic closed current ns open cf cost cwh
      = Some (open', cf', cost', cwh') ∧
    inv current [] open' closed cf' cost' cwh'.
Proof.
  intros Hcur. induction ns as [|n ns IH]; intros open cf cost cwh Hedges Hinv.
  - simpl. eauto 10.
  - assert (edge g current n.1 n.2) as He by (apply Hedges; left).
    assert (∀ n', n' ∈ ns → edge g current n'.1 n'.2) as Hedges'
      by (intros n' Hn'; apply Hedges; by right).
    simpl. case_decide as Hn.
    { apply IH; [done|]. by eapply inv_skip. }
    destruct (Qle_bool (at0 cost n.1) (dadd (at0 cost current) n.2)) eqn:Hcmp.
    { apply Qle_bool_iff in Hcmp. apply IH; [done|]. by apply inv_keep. }
    apply Qle_bool_false in Hcmp.
    destruct (Htotal n.1 (edge_target _ _ _ _ Htargets He)) as [hn Hhn].
    rewrite Hhn. apply IH; [done|]. by apply inv_update.
Qed.

(** When the open set is empty the closed set holds every node that can be
    reached from [start]. *)
Lemma exhausted current closed cf cost cwh x c :
  inv current [] ∅ closed cf cost cwh → path g start x c → x ∈ closed.
Proof.
  intros [Hnodes Hdisj Hst Hgl Hreach Hseen Hfin Hnn Hbound Hunl Hlab Hrel Hopt Htrail].
  induction 1 as [|v x c w Hp IH He].
  - destruct Hst as (Hin & _). set_solver.
  - destruct (Hrel v x w IH He) as [[_ Hnil]|[H|[H _]]]; [|done|set_solver].
    by apply elem_of_nil in Hnil.
Qed.

Lemma closed_size current pending open closed cf cost cwh v :
  inv current pending open closed cf cost cwh →
  v ∈ open → (S (size closed) ≤ length (graph_ g))%nat.
Proof.
  intros [Hnodes Hdisj Hst Hgl Hreach Hseen Hfin Hnn Hbound Hunl Hlab Hrel Hopt Htrail] Hv.
  assert (size (closed ∪ {[v]}) = S (size closed)) as <-.
  { rewrite size_union by (specialize (Hdisj v Hv); set_solver).
    rewrite size_singleton. lia. }
  apply size_nodes. intros x Hx. apply nodeExists_lt, Hnodes. set_solver.
Qed.

(** The [while] loop of [solveAStar] finishes within one iteration per node
    and one more, and its result is as [search_post] says. *)
Lemma astar_while_post (fuel rfuel : nat) :
  (length (graph_ g) < rfuel)%nat →
  ∀ c0 open closed cf cost cwh,
  inv c0 [] open closed cf cost cwh →
  (length (graph_ g) - size closed < fuel)%nat →
  ∃ result,
    astar_while fuel rfuel (graph_ g) heuristic goal open closed cf cost cwh = Done result ∧
    search_post g heuristic start goal result.
Proof.
  intros Hrfuel. induction fuel as [|fuel IH]; intros c0 open closed cf cost cwh Hinv Hfuel.
  { lia. }
  simpl.
  destruct (min_element _ (set_order open)) as [current|] eqn:Hmin.
  2:{ apply min_element_None, set_order_nil in Hmin as ->.
      exists None. split; [done|]. intros c Hc.
      apply (exhausted _ _ _ _ _ _ _ Hinv) in Hc.
      by apply (inv_goal _ _ _ _ _ _ _ _ _ _ _ Hinv). }
  pose proof Hmin as [Hcur Hleast]%(min_element_spec (at0 cwh)).
  apply elem_of_set_order in Hcur.
  pose proof (closed_size _ _ _ _ _ _ _ _ Hinv Hcur) as Hsize.
  destruct (N.eqb_spec current goal) as [->|Hng].
  - destruct (inv_trail _ _ _ _ _ _ _ _ _ _ _ Hinv goal)
      as (l & Hl & Htl & Hlen & _ & Hcost).
    rewrite (reconstructSolution_trail cf goal l rfuel Hl) by lia.
    exists (Some (reverse l)). split; [done|]. simpl. split.
    { apply (inv_reach _ _ _ _ _ _ _ _ _ _ _ Hinv). set_solver. }
    intros hg Hhg Hhg0.
    assert (labelled start cf goal) as Hlab
      by (apply (inv_seen _ _ _ _ _ _ _ _ _ _ _ Hinv); set_solver).
    pose proof (inv_finite _ _ _ _ _ _ _ _ _ _ _ Hinv goal Hlab) as Hfinite.
    destruct (Hcost Hlab) as (Hlast & c & Hc & Hceq).
    destruct (inv_labelled _ _ _ _ _ _ _ _ _ _ _ Hinv goal Hlab) as (_ & _ & c1 & Hc1 & Hc1eq).
    split; [by rewrite head_reverse|]. split; [by rewrite last_reverse, (trail_head _ _ _ Hl)|].
    exists c. split; [done|]. split; [exists c1; split; [done|lra]|].
    intros c' Hc'. destruct (Qlt_le_dec c' DBL_MAX) as [Hlt|Hge]; [|lra].
    destruct (pop_optimal _ _ _ _ _ _ _ c' hg Hinv Hmin Hhg Hc' Hlt) as [_ Hcc']; lra.
  - destruct (nodeExists_lookup g current) as [[neighbors Hrow] _].
    { apply (inv_nodes _ _ _ _ _ _ _ _ _ _ _ Hinv). set_solver. }
    rewrite Hrow.
    pose proof (inv_pop _ _ _ _ _ _ _ _ Hinv Hmin Hng Hrow) as Hinv'.
    destruct (astar_neighbors_inv current (closed ∪ {[current]}) (map_order neighbors))
      with (open := open ∖ {[current]}) (cf := cf) (cost := cost) (cwh := cwh)
      as (open' & cf' & cost' & cwh' & Hrun & Hinv''); [set_solver| |done|].
    { intros [v w] Hn%elem_of_map_order. by exists neighbors. }
    rewrite Hrun. apply IH with current; [done|].
    assert (size (closed ∪ {[current]}) = S (size closed)) as ->; [|lia].
    rewrite size_union, size_singleton; [lia|].
    pose proof (inv_disjoint _ _ _ _ _ _ _ _ _ _ _ Hinv current Hcur). set_solver.
Qed.

End Search.

(** ** solveAStar and solveDijkstra *)

Lemma solveAStar_post (calculateHeuristic : @GraphBase NodeProperty EdgeProperty → N → bool * Heuristic)
    g (heuristic : Heuristic) (start goal : N) (fuel : nat) (solution : Solution) :
  targets_exist g → costs_nonneg g →
  calculateHeuristic g goal = (true, heuristic) →
  total_on g heuristic → consistent g heuristic →
  nodeExists g start = true → nodeExists g goal = true →
  exact_sums g start → exact_estimates g heuristic start →
  (length (graph_ g) < fuel)%nat →
  ∃ result,
    solveAStar calculateHeuristic fuel g start goal solution =
      Done (match result with Some p => (true, p) | None => (false, solution) end) ∧
    search_post g heuristic start goal result.
Proof.
  intros Htargets Hnonneg Hcalc Htotal Hcons Hstart Hgoal Hexact Hest Hfuel.
  unfold solveAStar. rewrite Hstart, Hgoal, Hcalc. simpl.
  destruct (Htotal start Hstart) as [hs Hhs]. rewrite Hhs.
  destruct (astar_while_post g heuristic start goal Htargets Hnonneg Htotal Hcons
              Hstart Hgoal Hexact Hest fuel fuel Hfuel start _ _ _ _ _
              (inv_init g heuristic start goal Htargets Hnonneg Htotal Hcons
                        Hstart Hgoal Hexact Hest hs start Hhs))
    as (result & Hrun & Hpost).
  { rewrite size_empty. lia. }
  exists result. rewrite Hrun. split; [|done]. by destruct result.
Qed.

Lemma zero_heuristic_total g : total_on g (zero_heuristic (length (graph_ g))).
Proof.
  intros v Hv%nodeExists_lt. rewrite zero_heuristic_lookup.
  case_decide; [eauto|lia].
Qed.

Lemma zero_heuristic_value n v h : zero_heuristic n !! v = Some h → h = 0.
Proof. rewrite zero_heuristic_lookup. case_decide; congruence. Qed.

Lemma zero_heuristic_consistent g :
  costs_nonneg g → consistent g (zero_heuristic (length (graph_ g))).
Proof.
  intros Hg u v w hu hv He ->%zero_heuristic_value ->%zero_heuristic_value.
  pose proof (edge_nonneg _ _ _ _ Hg He). lra.
Qed.

(** When no sum of edge costs is rounded, the cost of every sequence the
    search can follow is a double, so adding the zero estimate is exact. *)
Lemma exact_sums_double g (start : N) p c u :
  exact_sums g start →
  (length p ≤ length (graph_ g))%nat → head p = Some start → last p = Some u →
  solution_cost g p = Some c → is_double c.
Proof.
  intros Hexact Hlen Hhead Hlast Hc. unfold is_double.
  destruct p as [|x p _] using rev_ind; [done|].
  destruct p as [|y p].
  { injection Hc as <-. vm_compute. reflexivity. }
  apply solution_cost_snoc_inv in Hc as (c' & u' & w & Hc' & Hu' & He & Heq); [|done].
  rewrite length_app in Hlen. simpl in Hlen.
  destruct (Hexact (y :: p) c' u' x w) as [Hsum _]; [simpl; lia|done..|].
  rewrite (round64_comp c (dadd c' w)) by lra.
  pose proof (dadd_double c' w) as Hd. unfold is_double in Hd. lra.
Qed.

Lemma zero_heuristic_exact g (start : N) :
  exact_sums g start → exact_estimates g (zero_heuristic (length (graph_ g))) start.
Proof.
  intros Hexact p c u hu Hlen Hhead Hlast Hc ->%zero_heuristic_value.
  pose proof (exact_sums_double g start p c u Hexact Hlen Hhead Hlast Hc) as Hd.
  rewrite (dadd_0_r c 0 Hd) by reflexivity. lra.
Qed.

Lemma Qltb_proper a a' b b' : a == a' → b == b' → Qltb a b = Qltb a' b'.
Proof. intros Ha Hb. unfold Qltb. by rewrite Ha, Hb. Qed.

(** With the zero estimate the two [for] loops do the same, and so do the
    two [while] loops: the key of a node is its cost plus 0.0, which is its
    cost. *)
Lemma dijkstra_neighbors_astar g closed current ns :
  ∀ open cf cost cwh,
  (∀ n, n ∈ ns → nodeExists g n.1 = true) →
  (∀ i, at0 cwh i == at0 cost i) →
  ∃ cwh',
    astar_neighbors (zero_heuristic (length (graph_ g))) closed current ns open cf cost cwh
      = Some (dijkstra_neighbors closed current ns open cf cost, cwh') ∧
    ∀ i, at0 cwh' i == at0 (dijkstra_neighbors closed current ns open cf cost).2 i.
Proof.
  induction ns as [|n ns IH]; intros open cf cost cwh Hnodes Hkeys.
  - simpl. eauto.
  - assert (∀ n', n' ∈ ns → nodeExists g n'.1 = true) as Hnodes'
      by (intros n' Hn'; apply Hnodes; by right).
    simpl. case_decide; [by apply IH|].
    destruct (Qle_bool _ _); [by apply IH|].
    destruct (zero_heuristic_total g n.1) as [h Hh]; [apply Hnodes; left|].
    rewrite Hh. apply zero_heuristic_value in Hh as ->.
    apply IH; [done|]. intros i. destruct (decide (n.1 = i)) as [<-|].
    + rewrite !at0_insert_eq. apply dadd_0_r; [apply dadd_double|reflexivity].
    + by rewrite !at0_insert_ne.
Qed.

Lemma dijkstra_while_astar g (goal : N) (fuel rfuel : nat) :
  targets_exist g →
  ∀ open closed cf cost cwh,
  (∀ i, at0 cwh i == at0 cost i) →
  dijkstra_while fuel rfuel (graph_ g) goal open closed cf cost =
  astar_while fuel rfuel (graph_ g) (zero_heuristic (length (graph_ g))) goal
              open closed cf cost cwh.
Proof.
  intros Htargets. induction fuel as [|fuel IH]; intros open closed cf cost cwh Hkeys; [done|].
  simpl.
  rewrite (min_element_ext (λ i j, Qltb (at0 cost i) (at0 cost j))
                           (λ i j, Qltb (at0 cwh i) (at0 cwh j)))
    by (intros i j; by apply Qltb_proper).
  destruct (min_element _ _) as [current|]; [|done].
  destruct (current =? goal)%N; [done|].
  destruct (graph_ g !! N.to_nat current) as [neighbors|] eqn:Hrow; [|done].
  destruct (dijkstra_neighbors_astar g (closed ∪ {[current]}) current (map_order neighbors)
              (open ∖ {[current]}) cf cost cwh) as (cwh' & -> & Hkeys'); [|done|].
  { intros [v w] Hn%elem_of_map_order. eauto. }
  destruct (dijkstra_neighbors _ _ _ _ _ _) as [[open' cf'] cost'].
  by apply IH.
Qed.

Lemma solveDijkstra_astar g (start goal : N) (fuel : nat) (solution : Solution) :
  targets_exist g →
  solveAStar (λ g0 _, (true, zero_heuristic (length (graph_ g0)))) fuel g start goal [] =
  solveDijkstra fuel g start goal solution.
Proof.
  intros Htargets. unfold solveDijkstra, solveAStar.
  destruct (nodeExists g start) eqn:Hstart; [|done].
  destruct (nodeExists g goal) eqn:Hgoal; [|done]. simpl.
  destruct (zero_heuristic_total g start Hstart) as [hs Hhs]. rewrite Hhs.
  apply zero_heuristic_value in Hhs as ->.
  by rewrite (dijkstra_while_astar g goal fuel fuel Htargets _ _ _ _
                (<[start := 0]> (fill_max (length (graph_ g))))).
Qed.

Lemma solveDijkstra_post g (start goal : N) (fuel : nat) (solution : Solution) :
  targets_exist g → costs_nonneg g →
  nodeExists g start = true → nodeExists g goal = true →
  exact_sums g start →
  (length (graph_ g) < fuel)%nat →
  ∃ result,
    solveDijkstra fuel g start goal solution =
      Done (match result with Some p => (true, p) | None => (false, []) end) ∧
    search_post g (zero_heuristic (length (graph_ g))) start goal result.
Proof.
  intros Htargets Hnonneg Hstart Hgoal Hexact Hfuel.
  destruct (solveAStar_post (λ g _, (true, zero_heuristic (length (graph_ g))))
              g _ start goal fuel [] Htargets Hnonneg eq_refl
              (zero_heuristic_total g) (zero_heuristic_consistent g Hnonneg)
              Hstart Hgoal Hexact (zero_heuristic_exact g start Hexact) Hfuel)
    as (result & Hrun & Hpost).
  exists result. split; [|done]. rewrite <- Hrun. symmetry.
  by apply solveDijkstra_astar.
Qed.

Lemma admissible_goal g (goal : N) (heuristic : Heuristic) :
  total_on g heuristic → admissible g goal heuristic → nodeExists g goal = true →
  ∃ hg, heuristic !! goal = Some hg ∧ hg <= 0.
Proof.
  intros Htotal Hadm Hgoal. destruct (Htotal goal Hgoal) as [hg Hhg].
  exists hg. split; [done|]. apply (Hadm goal hg 0 Hhg). constructor.
Qed.

Lemma cheapest_same_cost g (start goal : N) (p q : Solution) :
  cheapest g start goal p → cheapest g start goal q →
  ∃ cp cq, solution_cost g p = Some cp ∧ solution_cost g q = Some cq ∧ cp == cq.
Proof.
  intros (_ & _ & cp & Hcp & (p0 & Hp0 & Hp0eq) & Hpmin)
         (_ & _ & cq & Hcq & (q0 & Hq0 & Hq0eq) & Hqmin).
  exists cp, cq. split; [done|]. split; [done|].
  pose proof (Hpmin q0 Hq0). pose proof (Hqmin p0 Hp0). lra.
Qed.

Lemma consistent_on_spec g (heuristic : Heuristic) :
  consistent_on g heuristic = true → total_on g heuristic ∧ consistent g heuristic.
Proof.
  unfold consistent_on. rewrite forallb_forall. intros H.
  assert (∀ u, nodeExists g u = true →
            ∃ r hu, graph_ g !! N.to_nat u = Some r ∧ heuristic !! u = Some hu ∧
              ∀ v w hv, r !! v = Some w → heuristic !! v = Some hv → hu <= w + hv) as H'.
  { intros u Hu%nodeExists_lt.
    assert (In (N.to_nat u) (seq 0 (length (graph_ g)))) as Hin by (apply in_seq; lia).
    apply H in Hin. rewrite N2Nat.id in Hin.
    destruct (graph_ g !! N.to_nat u) as [r|]; [|done].
    destruct (heuristic !! u) as [hu|]; [|done].
    exists r, hu. split; [done|]. split; [done|]. intros v w hv Hv Hhv.
    rewrite forallb_forall in Hin.
    assert (In (v, w) (map_to_list r)) as Hin'
      by (apply list_elem_of_In; by apply elem_of_map_to_list).
    apply Hin in Hin'. simpl in Hin'. rewrite Hhv in Hin'. by apply Qle_bool_iff. }
  split.
  - intros u Hu. destruct (H' u Hu) as (_ & hu & _ & Hhu & _). eauto.
  - intros u v w hu hv He Hhu Hhv.
    destruct (H' u (edge_source _ _ _ _ He)) as (r & hu' & Hr & Hhu' & Hle).
    destruct He as (r' & Hr' & Hv). simplify_eq. eauto.
Qed.

(** A consistent estimate that is not positive at the goal is admissible. *)
Lemma consistent_admissible g (goal : N) (heuristic : Heuristic) hg :
  total_on g heuristic → consistent g heuristic →
  heuristic !! goal = Some hg → hg <= 0 →
  admissible g goal heuristic.
Proof.
  intros Htotal Hcons Hhg Hhg0 v hv c Hhv Hp.
  assert (∀ x hx, heuristic !! x = Some hx → path g v x c → hv <= c + hx) as Hgen.
  { clear Hp. intros x hx Hhx Hp. revert hx Hhx.
    induction Hp as [|y x c w Hp IH He]; intros hx Hhx.
    - assert (hx = hv) as -> by congruence. lra.
    - destruct (Htotal y (edge_source _ _ _ _ He)) as [hy Hhy].
      pose proof (IH hy Hhy). pose proof (Hcons y x w hy hx He Hhy Hhx). lra. }
  pose proof (Hgen goal hg Hhg Hp). lra.
Qed.

(** The test [sums_exact_from] is sound. *)
Lemma sums_exact_from_spec g (heuristic : Heuristic) (fuel : nat) :
  ∀ u c0 p c u',
  sums_exact_from fuel g heuristic u c0 = true →
  (length p ≤ S fuel)%nat → head p = Some u → last p = Some u' →
  solution_cost g p = Some c →
  (∀ hu, heuristic !! u' = Some hu → dadd (c0 + c) hu == c0 + c + hu) ∧
  (∀ v w, edge g u' v w → dadd (c0 + c) w == c0 + c + w ∧ c0 + c + w < DBL_MAX).
Proof.
  induction fuel as [|fuel IH]; intros u c0 p c u' Hok Hlen Hhead Hlast Hc.
  - destruct p as [|x [|y p]]; [done| |simpl in Hlen; lia].
    injection Hhead as ->. injection Hlast as ->. injection Hc as <-.
    simpl in Hok. apply andb_prop in Hok as [Hest Hsum]. split.
    + intros hu Hhu. rewrite Hhu in Hest. apply Qeq_bool_iff in Hest.
      rewrite (dadd_comp (c0 + 0) c0 hu hu) by lra. lra.
    + intros v w (r & Hr & Hv). rewrite Hr in Hsum. rewrite forallb_forall in Hsum.
      assert (In (v, w) (map_to_list r)) as Hin
        by (apply list_elem_of_In; by apply elem_of_map_to_list).
      apply Hsum in Hin. simpl in Hin. rewrite andb_true_r in Hin.
      apply andb_prop in Hin as [Hex%Qeq_bool_iff Hlt%Qltb_lt].
      rewrite (dadd_comp (c0 + 0) c0 w w) by lra. split; lra.
  - destruct p as [|x [|y p]]; [done| |].
    + injection Hhead as ->. injection Hlast as ->. injection Hc as <-.
      simpl in Hok. apply andb_prop in Hok as [Hest Hsum]. split.
      * intros hu Hhu. rewrite Hhu in Hest. apply Qeq_bool_iff in Hest.
        rewrite (dadd_comp (c0 + 0) c0 hu hu) by lra. lra.
      * intros v w (r & Hr & Hv). rewrite Hr in Hsum. rewrite forallb_forall in Hsum.
        assert (In (v, w) (map_to_list r)) as Hin
          by (apply list_elem_of_In; by apply elem_of_map_to_list).
        apply Hsum in Hin. simpl in Hin.
        apply andb_prop in Hin as [[Hex%Qeq_bool_iff Hlt%Qltb_lt]%andb_prop _].
        rewrite (dadd_comp (c0 + 0) c0 w w) by lra. split; lra.
    + injection Hhead as ->. rewrite solution_cost_cons in Hc.
      destruct (getEdgeCost g (u, y)).1 eqn:Huy; [|done].
      destruct (solution_cost g (y :: p)) as [c1|] eqn:Hc1; [|done].
      injection Hc as <-.
      pose proof (getEdgeCost_edge g u y Huy) as (r & Hr & Hy).
      simpl in Hok. apply andb_prop in Hok as [_ Hsum].
      rewrite Hr in Hsum. rewrite forallb_forall in Hsum.
      assert (In (y, (getEdgeCost g (u, y)).2) (map_to_list r)) as Hin
        by (apply list_elem_of_In; by apply elem_of_map_to_list).
      apply Hsum in Hin. simpl in Hin. apply andb_prop in Hin as [_ Hnext].
      destruct (IH y (c0 + (getEdgeCost g (u, y)).2) (y :: p) c1 u' Hnext)
        as [Hest' Hsum']; [simpl in *; lia|done|by rewrite last_cons_cons in Hlast|done|].
      set (w0 := (getEdgeCost g (u, y)).2) in *.
      split.
      * intros hu Hhu. rewrite (dadd_comp (c0 + (w0 + c1)) (c0 + w0 + c1) hu hu) by lra.
        rewrite (Hest' hu Hhu). lra.
      * intros v w He. destruct (Hsum' v w He) as [Hex Hlt].
        rewrite (dadd_comp (c0 + (w0 + c1)) (c0 + w0 + c1) w w) by lra. split; lra.
Qed.

Lemma sums_exact_spec g (heuristic : Heuristic) (start : N) :
  sums_exact_from (length (graph_ g) - 1) g heuristic start 0 = true →
  exact_sums g start ∧ exact_estimates g heuristic start.
Proof.
  intros Hok. split.
  - intros p c u v w Hlen Hhead Hlast Hc He.
    destruct (sums_exact_from_spec g heuristic _ start 0 p c u Hok) as [_ Hsum];
      [lia|done..|].
    destruct (Hsum v w He) as [Hex Hlt].
    rewrite (dadd_comp c (0 + c) w w) by lra. split; lra.
  - intros p c u hu Hlen Hhead Hlast Hc Hhu.
    destruct (sums_exact_from_spec g heuristic _ start 0 p c u Hok) as [Hest _];
      [lia|done..|].
    rewrite (dadd_comp c (0 + c) hu hu) by lra. rewrite (Hest hu Hhu). lra.
Qed.


(** C2, as amended.  On a graph whose adjacency entries all point to
    existing nodes, when the heuristic hook succeeds with an admissible
    estimate for every node, [solveAStar] succeeds exactly when
    [solveDijkstra] does.  When moreover the costs are non-negative, the
    estimate is consistent and no sum that the searches form is rounded or
    reaches [DBL_MAX], both return a cheapest path, so the two paths have
    the same total cost. *)
Theorem solveAStar_agrees (calculateHeuristic : @GraphBase NodeProperty EdgeProperty → N → bool * Heuristic)
    g (heuristic : Heuristic) (start goal : N) (fuel : nat) (solution : Solution) :
  targets_exist g →
  nodeExists g start = true → nodeExists g goal = true →
  calculateHeuristic g goal = (true, heuristic) →
  total_on g heuristic → admissible g goal heuristic →
  (length (graph_ g) < fuel)%nat →
  ∃ ra rd,
    solveAStar calculateHeuristic fuel g start goal solution = Done ra ∧
    solveDijkstra fuel g start goal solution = Done rd ∧
    ra.1 = rd.1 ∧
    (costs_nonneg g → consistent g heuristic →
     exact_sums g start → exact_estimates g heuristic start →
     ra.1 = true →
     cheapest g start goal ra.2 ∧ cheapest g start goal rd.2 ∧
     ∃ ca cd, solution_cost g ra.2 = Some ca ∧ solution_cost g rd.2 = Some cd ∧ ca == cd).
Proof.
  intros Htargets Hstart Hgoal Hcalc Htotal Hadm Hfuel.
  destruct (solveAStar_reach calculateHeuristic g heuristic start goal fuel solution
              Htargets Hstart Hgoal Hcalc Htotal Hfuel) as (resa & Hruna & Hiffa).
  destruct (solveDijkstra_reach g start goal fuel solution Htargets Hstart Hgoal Hfuel)
    as (resd & Hrund & Hiffd).
  eexists _, _. split; [exact Hruna|]. split; [exact Hrund|]. split.
  { destruct resa as [pa|], resd as [pd|]; simpl; [done| | |done].
    - assert (is_Some (@None Solution)) as [? ?]; [|done]. apply Hiffd, Hiffa. eauto.
    - assert (is_Some (@None Solution)) as [? ?]; [|done]. apply Hiffa, Hiffd. eauto. }
  intros Hnonneg Hcons Hexact Hest Htrue.
  destruct (solveAStar_post calculateHeuristic g heuristic start goal fuel solution
              Htargets Hnonneg Hcalc Htotal Hcons Hstart Hgoal Hexact Hest Hfuel)
    as (resa' & Hruna' & Hposta).
  destruct (solveDijkstra_post g start goal fuel solution Htargets Hnonneg Hstart Hgoal
              Hexact Hfuel)
    as (resd' & Hrund' & Hpostd).
  rewrite Hruna in Hruna'. rewrite Hrund in Hrund'.
  destruct (admissible_goal g goal heuristic Htotal Hadm Hgoal) as (hg & Hhg & Hhg0).
  destruct (zero_heuristic_total g goal Hgoal) as [zg Hzg].
  pose proof Hzg as ->%zero_heuristic_value.
  destruct resa as [pa|]; [|done].
  destruct resa' as [pa'|]; [|done].
  assert (pa' = pa) as -> by congruence.
  destruct resd as [pd|].
  2:{ assert (is_Some (@None Solution)) as [? ?]; [|done]. apply Hiffd, Hiffa. eauto. }
  destruct resd' as [pd'|]; [|done].
  assert (pd' = pd) as -> by congruence.
  simpl in *. destruct Hposta as [_ Hposta], Hpostd as [_ Hpostd].
  assert (cheapest g start goal pa) as Ha by eauto.
  assert (cheapest g start goal pd) as Hd by (apply (Hpostd 0 Hzg); lra).
  split; [done|]. split; [done|].
  exact (cheapest_same_cost g start goal pa pd Ha Hd).
Qed.

End Properties.

(** ** The operations on concrete graphs *)

Import Scenario.

Lemma diamond_rows (u : N) (neighbors : gmap N Q) :
  graph_ diamond !! N.to_nat u = Some neighbors → (u = 0 ∨ u = 1 ∨ u = 2 ∨ u = 3)%N.
Proof.
  intros H%lookup_lt_Some.
  assert (length (graph_ diamond) = 4%nat) as Hlen by (vm_compute; reflexivity).
  rewrite Hlen in H. lia.
Qed.

Lemma getAdjacencyMatrix_cells_witness :
  (∀ e : EdgeId, edgeExists diamond e = true → nodeExists diamond e.2 = true →
     fits_int (dmul (getEdgeCost diamond e).2 kToMilliIntFactor)) ∧
  (0 < length (graph_ diamond))%nat ∧ (2 < length (graph_ diamond))%nat ∧
  ∃ m line cell, getAdjacencyMatrix diamond = Some m ∧ m !! 0%nat = Some line ∧
    line !! 2%nat = Some cell ∧
    nearest_away (dmul (getEdgeCost diamond (0%N, 2%N)).2 kToMilliIntFactor) cell.
Proof.
  assert (∀ e : EdgeId, edgeExists diamond e = true → nodeExists diamond e.2 = true →
            fits_int (dmul (getEdgeCost diamond e).2 kToMilliIntFactor)) as Hfits.
  { intros [u v] (r & c & Hr & Hc)%edgeExists_lookup _. simpl in Hr, Hc.
    rewrite (getEdgeCost_lookup diamond (u, v) r c Hr Hc). simpl.
    assert (edge diamond u v c) as He by (by exists r).
    destruct (diamond_rows u r Hr) as [-> | [-> | [-> | ->]]]; edge_cases He;
      vm_compute; split; reflexivity. }
  assert (0 < length (graph_ diamond))%nat as H0 by (vm_compute; lia).
  assert (2 < length (graph_ diamond))%nat as H2 by (vm_compute; lia).
  split; [exact Hfits|]. split; [exact H0|]. split; [exact H2|].
  destruct (getAdjacencyMatrix_cells diamond 0 2 Hfits H0 H2)
    as (m & line & cell & Hm & _ & Hl & _ & Hc & _ & Hnear & _).
  exists m, line, cell. split; [exact Hm|]. split; [exact Hl|]. split; [exact Hc|].
  apply Hnear. vm_compute. reflexivity.
Defined.

(** C6, as stated, fails when an edge cost times 1000 is beyond [INT_MAX]:
    the cell is an [int] and cannot hold the rounded product. *)
Lemma getAdjacencyMatrix_overflow :
  costs_nonneg far_edge ∧ targets_exist far_edge ∧
  getEdgeCost far_edge (0%N, 0%N) = (true, 4194304) ∧
  is_double 4194304 ∧ dmul 4194304 kToMilliIntFactor == 4194304000 ∧
  round_half_away (dmul 4194304 kToMilliIntFactor) = 4194304000%Z ∧
  (INT_MAX < 4194304000)%Z ∧
  doubleToMilliInt 4194304 = None ∧
  getAdjacencyMatrix far_edge = None.
Proof.
  assert (targets_exist far_edge ∧ costs_nonneg far_edge) as [Ht Hc]
    by (apply well_formed_spec; vm_compute; reflexivity).
  split; [exact Hc|]. split; [exact Ht|].
  repeat split; vm_compute; reflexivity.
Qed.

Lemma costs_nonneg_invariant_witness :
  costs_nonneg diamond ∧
  costs_nonneg (perform no_edges (OpAddEdge (3%N, 0%N) 0%N (1 # 2)) diamond).
Proof.
  assert (costs_nonneg diamond) as H.
  { unfold diamond, with_edges. cbn [fold_left fst snd isolated].
    repeat first [apply addEdge_costs_nonneg | apply addNode_costs_nonneg].
    intros i r j c Hi. destruct i; discriminate Hi. }
  split; [exact H|].
  apply (costs_nonneg_invariant no_edges (OpAddEdge (3%N, 0%N) 0%N (1 # 2)) diamond H).
Defined.

Lemma unset_markers_fail_witness :
  (graph_size (clear diamond) <= SIZE_MAX)%N ∧
  solveDijkstra0 0 (clear diamond) [7%N] = Done (false, []) ∧
  solveAStar0 zero_estimate 0 (clear diamond) [7%N] = Done (false, [7%N]).
Proof.
  assert (graph_size (clear diamond) <= SIZE_MAX)%N as H by (vm_compute; discriminate).
  split; [exact H|].
  apply (unset_markers_fail zero_estimate (clear diamond) 0 [7%N] H); reflexivity.
Defined.

Lemma failure_solution_witness :
  ∃ s1 s2 : Solution,
    solveDijkstra 3 (isolated 2) 0 1 [7%N] = Done (false, s1) ∧
    solveAStar zero_estimate 3 (isolated 2) 0 1 [7%N] = Done (false, s2) ∧
    s1 = [] ∧ s2 = [7%N].
Proof.
  assert (solveDijkstra 3 (isolated 2) 0 1 [7%N] = Done (false, [])) as H1
    by (vm_compute; reflexivity).
  assert (solveAStar zero_estimate 3 (isolated 2) 0 1 [7%N] = Done (false, [7%N])) as H2
    by (vm_compute; reflexivity).
  exists [], [7%N]. split; [exact H1|]. split; [exact H2|]. split.
  - exact (proj1 (failure_solution zero_estimate (isolated 2) 3 0 1 [7%N] []) H1).
  - exact (proj2 (failure_solution zero_estimate (isolated 2) 3 0 1 [7%N] [7%N]) H2).
Defined.

(** C4.  A second [addEdge] on an existing edge succeeds and replaces the
    stored cost, and the stored edge property stays the first one:
    [std::map::insert] does not overwrite. *)
Theorem addEdge_overwrite_keeps_property :
  let g1 := (addEdge (0%N, 0%N) 1%N 1 (isolated 1)).2 in
  let r := addEdge (0%N, 0%N) 2%N 2 g1 in
  getEdgeProperty g1 (0%N, 0%N) = Some 1%N ∧
  r.1 = true ∧
  getEdgeCost r.2 (0%N, 0%N) = (true, 2) ∧
  getEdgeProperty r.2 (0%N, 0%N) = Some 1%N.
Proof. vm_compute. repeat split; reflexivity. Qed.

(** C5.  With the default [addEdges] hook, [addStartNode] and [addGoalNode]
    on a fresh graph fail and leave the marker at index 0, which is no
    node. *)
Theorem failed_insertion_moves_marker :
  let rs := addStartNode addEdges_base 0%N empty_graph in
  let rg := addGoalNode addEdges_base 0%N empty_graph in
  start_idx_ empty_graph = SIZE_MAX ∧ goal_idx_ empty_graph = SIZE_MAX ∧
  rs.1 = false ∧ start_idx_ rs.2 = 0%N ∧ nodeExists rs.2 (start_idx_ rs.2) = false ∧
  rg.1 = false ∧ goal_idx_ rg.2 = 0%N ∧ nodeExists rg.2 (goal_idx_ rg.2) = false.
Proof. vm_compute. repeat split; reflexivity. Qed.

(** C3.  A hook that adds the edge from node 0 to the new node and then
    fails: [addNode] returns false, the node and its property are gone, and
    the edge and its property stay. *)
Theorem addNode_failure_keeps_hook_edges :
  let g := isolated 1 in
  let r := addNode edge_then_fail 0%N g in
  r.1 = false ∧
  length (graph_ r.2) = length (graph_ g) ∧
  node_properties_ r.2 = node_properties_ g ∧
  graph_ g = [∅] ∧ graph_ r.2 = [{[1%N := 1]}] ∧
  edgeExists g (0%N, 1%N) = false ∧ edgeExists r.2 (0%N, 1%N) = true ∧
  edgePropertyExists g (0%N, 1%N) = false ∧ edgePropertyExists r.2 (0%N, 1%N) = true ∧
  nodeExists r.2 1%N = false.
Proof. vm_compute. repeat split; reflexivity. Qed.

(** ** The searches on concrete graphs *)

Lemma diamond_well_formed : targets_exist diamond ∧ costs_nonneg diamond.
Proof. apply well_formed_spec. vm_compute. reflexivity. Qed.

Lemma diamond_path : path diamond 0 3 (0 + 1 + 1 + 1).
Proof.
  apply path_step with 2%N; [|concrete_edge].
  apply path_step with 1%N; [|concrete_edge].
  apply path_step with 0%N; [|concrete_edge].
  constructor.
Qed.

Lemma diamond_exact_sums :
  exact_sums diamond 0 ∧ exact_estimates diamond (diamond_estimate diamond 3).2 0.
Proof. apply sums_exact_spec. vm_compute. reflexivity. Qed.


Lemma diamond_estimate_consistent :
  total_on diamond (diamond_estimate diamond 3).2 ∧
  consistent diamond (diamond_estimate diamond 3).2.
Proof. apply consistent_on_spec. vm_compute. reflexivity. Qed.

Lemma solveAStar_agrees_witness :
  targets_exist diamond ∧ costs_nonneg diamond ∧
  total_on diamond (diamond_estimate diamond 3).2 ∧
  admissible diamond 3 (diamond_estimate diamond 3).2 ∧
  consistent diamond (diamond_estimate diamond 3).2 ∧
  exact_sums diamond 0 ∧ exact_estimates diamond (diamond_estimate diamond 3).2 0 ∧
  ∃ ra rd,
    solveAStar diamond_estimate 5 diamond 0 3 [7%N] = Done ra ∧
    solveDijkstra 5 diamond 0 3 [7%N] = Done rd ∧
    ra.1 = rd.1 ∧ ra.1 = true ∧
    ∃ ca cd, solution_cost diamond ra.2 = Some ca ∧
             solution_cost diamond rd.2 = Some cd ∧ ca == cd.
Proof.
  destruct diamond_well_formed as [Ht Hc].
  destruct diamond_estimate_consistent as [Htot Hcons].
  destruct diamond_exact_sums as [Hexact Hest].
  assert (admissible diamond 3 (diamond_estimate diamond 3).2) as Hadm.
  { apply consistent_admissible with 0; [exact Htot|exact Hcons|reflexivity|lra]. }
  split; [exact Ht|]. split; [exact Hc|]. split; [exact Htot|].
  split; [exact Hadm|]. split; [exact Hcons|]. split; [exact Hexact|]. split; [exact Hest|].
  destruct (solveAStar_agrees diamond_estimate diamond (diamond_estimate diamond 3).2
              0 3 5 [7%N] Ht eq_refl eq_refl eq_refl Htot Hadm)
    as (ra & rd & Ha & Hd & Hsame & Hcost); [vm_compute; lia|].
  assert (ra.1 = true) as Htrue.
  { assert (solveAStar diamond_estimate 5 diamond 0 3 [7%N] = Done (true, [0; 1; 2; 3]%N)) as Hrun
      by (vm_compute; reflexivity).
    rewrite Hrun in Ha. injection Ha as <-. reflexivity. }
  exists ra, rd. split; [exact Ha|]. split; [exact Hd|]. split; [exact Hsame|].
  split; [exact Htrue|].
  destruct (Hcost Hc Hcons Hexact Hest Htrue) as (_ & _ & Heq).
  exact Heq.
Defined.

(** C1, as stated, fails on a graph with an adjacency entry that points to
    no node: node 0 has the entries 1 (cost 1) and 5 (cost 1), and there are
    two nodes.  Node 5 enters the open set with [cost[5]] read as 0, is
    picked before node 1, and [graph_[5]] is out of range. *)
Lemma dangling_costs_nonneg : costs_nonneg dangling.
Proof.
  unfold dangling, with_edges. cbn [fold_left fst snd isolated].
  repeat first [apply addEdge_costs_nonneg | apply addNode_costs_nonneg].
  intros i r j c Hi. destruct i; discriminate Hi.
Qed.


(** The same claim fails also on a well-formed graph when no path stays
    below [DBL_MAX]: with one edge of cost [DBL_MAX] from node 0 to node 1
    the goal enters the open set without a predecessor, and the returned
    sequence is the goal alone. *)
Lemma solveDijkstra_sentinel_cost :
  targets_exist huge_edge ∧ costs_nonneg huge_edge ∧
  path huge_edge 0 1 (0 + DBL_MAX) ∧
  solveDijkstra 3 huge_edge 0 1 [] = Done (true, [1%N]).
Proof.
  split; [apply well_formed_spec; vm_compute; reflexivity|].
  split; [apply well_formed_spec; vm_compute; reflexivity|].
  split.
  { apply path_step with 0%N; [constructor|concrete_edge]. }
  vm_compute. reflexivity.
Qed.

Lemma plateau_well_formed : targets_exist plateau ∧ costs_nonneg plateau.
Proof. apply well_formed_spec. vm_compute. reflexivity. Qed.

(** And it fails on a well-formed graph whose costs are doubles far below
    [DBL_MAX] when a sum is rounded.  In [plateau] the search adds 1 to 2^53
    three times and gets 2^53 each time, takes 0, 2, 3, 4, 1 for cheaper
    than the edge from node 0 to node 1, and returns it; its cost is
    2^53 + 3, and the edge costs 2^53 + 2. *)
Lemma solveDijkstra_rounded_sum :
  targets_exist plateau ∧ costs_nonneg plateau ∧
  is_double (inject_Z (2 ^ 53 + 2)) ∧ is_double (inject_Z (2 ^ 53)) ∧ is_double 1 ∧
  dadd (inject_Z (2 ^ 53)) 1 == inject_Z (2 ^ 53) ∧
  solveDijkstra 6 plateau 0 1 [] = Done (true, [0; 2; 3; 4; 1]%N) ∧
  ∃ c d, solution_cost plateau [0; 2; 3; 4; 1]%N = Some c ∧
         solution_cost plateau [0; 1]%N = Some d ∧
         c == inject_Z (2 ^ 53 + 3) ∧ d == inject_Z (2 ^ 53 + 2) ∧ d < c.
Proof.
  destruct plateau_well_formed as [Ht Hc].
  split; [exact Ht|]. split; [exact Hc|].
  split; [vm_compute; reflexivity|]. split; [vm_compute; reflexivity|].
  split; [vm_compute; reflexivity|]. split; [vm_compute; reflexivity|].
  split; [vm_compute; reflexivity|].
  eexists _, _. split; [vm_compute; reflexivity|]. split; [vm_compute; reflexivity|].
  repeat split; reflexivity.
Qed.

Lemma detour_well_formed : targets_exist detour ∧ costs_nonneg detour.
Proof. apply well_formed_spec. vm_compute. reflexivity. Qed.

Lemma detour_paths_from_1 x c :
  path detour 1 x c → (x = 1%N ∧ 0 <= c) ∨ (x = 2%N ∧ 1 <= c) ∨ (x = 3%N ∧ 11 <= c).
Proof.
  induction 1 as [|v x c w Hp IH He].
  - left. split; [done|lra].
  - destruct IH as [[-> Hc]|[[-> Hc]|[-> Hc]]]; edge_cases He.
    + right; left. split; [done|]. lra.
    + right; right. split; [done|]. lra.
Qed.

(** C2, as stated, fails for an estimate that is admissible and not
    consistent.  In [detour] the estimate 11 at node 1 is exact, the others
    are zero; node 2 is closed at cost 3 before node 1 is expanded, the
    cheaper way to node 2 through node 1 is then ignored, and [solveAStar]
    returns 0, 2, 3 at cost 13 where [solveDijkstra] returns 0, 1, 2, 3 at
    cost 12. *)
Lemma solveAStar_inconsistent_estimate :
  targets_exist detour ∧ costs_nonneg detour ∧
  total_on detour (detour_estimate detour 3).2 ∧
  admissible detour 3 (detour_estimate detour 3).2 ∧
  solveAStar detour_estimate 5 detour 0 3 [] = Done (true, [0; 2; 3]%N) ∧
  solveDijkstra 5 detour 0 3 [] = Done (true, [0; 1; 2; 3]%N) ∧
  ∃ ca cd, solution_cost detour [0; 2; 3]%N = Some ca ∧
           solution_cost detour [0; 1; 2; 3]%N = Some cd ∧
           ca == 13 ∧ cd == 12.
Proof.
  destruct detour_well_formed as [Ht Hc].
  split; [exact Ht|]. split; [exact Hc|]. split.
  { intros v Hv%nodeExists_lt.
    assert (length (graph_ detour) = 4%nat) as Hlen by (vm_compute; reflexivity).
    rewrite Hlen in Hv.
    assert (v = 0 ∨ v = 1 ∨ v = 2 ∨ v = 3)%N as [-> | [-> | [-> | ->]]] by lia;
      vm_compute; eauto. }
  split.
  { intros v hv c Hhv Hp. pose proof (path_nonneg _ _ _ _ Hc Hp) as Hc0.
    apply elem_of_map_to_list, list_elem_of_In in Hhv. vm_compute in Hhv.
    repeat (destruct Hhv as [Hhv|Hhv]; [injection Hhv as <- <-|]); try contradiction;
      try exact Hc0.
    apply detour_paths_from_1 in Hp as [[? _]|[[? _]|[_ Hp]]]; [done|done|exact Hp]. }
  split; [vm_compute; reflexivity|]. split; [vm_compute; reflexivity|].
  eexists _, _. split; [vm_compute; reflexivity|]. split; [vm_compute; reflexivity|].
  split; reflexivity.
Qed.

(** Nor does a consistent estimate give equal costs when a sum is rounded.
    In [plateau], with the exact remaining costs as estimate, the key of
    node 2 is 2^53 + 3 rounded, which is 2^53 + 4; [solveAStar] picks node 1
    at key 2^53 + 2 and returns 0, 1, while [solveDijkstra] returns
    0, 2, 3, 4, 1, whose cost is 2^53 + 3. *)
Lemma solveAStar_rounded_sum :
  total_on plateau (plateau_estimate plateau 1).2 ∧
  admissible plateau 1 (plateau_estimate plateau 1).2 ∧
  consistent plateau (plateau_estimate plateau 1).2 ∧
  solveAStar plateau_estimate 6 plateau 0 1 [] = Done (true, [0; 1]%N) ∧
  solveDijkstra 6 plateau 0 1 [] = Done (true, [0; 2; 3; 4; 1]%N) ∧
  ∃ ca cd, solution_cost plateau [0; 1]%N = Some ca ∧
           solution_cost plateau [0; 2; 3; 4; 1]%N = Some cd ∧
           ca == inject_Z (2 ^ 53 + 2) ∧ cd == inject_Z (2 ^ 53 + 3).
Proof.
  assert (total_on plateau (plateau_estimate plateau 1).2 ∧
          consistent plateau (plateau_estimate plateau 1).2) as [Htot Hcons]
    by (apply consistent_on_spec; vm_compute; reflexivity).
  split; [exact Htot|]. split.
  { apply consistent_admissible with 0; [exact Htot|exact Hcons|reflexivity|lra]. }
  split; [exact Hcons|].
  split; [vm_compute; reflexivity|]. split; [vm_compute; reflexivity|].
  eexists _, _. split; [vm_compute; reflexivity|]. split; [vm_compute; reflexivity|].
  split; reflexivity.
Qed.

(** On a graph with an adjacency entry that points to no node the two
    searches do not succeed together: in [dangling], with the estimate 0 at
    node 0 and -1 at the goal, [solveAStar] picks the goal first and returns
    0, 1, and [solveDijkstra] picks index 5 first and indexes the graph out
    of range. *)
Lemma solveAStar_dangling_edge :
  total_on dangling (dangling_estimate dangling 1).2 ∧
  admissible dangling 1 (dangling_estimate dangling 1).2 ∧
  solveAStar dangling_estimate 3 dangling 0 1 [] = Done (true, [0; 1]%N) ∧
  solveDijkstra 3 dangling 0 1 [] = OutOfBounds.
Proof.
  split.
  { intros v Hv%nodeExists_lt.
    assert (length (graph_ dangling) = 2%nat) as Hlen by (vm_compute; reflexivity).
    rewrite Hlen in Hv.
    assert (v = 0 ∨ v = 1)%N as [-> | ->] by lia; vm_compute; eauto. }
  split.
  { intros v hv c Hhv Hp.
    pose proof dangling_costs_nonneg as Hc.
    pose proof (path_nonneg _ _ _ _ Hc Hp) as Hc0.
    apply elem_of_map_to_list, list_elem_of_In in Hhv. vm_compute in Hhv.
    repeat (destruct Hhv as [Hhv|Hhv]; [injection Hhv as <- <-|]); try contradiction; lra. }
  split; vm_compute; reflexivity.
Qed.

(** * Further properties of the graph operations *)

Section Bookkeeping.

Context {NodeProperty EdgeProperty : Type}.

Implicit Types g : @GraphBase NodeProperty EdgeProperty.

Variable addEdges : @GraphBase NodeProperty EdgeProperty → list (@edge_call EdgeProperty) * bool.

(** ** Nodes and their properties *)

Lemma nodes_paired_ext g g' :
  node_properties_ g' = node_properties_ g → length (graph_ g') = length (graph_ g) →
  nodes_paired g → nodes_paired g'.
Proof.
  intros Hnp Hlen Hg i. specialize (Hg i).
  unfold nodePropertyExists, nodeExists, graph_size in *. by rewrite Hnp, Hlen.
Qed.

Lemma nodes_paired_fresh g : nodes_paired g → node_properties_ g !! graph_size g = None.
Proof.
  intros Hg. specialize (Hg (graph_size g)).
  unfold nodePropertyExists, nodeExists in Hg. rewrite N.ltb_irrefl in Hg.
  apply bool_decide_eq_false in Hg. by apply eq_None_not_Some.
Qed.

Lemma addNode_success_shape (p : NodeProperty) g :
  (addNode addEdges p g).1 = true →
  length (graph_ (addNode addEdges p g).2) = S (length (graph_ g)) ∧
  node_properties_ (addNode addEdges p g).2 =
    map_emplace (graph_size g) p (node_properties_ g) ∧
  start_idx_ (addNode addEdges p g).2 = start_idx_ g ∧
  goal_idx_ (addNode addEdges p g).2 = goal_idx_ g.
Proof.
  unfold addNode, run_hook. set (g2 := set_node_properties _ _).
  assert ((graph_size (set_graph (graph_ g ++ [∅]) g) - 1)%N = graph_size g) as Hidx.
  { unfold graph_size. simpl. rewrite length_app. simpl. lia. }
  destruct (addEdges g2).2 eqn:Hok; simpl; [|done]. intros _.
  pose proof (run_calls_length (addEdges g2).1 g2) as Hlen.
  pose proof (run_calls_node_properties (addEdges g2).1 g2) as Hnp.
  pose proof (run_calls_markers (addEdges g2).1 g2) as [Hs Hg].
  repeat split.
  - rewrite Hlen. subst g2. simpl. rewrite length_app. simpl. lia.
  - rewrite Hnp. subst g2. simpl. by rewrite Hidx.
  - by rewrite Hs.
  - by rewrite Hg.
Qed.

(** X1.  A successful [addNode] on a graph whose properties are paired with
    its nodes appends exactly one node: the new index is the old node count,
    it exists and carries the given property, and every node that existed
    keeps its index and its property. *)
Theorem addNode_success (p : NodeProperty) g :
  nodes_paired g →
  (addNode addEdges p g).1 = true →
  let g' := (addNode addEdges p g).2 in
  graph_size g' = (graph_size g + 1)%N ∧
  nodeExists g' (graph_size g) = true ∧
  getNodeProperty g' (graph_size g) = Some p ∧
  ∀ i, nodeExists g i = true →
       nodeExists g' i = true ∧ getNodeProperty g' i = getNodeProperty g i.
Proof.
  intros Hpaired Hok. simpl.
  destruct (addNode_success_shape p g Hok) as (Hlen & Hnp & _ & _).
  pose proof (nodes_paired_fresh g Hpaired) as Hfresh.
  assert (node_properties_ (addNode addEdges p g).2 = <[graph_size g := p]> (node_properties_ g))
    as Hnp'.
  { rewrite Hnp. unfold map_emplace. by rewrite Hfresh. }
  split; [unfold graph_size; rewrite Hlen; lia|].
  split; [unfold nodeExists, graph_size; rewrite Hlen; apply N.ltb_lt; lia|].
  split.
  - unfold getNodeProperty, nodePropertyExists. rewrite Hnp', lookup_insert_eq.
    rewrite bool_decide_eq_true_2; eauto.
  - intros i Hi. split.
    + apply nodeExists_lt. rewrite Hlen. apply nodeExists_lt in Hi. lia.
    + assert (i ≠ graph_size g) as Hne.
      { intros ->. unfold nodeExists in Hi. by rewrite N.ltb_irrefl in Hi. }
      unfold getNodeProperty, nodePropertyExists. rewrite Hnp'.
      by rewrite lookup_insert_ne.
Qed.

(** X2.  A failed [addNode] restores the node count and both markers, and,
    when the index of the new node carried no property before, the whole
    node-property table. *)
Theorem addNode_rollback (p : NodeProperty) g :
  (addNode addEdges p g).1 = false →
  graph_size (addNode addEdges p g).2 = graph_size g ∧
  start_idx_ (addNode addEdges p g).2 = start_idx_ g ∧
  goal_idx_ (addNode addEdges p g).2 = goal_idx_ g ∧
  (node_properties_ g !! graph_size g = None →
   node_properties_ (addNode addEdges p g).2 = node_properties_ g).
Proof.
  intros Hfail.
  destruct (addNode_failure_nodes addEdges p g Hfail) as (Hlen & Hs & Hg & Hnp).
  unfold graph_size. rewrite Hlen. done.
Qed.

(** X3.  A successful [addStartNode] leaves the start marker on the node it
    added and the goal marker where it was; [addGoalNode] does the same with
    the roles exchanged. *)
Theorem marker_on_success (p : NodeProperty) g :
  ((addStartNode addEdges p g).1 = true →
   start_idx_ (addStartNode addEdges p g).2 = graph_size g ∧
   nodeExists (addStartNode addEdges p g).2 (start_idx_ (addStartNode addEdges p g).2) = true ∧
   goal_idx_ (addStartNode addEdges p g).2 = goal_idx_ g) ∧
  ((addGoalNode addEdges p g).1 = true →
   goal_idx_ (addGoalNode addEdges p g).2 = graph_size g ∧
   nodeExists (addGoalNode addEdges p g).2 (goal_idx_ (addGoalNode addEdges p g).2) = true ∧
   start_idx_ (addGoalNode addEdges p g).2 = start_idx_ g).
Proof.
  split; intros Hok.
  - unfold addStartNode in *.
    destruct (addNode_success_shape p (set_start_idx (graph_size g) g) Hok)
      as (Hlen & _ & Hs & Hg).
    rewrite Hs, Hg. simpl. split; [done|]. split; [|done].
    apply nodeExists_lt. rewrite Hlen. simpl. unfold graph_size. lia.
  - unfold addGoalNode in *.
    destruct (addNode_success_shape p (set_goal_idx (graph_size g) g) Hok)
      as (Hlen & _ & Hs & Hg).
    rewrite Hs, Hg. simpl. split; [done|]. split; [|done].
    apply nodeExists_lt. rewrite Hlen. simpl. unfold graph_size. lia.
Qed.

Lemma addNode_nodes_paired (p : NodeProperty) g :
  nodes_paired g → nodes_paired (addNode addEdges p g).2.
Proof.
  intros Hg. pose proof (nodes_paired_fresh g Hg) as Hfresh.
  destruct (addNode addEdges p g).1 eqn:Hok.
  - destruct (addNode_success_shape p g Hok) as (Hlen & Hnp & _ & _).
    intros i. pose proof (Hg i) as Hi. unfold nodePropertyExists in *.
    rewrite Hnp. unfold map_emplace. rewrite Hfresh.
    destruct (decide (i = graph_size g)) as [->|Hne].
    + rewrite lookup_insert_eq, bool_decide_eq_true_2 by eauto.
      symmetry. apply nodeExists_lt. rewrite Hlen. unfold graph_size. lia.
    + rewrite lookup_insert_ne by done. rewrite Hi.
      destruct (nodeExists g i) eqn:E; symmetry.
      * apply nodeExists_lt. rewrite Hlen. apply nodeExists_lt in E. lia.
      * apply not_true_is_false. intros E'%nodeExists_lt. rewrite Hlen in E'.
        apply not_true_iff_false in E. apply E, nodeExists_lt.
        unfold graph_size in Hne. lia.
  - destruct (addNode_failure_nodes addEdges p g Hok) as (Hlen & _ & _ & Hnp).
    apply nodes_paired_ext with g; auto.
Qed.

(** X4.  Every operation keeps the node properties paired with the nodes:
    an index has a node property exactly when it is a node, so
    [getNodeProperty] answers for every existing node and for no other
    index. *)
Theorem nodes_paired_invariant (op : @operation NodeProperty EdgeProperty) g :
  nodes_paired g →
  nodes_paired (perform addEdges op g) ∧
  ∀ i, is_Some (getNodeProperty g i) ↔ nodeExists g i = true.
Proof.
  intros Hg. split.
  - destruct op; simpl.
    + by apply addNode_nodes_paired.
    + unfold addStartNode. apply addNode_nodes_paired. by apply nodes_paired_ext with g.
    + unfold addGoalNode. apply addNode_nodes_paired. by apply nodes_paired_ext with g.
    + apply nodes_paired_ext with g; [..|done].
      * unfold addEdge. by destruct (Qle_bool 0 c && nodeExists g e.1).
      * apply addEdge_length.
    + intros i. unfold nodePropertyExists, nodeExists. simpl.
      rewrite lookup_empty. rewrite bool_decide_eq_false_2 by (by intros [? ?]).
      symmetry. apply N.ltb_ge. unfold graph_size. simpl. lia.
    + apply nodes_paired_ext with g; [done| |done]. simpl. apply length_map.
    + done.
  - intros i. specialize (Hg i). unfold getNodeProperty. rewrite <- Hg.
    unfold nodePropertyExists. case_bool_decide as H; split; try done; by intros [? ?].
Qed.

(** ** Edges, their costs and their properties *)

Lemma edgeExists_stored g (e : EdgeId) :
  edgeExists g e = bool_decide (is_Some (stored_cost g e)).
Proof.
  unfold edgeExists, stored_cost.
  destruct (graph_ g !! N.to_nat e.1) as [r|] eqn:Hr; simpl.
  - assert (nodeExists g e.1 = true) as -> by (apply nodeExists_lookup; eauto). done.
  - rewrite andb_false_r. symmetry.
    first [done | apply bool_decide_eq_false; by intros [? ?]].
Qed.

Lemma getEdgeCost_stored g (e : EdgeId) :
  getEdgeCost g e = match stored_cost g e with Some c => (true, c) | None => (false, - (1)) end.
Proof.
  unfold getEdgeCost. rewrite edgeExists_stored. unfold stored_cost.
  destruct (graph_ g !! N.to_nat e.1) as [r|]; simpl; [|done].
  unfold at0. by destruct (r !! e.2).
Qed.

Lemma getEdgeProperty_lookup g (e : EdgeId) : getEdgeProperty g e = edge_properties_ g !! e.
Proof.
  unfold getEdgeProperty, edgePropertyExists.
  case_bool_decide as H; [done|]. symmetry. by apply eq_None_not_Some.
Qed.

Lemma getNodeProperty_lookup g i : getNodeProperty g i = node_properties_ g !! i.
Proof.
  unfold getNodeProperty, nodePropertyExists.
  case_bool_decide as H; [done|]. symmetry. by apply eq_None_not_Some.
Qed.

Lemma addEdge_stored_ne (e e' : EdgeId) (p : EdgeProperty) c g :
  e' ≠ e → stored_cost (addEdge e p c g).2 e' = stored_cost g e'.
Proof.
  intros Hne. destruct (addEdge e p c g).1 eqn:Hok; [|by rewrite addEdge_failure].
  unfold stored_cost. rewrite addEdge_graph by done.
  rewrite list_lookup_alter. case_decide as Hi; [|done].
  rewrite <- Hi. destruct (graph_ g !! N.to_nat e.1) as [r|]; simpl; [|done].
  rewrite lookup_insert_ne; [done|]. intros Heq. apply Hne.
  destruct e, e'. simpl in *. f_equal; [lia|done].
Qed.

Lemma addEdge_property_ne (e e' : EdgeId) (p : EdgeProperty) c g :
  e' ≠ e → edge_properties_ (addEdge e p c g).2 !! e' = edge_properties_ g !! e'.
Proof.
  intros Hne. unfold addEdge. destruct (Qle_bool 0 c && nodeExists g e.1); [|done].
  simpl. unfold map_emplace. destruct (edge_properties_ g !! e); [done|].
  by rewrite lookup_insert_ne.
Qed.

Lemma clearEdges_stored g (e : EdgeId) : stored_cost (clearEdges g) e = None.
Proof.
  unfold stored_cost, clearEdges. simpl. rewrite list_lookup_fmap.
  destruct (graph_ g !! N.to_nat e.1); simpl; [apply lookup_empty|done].
Qed.

(** X5.  A successful [addEdge] is read back: the edge exists, its cost is
    the one given, and its property is the one it had before if it had one
    and the one given otherwise. *)
Theorem addEdge_lookup (e : EdgeId) (p : EdgeProperty) c g :
  (addEdge e p c g).1 = true →
  edgeExists (addEdge e p c g).2 e = true ∧
  getEdgeCost (addEdge e p c g).2 e = (true, c) ∧
  getEdgeProperty (addEdge e p c g).2 e = Some (default p (getEdgeProperty g e)).
Proof.
  intros Hok. pose proof (addEdge_records_cost e p c g Hok) as Hcost.
  split; [|split; [done|]].
  - by rewrite <- getEdgeCost_status, Hcost.
  - rewrite !getEdgeProperty_lookup. by apply addEdge_property.
Qed.

(** X6.  [addEdge] touches one edge only: every other edge identifier keeps
    its existence, cost and property, every index keeps its node status and
    node property, and both markers stay. *)
Theorem addEdge_frame (e e' : EdgeId) (p : EdgeProperty) c g :
  e' ≠ e →
  let g' := (addEdge e p c g).2 in
  edgeExists g' e' = edgeExists g e' ∧
  getEdgeCost g' e' = getEdgeCost g e' ∧
  getEdgeProperty g' e' = getEdgeProperty g e' ∧
  (∀ i, nodeExists g' i = nodeExists g i ∧ getNodeProperty g' i = getNodeProperty g i) ∧
  start_idx_ g' = start_idx_ g ∧ goal_idx_ g' = goal_idx_ g.
Proof.
  intros Hne. simpl.
  rewrite !edgeExists_stored, !getEdgeCost_stored, !getEdgeProperty_lookup.
  rewrite addEdge_stored_ne, addEdge_property_ne by done.
  repeat split; try done.
  - unfold nodeExists, graph_size. by rewrite addEdge_length.
  - rewrite !getNodeProperty_lookup. unfold addEdge.
    by destruct (Qle_bool 0 c && nodeExists g e.1).
  - unfold addEdge. by destruct (Qle_bool 0 c && nodeExists g e.1).
  - unfold addEdge. by destruct (Qle_bool 0 c && nodeExists g e.1).
Qed.

(** X7.  On a graph with non-negative costs [getEdgeCost] writes a negative
    cost exactly when it returns false: the value -1 written for a missing
    edge is never the cost of an edge. *)
Theorem getEdgeCost_sentinel g (e : EdgeId) :
  costs_nonneg g →
  ((getEdgeCost g e).1 = false ↔ (getEdgeCost g e).2 < 0) ∧
  ((getEdgeCost g e).1 = false → (getEdgeCost g e).2 == - (1)).
Proof.
  intros Hg. rewrite getEdgeCost_stored.
  destruct (stored_cost g e) as [c|] eqn:Hc; simpl.
  - assert (0 <= c) as Hc0.
    { unfold stored_cost in Hc.
      destruct (graph_ g !! N.to_nat e.1) as [r|] eqn:Hr; simpl in Hc; [|done]. eauto. }
    split; [|done]. split; [done|]. intros H. lra.
  - split; [|intros _; lra]. split; [intros _; lra|done].
Qed.

Lemma addEdge_edges_have_property (e : EdgeId) (p : EdgeProperty) c g :
  edges_have_property g → edges_have_property (addEdge e p c g).2.
Proof.
  intros Hg e' He'. destruct (addEdge e p c g).1 eqn:Hok; [|rewrite addEdge_failure in *; auto].
  unfold edgePropertyExists. apply bool_decide_eq_true.
  destruct (decide (e' = e)) as [->|Hne].
  - rewrite addEdge_property by done. eauto.
  - rewrite addEdge_property_ne by done.
    rewrite edgeExists_stored, addEdge_stored_ne, <- edgeExists_stored in He' by done.
    apply Hg in He'. by apply bool_decide_eq_true in He'.
Qed.

Lemma run_calls_edges_have_property (cs : list (@edge_call EdgeProperty)) g :
  edges_have_property g → edges_have_property (fold_left run_call cs g).
Proof.
  revert g. induction cs as [|c cs IH]; intros g Hg; [done|].
  simpl. apply IH. by apply addEdge_edges_have_property.
Qed.

Lemma edges_have_property_sub g g' :
  (∀ e, is_Some (stored_cost g' e) → is_Some (stored_cost g e)) →
  edge_properties_ g' = edge_properties_ g →
  edges_have_property g → edges_have_property g'.
Proof.
  intros Hsub Hep Hg e. rewrite edgeExists_stored. intros He%bool_decide_eq_true.
  apply Hsub in He. unfold edgePropertyExists. rewrite Hep.
  apply Hg. rewrite edgeExists_stored. by apply bool_decide_eq_true.
Qed.

Lemma addNode_edges_have_property (p : NodeProperty) g :
  edges_have_property g → edges_have_property (addNode addEdges p g).2.
Proof.
  intros Hg. unfold addNode, run_hook. set (g2 := set_node_properties _ _).
  assert (edges_have_property g2) as H2.
  { apply edges_have_property_sub with g; [|done|done].
    intros e [c Hc]. unfold stored_cost in *. simpl in Hc.
    destruct ((graph_ g ++ [∅]) !! N.to_nat e.1) as [r|] eqn:Hr; simpl in Hc; [|done].
    apply lookup_app_Some in Hr as [Hr|[_ Hr]].
    - rewrite Hr. simpl. eauto.
    - apply list_lookup_singleton_Some in Hr as [_ <-]. by rewrite lookup_empty in Hc. }
  pose proof (run_calls_edges_have_property (addEdges g2).1 g2 H2) as H3.
  destruct (addEdges g2).2; simpl; [done|].
  apply edges_have_property_sub with (fold_left run_call (addEdges g2).1 g2);
    [|done|exact H3].
  intros e [c Hc]. unfold stored_cost in *. simpl in Hc.
  destruct (removelast _ !! N.to_nat e.1) as [r|] eqn:Hr; simpl in Hc; [|done].
  apply lookup_removelast in Hr. rewrite Hr. simpl. eauto.
Qed.

(** X8.  Every operation keeps a property stored for every existing edge, so
    [getEdgeProperty] answers for every edge for which [edgeExists] holds. *)
Theorem edges_have_property_invariant (op : @operation NodeProperty EdgeProperty) g :
  edges_have_property g →
  edges_have_property (perform addEdges op g) ∧
  ∀ e : EdgeId, edgeExists g e = true → is_Some (getEdgeProperty g e).
Proof.
  intros Hg. split.
  - destruct op; simpl.
    + by apply addNode_edges_have_property.
    + unfold addStartNode. apply addNode_edges_have_property.
      by apply edges_have_property_sub with g.
    + unfold addGoalNode. apply addNode_edges_have_property.
      by apply edges_have_property_sub with g.
    + by apply addEdge_edges_have_property.
    + intros e. rewrite edgeExists_stored. intros [c Hc]%bool_decide_eq_true.
      unfold stored_cost in Hc. simpl in Hc. done.
    + intros e He. by rewrite edgeExists_stored, clearEdges_stored in He.
    + done.
  - intros e He%Hg. rewrite getEdgeProperty_lookup.
    by apply bool_decide_eq_true in He.
Qed.

(** X9.  [clearEdges] leaves a graph, whatever it was, in which every
    adjacency entry points at an existing node; and [addEdge] to a
    destination that exists keeps it so. *)
Theorem targets_exist_kept (e : EdgeId) (p : EdgeProperty) c g :
  targets_exist (clearEdges g) ∧
  (targets_exist g → nodeExists g e.2 = true → targets_exist (addEdge e p c g).2).
Proof.
  split.
  - intros i r j c' Hr Hj. simpl in Hr. rewrite list_lookup_fmap in Hr.
    destruct (graph_ g !! i); simplify_eq/=; by rewrite lookup_empty in Hj.
  - intros Hg He.
    destruct (addEdge e p c g).1 eqn:Hok; [|by rewrite addEdge_failure].
    intros i r j c' Hr Hj. unfold nodeExists, graph_size. rewrite addEdge_length.
    rewrite addEdge_graph in Hr by done.
    rewrite list_lookup_alter in Hr. case_decide as Hi; [|by eapply Hg].
    subst i. destruct (graph_ g !! N.to_nat e.1) as [r0|] eqn:Hr0; simpl in Hr; [|done].
    injection Hr as <-. rewrite lookup_insert in Hj.
    case_decide; simplify_eq; [done|]. by eapply Hg.
Qed.

(** X10.  No operation but [clear] removes a node: an existing node stays
    a node, and on a graph whose properties are paired with its nodes it
    keeps its property. *)
Theorem nodes_kept (op : @operation NodeProperty EdgeProperty) g i :
  op ≠ OpClear → nodeExists g i = true →
  nodeExists (perform addEdges op g) i = true ∧
  (nodes_paired g → getNodeProperty (perform addEdges op g) i = getNodeProperty g i).
Proof.
  intros Hop Hi.
  assert (∀ p g0, nodeExists g0 i = true →
            nodeExists (addNode addEdges p g0).2 i = true ∧
            (nodes_paired g0 →
             getNodeProperty (addNode addEdges p g0).2 i = getNodeProperty g0 i)) as Hadd.
  { intros p g0 Hi0. destruct (addNode addEdges p g0).1 eqn:Hok.
    - destruct (addNode_success_shape p g0 Hok) as (Hlen & Hnp & _ & _). split.
      + apply nodeExists_lt. rewrite Hlen. apply nodeExists_lt in Hi0. lia.
      + intros Hp. rewrite !getNodeProperty_lookup, Hnp. unfold map_emplace.
        rewrite (nodes_paired_fresh g0 Hp). rewrite lookup_insert_ne; [done|].
        intros <-. unfold nodeExists in Hi0. by rewrite N.ltb_irrefl in Hi0.
    - destruct (addNode_failure_nodes addEdges p g0 Hok) as (Hlen & _ & _ & Hnp). split.
      + apply nodeExists_lt. rewrite Hlen. by apply nodeExists_lt.
      + intros Hp. rewrite !getNodeProperty_lookup, Hnp; [done|].
        by apply nodes_paired_fresh. }
  destruct op; simpl; try done.
  - by apply Hadd.
  - unfold addStartNode.
    destruct (Hadd p (set_start_idx (graph_size g) g) Hi) as [H1 H2].
    split; [done|]. intros Hp. rewrite H2; [done|]. by apply nodes_paired_ext with g.
  - unfold addGoalNode.
    destruct (Hadd p (set_goal_idx (graph_size g) g) Hi) as [H1 H2].
    split; [done|]. intros Hp. rewrite H2; [done|]. by apply nodes_paired_ext with g.
  - split.
    + unfold nodeExists, graph_size in *. by rewrite addEdge_length.
    + intros _. rewrite !getNodeProperty_lookup. unfold addEdge.
      by destruct (Qle_bool 0 c && nodeExists g e.1).
  - split; [|done]. unfold nodeExists, graph_size in *. simpl. by rewrite length_map.
Qed.

(** X11.  After [clearEdges] the exported matrix is defined and every cell
    of it is [INT_MAX]. *)
Theorem getAdjacencyMatrix_clearEdges g :
  getAdjacencyMatrix (clearEdges g) =
  Some (replicate (length (graph_ g)) (replicate (length (graph_ g)) INT_MAX)).
Proof.
  unfold getAdjacencyMatrix.
  assert (length (graph_ (clearEdges g)) = length (graph_ g)) as -> by apply length_map.
  assert (∀ (A : Type) (x : A) (f : nat → option A) n k, (∀ i, f i = Some x) →
            mapM f (seq k n) = Some (replicate n x)) as Hconst.
  { intros A x f n. induction n as [|n IH]; intros k Hf; [done|].
    apply mapM_Some. simpl. constructor; [apply Hf|]. apply mapM_Some, IH, Hf. }
  apply Hconst. intros i. apply Hconst. intros j.
  by rewrite edgeExists_stored, clearEdges_stored.
Qed.

End Bookkeeping.

(** * Further properties of the searches *)

Section Searches.

Context {NodeProperty EdgeProperty : Type}.

Implicit Types g : @GraphBase NodeProperty EdgeProperty.

(** ** reconstructSolution *)

Lemma reconstruct_loop_Done (cf : gmap N N) (fuel : nat) :
  ∀ v acc out,
  reconstruct_loop fuel cf v (acc ++ [v]) = Done out →
  ∃ l, trail cf v l ∧ out = acc ++ l ∧ (length l ≤ fuel)%nat.
Proof.
  induction fuel as [|fuel IH]; intros v acc out Hrun; [done|].
  simpl in Hrun. destruct (cf !! v) as [u|] eqn:Hv.
  - apply (IH u (acc ++ [v])) in Hrun as (l & Hl & -> & Hlen).
    exists (v :: l). split; [by apply trail_step with u|].
    split; [by rewrite <- app_assoc|simpl; lia].
  - injection Hrun as <-. exists [v]. split; [by apply trail_end|].
    split; [done|simpl; lia].
Qed.

Lemma reconstructSolution_Done (cf : gmap N N) (fuel : nat) v p :
  reconstructSolution fuel cf v = Done p →
  ∃ l, trail cf v l ∧ p = reverse l ∧ (length l ≤ fuel)%nat.
Proof.
  unfold reconstructSolution.
  destruct (reconstruct_loop fuel cf v [v]) as [out| |] eqn:Hrun; [|done..].
  intros [= <-]. apply (reconstruct_loop_Done cf fuel v []) in Hrun as (l & Hl & -> & Hlen).
  eauto.
Qed.

Lemma chained_snoc (cf : gmap N N) p u v :
  chained cf p → last p = Some u → cf !! v = Some u → chained cf (p ++ [v]).
Proof.
  intros Hp Hu Hv. induction p as [|a p IH]; [done|].
  destruct p as [|b p].
  - injection Hu as ->. simpl. done.
  - destruct Hp as [Hab Hp]. simpl. split; [done|]. by apply IH.
Qed.

Lemma trail_chained (cf : gmap N N) v l : trail cf v l → chained cf (reverse l).
Proof.
  induction 1 as [v Hv|v u l Hv Hl IH]; [done|].
  rewrite reverse_cons. apply chained_snoc with u; [done| |done].
  by rewrite last_reverse, (trail_head _ _ _ Hl).
Qed.

Lemma trail_root (cf : gmap N N) v l : trail cf v l → ∃ r, last l = Some r ∧ cf !! r = None.
Proof.
  induction 1 as [v Hv|v u l Hv Hl (r & Hr & Hroot)]; [by exists v|].
  exists r. split; [|done]. destruct l; [done|]. by rewrite last_cons_cons.
Qed.

(** X12.  Whatever the predecessor map, a sequence that
    [reconstructSolution] returns ends at the node it was asked for, starts
    at a node without predecessor, and steps from each node to the next
    along the map; it is never longer than the fuel, so on a map with a
    cycle through the node no sequence is returned. *)
Theorem reconstructSolution_chain (cf : gmap N N) (fuel : nat) v p :
  reconstructSolution fuel cf v = Done p →
  last p = Some v ∧
  (∃ r, head p = Some r ∧ cf !! r = None) ∧
  chained cf p ∧
  (length p ≤ fuel)%nat.
Proof.
  intros (l & Hl & -> & Hlen)%reconstructSolution_Done.
  split; [by rewrite last_reverse, (trail_head _ _ _ Hl)|].
  split; [rewrite head_reverse; by apply trail_root with v|].
  split; [by apply trail_chained with v|]. by rewrite length_reverse.
Qed.

(** ** What every returned solution satisfies *)

Lemma chained_edges g (cf : gmap N N) p :
  predecessors_are_edges g cf → chained cf p → p ≠ [] → is_Some (solution_cost g p).
Proof.
  intros Hcf. induction p as [|u p IH]; intros Hp Hne; [done|].
  destruct p as [|v p]; [by eexists|].
  destruct Hp as [Huv Hp]. destruct (Hcf v u Huv) as [w He].
  destruct (IH Hp) as [c Hc]; [done|].
  rewrite solution_cost_cons, (edge_getEdgeCost _ _ _ _ He), Hc. by eexists.
Qed.

Lemma reconstructSolution_sound g (cf : gmap N N) (fuel : nat) v p :
  predecessors_are_edges g cf → reconstructSolution fuel cf v = Done p →
  last p = Some v ∧ is_Some (solution_cost g p).
Proof.
  intros Hcf (l & Hl & -> & Hlen)%reconstructSolution_Done.
  pose proof (trail_head _ _ _ Hl) as Hh.
  split; [by rewrite last_reverse|].
  apply chained_edges with cf; [done|by apply trail_chained with v|].
  destruct l; [done|]. rewrite reverse_cons. by destruct (reverse l).
Qed.

Lemma predecessors_insert g (cf : gmap N N) u v w :
  predecessors_are_edges g cf → edge g u v w → predecessors_are_edges g (<[v := u]> cf).
Proof.
  intros Hcf He x y. rewrite lookup_insert. case_decide; [|by apply Hcf].
  intros [= <-]. subst. eauto.
Qed.

Lemma dijkstra_neighbors_predecessors g closed current ns :
  (∀ n, n ∈ ns → edge g current n.1 n.2) →
  ∀ open cf cost, predecessors_are_edges g cf →
  predecessors_are_edges g (dijkstra_neighbors closed current ns open cf cost).1.2.
Proof.
  induction ns as [|n ns IH]; intros Hedges open cf cost Hcf; [done|].
  assert (∀ n', n' ∈ ns → edge g current n'.1 n'.2) as Hedges'
    by (intros n' Hn'; apply Hedges; by right).
  simpl. case_decide; [by apply IH|].
  destruct (Qle_bool _ _); [by apply IH|].
  apply IH; [done|]. apply predecessors_insert with n.2; [done|]. apply Hedges. left.
Qed.

Lemma astar_neighbors_predecessors g heuristic closed current ns :
  (∀ n, n ∈ ns → edge g current n.1 n.2) →
  ∀ open cf cost cwh result, predecessors_are_edges g cf →
  astar_neighbors heuristic closed current ns open cf cost cwh = Some result →
  predecessors_are_edges g result.1.1.2.
Proof.
  induction ns as [|n ns IH]; intros Hedges open cf cost cwh result Hcf Hrun.
  { by injection Hrun as <-. }
  assert (∀ n', n' ∈ ns → edge g current n'.1 n'.2) as Hedges'
    by (intros n' Hn'; apply Hedges; by right).
  simpl in Hrun. case_decide; [by eapply IH|].
  destruct (Qle_bool _ _); [by eapply IH|].
  destruct (heuristic !! n.1); [|done].
  eapply IH; [done| |exact Hrun].
  apply predecessors_insert with n.2; [done|]. apply Hedges. left.
Qed.

Lemma dijkstra_while_sound g (goal : N) (fuel rfuel : nat) :
  ∀ open closed cf cost p,
  predecessors_are_edges g cf →
  dijkstra_while fuel rfuel (graph_ g) goal open closed cf cost = Done (Some p) →
  last p = Some goal ∧ is_Some (solution_cost g p).
Proof.
  induction fuel as [|fuel IH]; intros open closed cf cost p Hcf Hrun; [done|].
  simpl in Hrun. destruct (min_element _ _) as [current|]; [|done].
  destruct (current =? goal)%N eqn:E; [apply N.eqb_eq in E; subst current|].
  - destruct (reconstructSolution rfuel cf goal) as [q| |] eqn:Hq; [|done..].
    injection Hrun as <-. by apply reconstructSolution_sound with cf rfuel.
  - destruct (graph_ g !! N.to_nat current) as [neighbors|] eqn:Hrow; [|done].
    pose proof (dijkstra_neighbors_predecessors g (closed ∪ {[current]}) current
                  (map_order neighbors) (row_edges g current neighbors Hrow)
                  (open ∖ {[current]}) cf cost Hcf) as Hcf'.
    destruct (dijkstra_neighbors _ _ _ _ _ _) as [[open' cf'] cost'].
    by apply IH in Hrun.
Qed.

Lemma astar_while_sound g (heuristic : Heuristic) (goal : N) (fuel rfuel : nat) :
  ∀ open closed cf cost cwh p,
  predecessors_are_edges g cf →
  astar_while fuel rfuel (graph_ g) heuristic goal open closed cf cost cwh = Done (Some p) →
  last p = Some goal ∧ is_Some (solution_cost g p).
Proof.
  induction fuel as [|fuel IH]; intros open closed cf cost cwh p Hcf Hrun; [done|].
  simpl in Hrun. destruct (min_element _ _) as [current|]; [|done].
  destruct (current =? goal)%N eqn:E; [apply N.eqb_eq in E; subst current|].
  - destruct (reconstructSolution rfuel cf goal) as [q| |] eqn:Hq; [|done..].
    injection Hrun as <-. by apply reconstructSolution_sound with cf rfuel.
  - destruct (graph_ g !! N.to_nat current) as [neighbors|] eqn:Hrow; [|done].
    destruct (astar_neighbors _ _ _ _ _ _ _ _) as [[[[open' cf'] cost'] cwh']|] eqn:Hn;
      [|done].
    apply IH in Hrun; [done|].
    by apply (astar_neighbors_predecessors g heuristic (closed ∪ {[current]}) current
                (map_order neighbors) (row_edges g current neighbors Hrow)
                _ _ _ _ _ Hcf Hn).
Qed.

(** X13.  On any graph, with any estimate, a sequence that [solveDijkstra]
    or [solveAStar] returns with true ends at the goal and steps along
    adjacency entries of the graph only. *)
Theorem solution_follows_edges
    (calculateHeuristic : @GraphBase NodeProperty EdgeProperty → N → bool * Heuristic)
    g (start goal : N) (fuel : nat) (solution p : Solution) :
  (solveDijkstra fuel g start goal solution = Done (true, p) →
   last p = Some goal ∧ is_Some (solution_cost g p)) ∧
  (solveAStar calculateHeuristic fuel g start goal solution = Done (true, p) →
   last p = Some goal ∧ is_Some (solution_cost g p)).
Proof.
  assert (predecessors_are_edges g ∅) as H0.
  { intros v u Hv. by rewrite lookup_empty in Hv. }
  split.
  - unfold solveDijkstra.
    destruct (negb (nodeExists g start) || negb (nodeExists g goal)); [done|].
    destruct (dijkstra_while _ _ _ _ _ _ _ _) as [[found|]| |] eqn:Hrun; try done.
    intros [= <-]. by apply dijkstra_while_sound in Hrun.
  - unfold solveAStar.
    destruct (negb (nodeExists g start) || negb (nodeExists g goal)); [done|].
    destruct (calculateHeuristic g goal) as [[] heuristic]; simpl; [|done].
    destruct (heuristic !! start); [|done].
    destruct (astar_while _ _ _ _ _ _ _ _ _ _) as [[found|]| |] eqn:Hrun; try done.
    intros [= <-]. by apply astar_while_sound in Hrun.
Qed.

(** ** Degenerate and failing searches *)

Lemma set_order_singleton (x : N) : set_order {[x]} = [x].
Proof.
  unfold set_order. apply Permutation_singleton_r.
  by rewrite merge_sort_Permutation, elements_singleton.
Qed.

(** X14.  With [start] equal to [goal] and one iteration of fuel, both
    searches return the one-element sequence at once, whatever the edges of
    the graph: [solveDijkstra] when the node exists, [solveAStar] when
    moreover the hook succeeds with an estimate for it. *)
Theorem search_at_goal
    (calculateHeuristic : @GraphBase NodeProperty EdgeProperty → N → bool * Heuristic)
    g (start : N) (fuel : nat) (solution : Solution) (heuristic : Heuristic) :
  nodeExists g start = true →
  solveDijkstra (S fuel) g start start solution = Done (true, [start]) ∧
  (calculateHeuristic g start = (true, heuristic) → is_Some (heuristic !! start) →
   solveAStar calculateHeuristic (S fuel) g start start solution = Done (true, [start])).
Proof.
  intros Hstart. split.
  - unfold solveDijkstra. rewrite Hstart. simpl.
    rewrite set_order_singleton. simpl. rewrite N.eqb_refl.
    unfold reconstructSolution. simpl. by rewrite lookup_empty.
  - intros Hcalc [hs Hhs]. unfold solveAStar. rewrite Hstart, Hcalc. simpl.
    rewrite Hhs. simpl. rewrite set_order_singleton. simpl. rewrite N.eqb_refl.
    unfold reconstructSolution. simpl. by rewrite lookup_empty.
Qed.

Lemma map_order_NoDup (m : gmap N Q) : NoDup (map_order m).*1.
Proof.
  unfold map_order. rewrite merge_sort_Permutation. apply NoDup_fst_map_to_list.
Qed.

(** A neighbour that would be improved and has no estimate stops the [for]
    loop with [return false], wherever it stands among the neighbours. *)
Lemma astar_neighbors_missing (heuristic : Heuristic) (closed : gset N) (current v : N) (w : Q) ns :
  NoDup ns.*1 → (v, w) ∈ ns → current ∈ closed → v ∉ closed → heuristic !! v = None →
  ∀ open cf cost cwh,
  dadd (at0 cost current) w < at0 cost v →
  astar_neighbors heuristic closed current ns open cf cost cwh = None.
Proof.
  intros Hnd Hin Hcur Hv Hh. induction ns as [|n ns IH]; intros open cf cost cwh Hlt.
  { by apply elem_of_nil in Hin. }
  apply NoDup_cons in Hnd as [Hn Hnd]. simpl.
  apply elem_of_cons in Hin as [<-|Hin].
  - simpl. rewrite decide_False by done.
    assert (Qle_bool (at0 cost v) (dadd (at0 cost current) w) = false) as ->
      by (by apply Qle_bool_false).
    by rewrite Hh.
  - assert (n.1 ≠ v) as Hne.
    { intros <-. apply Hn. apply list_elem_of_fmap. by exists (n.1, w). }
    case_decide as Hclosed; [by apply IH|].
    destruct (Qle_bool _ _); [by apply IH|].
    destruct (heuristic !! n.1); [|done].
    apply IH; [done|done|].
    rewrite !at0_insert_ne; [done|..];
      first [exact Hne | intros Heq; apply Hclosed; by rewrite Heq].
Qed.

(** X15.  A missing estimate is a failure of the whole search: when a
    neighbour of [start] (an existing node other than [start], reached by an
    edge whose cost is a double below [DBL_MAX]) has no entry in the estimate
    the hook returned, [solveAStar] returns false and leaves the solution as
    it was, whether or not the goal can be reached. *)
Theorem solveAStar_missing_estimate
    (calculateHeuristic : @GraphBase NodeProperty EdgeProperty → N → bool * Heuristic)
    g (start goal v : N) (w : Q) (fuel : nat) (solution : Solution) (heuristic : Heuristic) :
  nodeExists g start = true → nodeExists g goal = true → start ≠ goal →
  calculateHeuristic g goal = (true, heuristic) → is_Some (heuristic !! start) →
  edge g start v w → nodeExists g v = true → v ≠ start →
  is_double w → w < DBL_MAX →
  heuristic !! v = None →
  solveAStar calculateHeuristic (S fuel) g start goal solution = Done (false, solution).
Proof.
  intros Hstart Hgoal Hne Hcalc [hs Hhs] (neighbors & Hrow & Hvw) Hv Hvs Hdouble Hw Hh.
  unfold solveAStar. rewrite Hstart, Hgoal, Hcalc. simpl. rewrite Hhs. simpl.
  rewrite set_order_singleton. simpl.
  apply N.eqb_neq in Hne. rewrite Hne, Hrow.
  rewrite (astar_neighbors_missing heuristic _ start v w (map_order neighbors)); [done|..].
  - apply map_order_NoDup.
  - by apply elem_of_map_order.
  - set_solver.
  - set_solver.
  - done.
  - rewrite at0_insert_eq, at0_insert_ne by done. unfold at0.
    rewrite fill_max_lookup. apply nodeExists_lt in Hv. rewrite decide_True by done.
    simpl. rewrite dadd_comm, (dadd_0_r w 0 Hdouble) by reflexivity. exact Hw.
Qed.

(** X16.  On a graph with non-negative costs whose adjacency entries point
    at existing nodes, for two existing nodes and fuel above the node count,
    [solveDijkstra] returns true exactly when [goal] can be reached from
    [start], and with false it hands back the empty solution. *)
Theorem solveDijkstra_reachability g (start goal : N) (fuel : nat) (solution : Solution) :
  targets_exist g → costs_nonneg g →
  nodeExists g start = true → nodeExists g goal = true →
  (length (graph_ g) < fuel)%nat →
  ∃ b p, solveDijkstra fuel g start goal solution = Done (b, p) ∧
         (b = true ↔ ∃ c, path g start goal c) ∧
         (b = false → p = []).
Proof.
  intros Htargets Hnonneg Hstart Hgoal Hfuel.
  destruct (solveDijkstra_reach g start goal fuel solution Htargets Hstart Hgoal Hfuel)
    as ([p|] & Hrun & Hiff).
  - exists true, p. split; [done|]. split; [|done]. split; [|done].
    intros _. apply Hiff. eauto.
  - exists false, []. split; [done|]. split; [|done].
    split; [done|]. intros [? ?]%Hiff. done.
Qed.

(** X17.  With an estimate of zero at every node [solveAStar] is
    [solveDijkstra]: on a graph whose adjacency entries point at existing
    nodes the two return the same status and the same sequence. *)
Theorem solveAStar_zero_estimate g (start goal : N) (fuel : nat) (solution : Solution) :
  targets_exist g →
  solveAStar (λ g0 _, (true, zero_heuristic (length (graph_ g0)))) fuel g start goal [] =
  solveDijkstra fuel g start goal solution.
Proof. apply solveDijkstra_astar. Qed.

(** ** The node that is expanded next *)

Lemma min_element_first (key : N → Q) (rest : list N) :
  ∀ first, StronglySorted N.le (first :: rest) →
  ∀ y, y ∈ first :: rest →
  key y <= key (fold_left (λ smallest it, if Qltb (key it) (key smallest) then it else smallest)
                          rest first) →
  (fold_left (λ smallest it, if Qltb (key it) (key smallest) then it else smallest)
             rest first <= y)%N.
Proof.
  induction rest as [|x rest IH]; intros first Hs y Hy Hle.
  { apply list_elem_of_singleton in Hy as ->. simpl. lia. }
  apply StronglySorted_inv in Hs as [Hs Hfirst].
  pose proof Hs as [Hs' Hx]%StronglySorted_inv.
  apply Forall_cons in Hfirst as [Hfx Hfirst].
  simpl in *.
  destruct (min_element_fold key rest (if Qltb (key x) (key first) then x else first))
    as [Hin Hmin]. simpl in Hin, Hmin.
  destruct (Qltb (key x) (key first)) eqn:E.
  - apply Qltb_lt in E.
    apply elem_of_cons in Hy as [->|Hy]; [|by apply IH].
    specialize (Hmin x (list_elem_of_here _ _)). lra.
  - assert (key first <= key x) as E'.
    { destruct (Qlt_le_dec (key x) (key first)) as [Hlt|]; [|done].
      apply Qltb_lt in Hlt. congruence. }
    assert (StronglySorted N.le (first :: rest)) as Hs'' by (by constructor).
    apply elem_of_cons in Hy as [->|Hy]; [apply IH; [done|left|done]|].
    apply elem_of_cons in Hy as [->|Hy]; [|apply IH; [done|by right|done]].
    etrans; [|exact Hfx]. apply IH; [done|left|lra].
Qed.

(** X18.  The node that the search expands next has the least key of the
    open set, and among the open nodes of that key it is the one of lowest
    index. *)
Theorem min_element_lowest_index (key : N → Q) (open_set : gset N) (m : N) :
  min_element (λ i j, Qltb (key i) (key j)) (set_order open_set) = Some m →
  m ∈ open_set ∧
  ∀ y, y ∈ open_set → key m <= key y ∧ (key y <= key m → (m <= y)%N).
Proof.
  intros Hmin. pose proof Hmin as [Hin Hleast]%(min_element_spec key).
  split; [by apply elem_of_set_order|].
  intros y Hy%elem_of_set_order. split; [by apply Hleast|].
  assert (StronglySorted N.le (set_order open_set)) as Hsorted
    by (apply StronglySorted_merge_sort; apply _).
  destruct (set_order open_set) as [|first rest]; [done|].
  simpl in Hmin. injection Hmin as <-. by apply min_element_first.
Qed.

End Searches.

(** ** The further properties on concrete graphs *)

Lemma empty_graph_paired : nodes_paired empty_graph.
Proof. intros i. vm_compute. by destruct i. Qed.

Lemma empty_graph_edges_have_property : edges_have_property empty_graph.
Proof. intros e. rewrite edgeExists_stored. by intros [c Hc]%bool_decide_eq_true. Qed.

Lemma addNode_success_witness :
  nodes_paired empty_graph ∧ (addNode no_edges 4%N empty_graph).1 = true ∧
  getNodeProperty (addNode no_edges 4%N empty_graph).2 0 = Some 4%N.
Proof.
  split; [exact empty_graph_paired|]. split; [reflexivity|].
  exact (proj1 (proj2 (proj2 (addNode_success no_edges 4%N empty_graph
                                empty_graph_paired eq_refl)))).
Defined.

Lemma addNode_rollback_witness :
  (addNode edge_then_fail 4%N (isolated 1)).1 = false ∧
  graph_size (addNode edge_then_fail 4%N (isolated 1)).2 = graph_size (isolated 1).
Proof.
  split; [reflexivity|].
  exact (proj1 (addNode_rollback edge_then_fail 4%N (isolated 1) eq_refl)).
Defined.

Lemma marker_on_success_witness :
  (addStartNode no_edges 4%N (isolated 2)).1 = true ∧
  start_idx_ (addStartNode no_edges 4%N (isolated 2)).2 = graph_size (isolated 2) ∧
  (addGoalNode no_edges 4%N (isolated 2)).1 = true ∧
  goal_idx_ (addGoalNode no_edges 4%N (isolated 2)).2 = graph_size (isolated 2).
Proof.
  split; [reflexivity|]. split.
  { exact (proj1 (proj1 (marker_on_success no_edges 4%N (isolated 2)) eq_refl)). }
  split; [reflexivity|].
  exact (proj1 (proj2 (marker_on_success no_edges 4%N (isolated 2)) eq_refl)).
Defined.

Lemma nodes_paired_invariant_witness :
  nodes_paired empty_graph ∧ nodes_paired (perform no_edges (OpAddStartNode 4%N) empty_graph).
Proof.
  split; [exact empty_graph_paired|].
  exact (proj1 (nodes_paired_invariant no_edges (OpAddStartNode 4%N) empty_graph
                  empty_graph_paired)).
Defined.

Lemma addEdge_lookup_witness :
  (addEdge (0%N, 1%N) 9%N (1 # 2) diamond).1 = true ∧
  getEdgeCost (addEdge (0%N, 1%N) 9%N (1 # 2) diamond).2 (0%N, 1%N) = (true, 1 # 2) ∧
  getEdgeProperty (addEdge (0%N, 1%N) 9%N (1 # 2) diamond).2 (0%N, 1%N) =
    Some (default 9%N (getEdgeProperty diamond (0%N, 1%N))).
Proof.
  split; [reflexivity|].
  exact (proj2 (addEdge_lookup (0%N, 1%N) 9%N (1 # 2) diamond eq_refl)).
Defined.

Lemma addEdge_frame_witness :
  (1%N, 2%N) ≠ (0%N, 1%N) ∧
  getEdgeCost (addEdge (0%N, 1%N) 9%N (1 # 2) diamond).2 (1%N, 2%N) =
    getEdgeCost diamond (1%N, 2%N).
Proof.
  assert ((1%N, 2%N) ≠ (0%N, 1%N)) as Hne by discriminate.
  split; [exact Hne|].
  exact (proj1 (proj2 (addEdge_frame (0%N, 1%N) (1%N, 2%N) 9%N (1 # 2) diamond Hne))).
Defined.

Lemma getEdgeCost_sentinel_witness :
  costs_nonneg diamond ∧
  ((getEdgeCost diamond (3%N, 0%N)).1 = false ↔ (getEdgeCost diamond (3%N, 0%N)).2 < 0).
Proof.
  split; [exact (proj2 diamond_well_formed)|].
  exact (proj1 (getEdgeCost_sentinel diamond (3%N, 0%N) (proj2 diamond_well_formed))).
Defined.

Lemma edges_have_property_invariant_witness :
  edges_have_property empty_graph ∧
  edges_have_property (perform edge_then_fail (OpAddNode 4%N) empty_graph).
Proof.
  split; [exact empty_graph_edges_have_property|].
  exact (proj1 (edges_have_property_invariant edge_then_fail (OpAddNode 4%N) empty_graph
                  empty_graph_edges_have_property)).
Defined.

Lemma targets_exist_kept_witness :
  targets_exist (clearEdges dangling) ∧
  targets_exist diamond ∧ nodeExists diamond 0 = true ∧
  targets_exist (addEdge (3%N, 0%N) 9%N 2 diamond).2.
Proof.
  split; [exact (proj1 (targets_exist_kept (3%N, 0%N) 9%N 2 dangling))|].
  split; [exact (proj1 diamond_well_formed)|]. split; [reflexivity|].
  exact (proj2 (targets_exist_kept (3%N, 0%N) 9%N 2 diamond) (proj1 diamond_well_formed)
               eq_refl).
Defined.

Lemma nodes_kept_witness :
  @OpClearEdges N N ≠ OpClear ∧ nodeExists diamond 3 = true ∧
  nodeExists (perform no_edges OpClearEdges diamond) 3 = true.
Proof.
  assert (@OpClearEdges N N ≠ OpClear) as Hop by discriminate.
  split; [exact Hop|]. split; [reflexivity|].
  exact (proj1 (nodes_kept no_edges OpClearEdges diamond 3 Hop eq_refl)).
Defined.

Lemma reconstructSolution_chain_witness :
  reconstructSolution 4 (<[3%N := 2%N]> (<[2%N := 1%N]> (<[1%N := 0%N]> ∅))) 3
    = Done [0; 1; 2; 3]%N ∧
  last [0; 1; 2; 3]%N = Some 3%N.
Proof.
  assert (reconstructSolution 4 (<[3%N := 2%N]> (<[2%N := 1%N]> (<[1%N := 0%N]> ∅))) 3
            = Done [0; 1; 2; 3]%N) as H by (vm_compute; reflexivity).
  split; [exact H|].
  exact (proj1 (reconstructSolution_chain _ 4 3 [0; 1; 2; 3]%N H)).
Defined.

Lemma solution_follows_edges_witness :
  solveDijkstra 5 diamond 0 3 [] = Done (true, [0; 1; 2; 3]%N) ∧
  solveAStar diamond_estimate 5 diamond 0 3 [] = Done (true, [0; 1; 2; 3]%N) ∧
  is_Some (solution_cost diamond [0; 1; 2; 3]%N).
Proof.
  assert (solveDijkstra 5 diamond 0 3 [] = Done (true, [0; 1; 2; 3]%N)) as H1
    by (vm_compute; reflexivity).
  assert (solveAStar diamond_estimate 5 diamond 0 3 [] = Done (true, [0; 1; 2; 3]%N)) as H2
    by (vm_compute; reflexivity).
  split; [exact H1|]. split; [exact H2|].
  exact (proj2 (proj1 (solution_follows_edges diamond_estimate diamond 0 3 5 []
                         [0; 1; 2; 3]%N) H1)).
Defined.

Lemma search_at_goal_witness :
  nodeExists dangling 1 = true ∧
  solveDijkstra 1 dangling 1 1 [7%N] = Done (true, [1%N]).
Proof.
  split; [reflexivity|].
  exact (proj1 (search_at_goal zero_estimate dangling 1 0 [7%N] ∅ eq_refl)).
Defined.

Lemma solveAStar_missing_estimate_witness :
  edge diamond 0 1 1 ∧ is_double 1 ∧ (∃ c, path diamond 0 3 c) ∧
  solveAStar (λ _ _, (true, <[0%N := 0]> ∅)) 5 diamond 0 3 [7%N] = Done (false, [7%N]).
Proof.
  assert (edge diamond 0 1 1) as He by concrete_edge.
  assert (is_double 1) as Hd by (vm_compute; reflexivity).
  split; [exact He|]. split; [exact Hd|].
  split; [exists (0 + 1 + 1 + 1); exact diamond_path|].
  apply (solveAStar_missing_estimate (λ _ _, (true, <[0%N := 0]> ∅)) diamond 0 3 1 1 4 [7%N]
           (<[0%N := 0]> ∅)); try reflexivity; try discriminate; try exact He; try exact Hd.
  eexists. reflexivity.
Defined.

Lemma solveDijkstra_reachability_witness :
  targets_exist (isolated 2) ∧ costs_nonneg (isolated 2) ∧
  ∃ b p, solveDijkstra 3 (isolated 2) 0 1 [7%N] = Done (b, p) ∧
         (b = true ↔ ∃ c, path (isolated 2) 0 1 c) ∧ (b = false → p = []).
Proof.
  assert (targets_exist (isolated 2) ∧ costs_nonneg (isolated 2)) as [Ht Hc]
    by (apply well_formed_spec; vm_compute; reflexivity).
  split; [exact Ht|]. split; [exact Hc|].
  apply (solveDijkstra_reachability (isolated 2) 0 1 3 [7%N] Ht Hc);
    [reflexivity|reflexivity|vm_compute; lia].
Defined.

Lemma solveAStar_zero_estimate_witness :
  targets_exist detour ∧
  solveAStar zero_estimate 5 detour 0 3 [] = solveDijkstra 5 detour 0 3 [7%N].
Proof.
  split; [exact (proj1 detour_well_formed)|].
  exact (solveAStar_zero_estimate detour 0 3 5 [7%N] (proj1 detour_well_formed)).
Defined.

Lemma min_element_lowest_index_witness :
  min_element (λ i j, Qltb (inject_Z (Z.of_N i mod 2)) (inject_Z (Z.of_N j mod 2)))
              (set_order {[5%N; 4%N; 2%N; 3%N]}) = Some 2%N ∧
  2%N ∈ ({[5%N; 4%N; 2%N; 3%N]} : gset N).
Proof.
  assert (min_element (λ i j, Qltb (inject_Z (Z.of_N i mod 2)) (inject_Z (Z.of_N j mod 2)))
                      (set_order {[5%N; 4%N; 2%N; 3%N]}) = Some 2%N) as H
    by (vm_compute; reflexivity).
  split; [exact H|].
  exact (proj1 (min_element_lowest_index (λ i, inject_Z (Z.of_N i mod 2)) _ 2 H)).
Defined.
